(** * GLSL source preprocessor (source/blender/gpu/glsl_preprocess/glsl_preprocess.hh)

    A shallow embedding of [blender::gpu::shader::Preprocessor].

    - [std::string] is a list of 8-bit characters, [std::string::npos] is
      [None];
    - [std::regex] (ECMAScript grammar, backtracking executor) is an abstract
      syntax tree run by a continuation-passing backtracking matcher;
      [std::regex_search], [std::regex_replace] and [std::smatch] are built on
      it;
    - the member [shared_vars_] is explicit state threaded through [process];
    - the [report_error] callback is a caller-supplied state transformer on a
      caller-chosen type, invoked in program order;
    - the [while] and [for] loops whose progress measure is not structural
      take a bound on their number of iterations and return [None] when it
      is exhausted; the bound used by [process] is shown to be enough. *)

From Stdlib Require Import String Ascii List Arith Bool Lia.
Import ListNotations.

Set Implicit Arguments.

(** ** Strings *)

Definition str := list ascii.

Definition L (s : String.string) : str := String.list_ascii_of_string s.
Arguments L s%_string.

Definition nl : ascii := "010"%char.
Definition sp : ascii := " "%char.

(** [isspace], [isdigit] and [isalnum] of the C locale, which
    [std::regex_traits<char>] uses for [\s], [\d] and [\w]. *)
Definition isspace (c : ascii) : bool :=
  let n := nat_of_ascii c in (n =? 32) || ((9 <=? n) && (n <=? 13)).

Definition isdigit (c : ascii) : bool :=
  let n := nat_of_ascii c in (48 <=? n) && (n <=? 57).

Definition isalnum (c : ascii) : bool :=
  let n := nat_of_ascii c in
  isdigit c || ((65 <=? n) && (n <=? 90)) || ((97 <=? n) && (n <=? 122)).

Definition isword (c : ascii) : bool := isalnum c || Ascii.eqb c "_".

Definition digit_value (c : ascii) : nat := nat_of_ascii c - 48.

(** [std::string::find(pat, pos)]: the least index [i >= pos] at which [pat]
    occurs, [None] for [npos]. *)
Fixpoint starts_with (pat s : str) : bool :=
  match pat, s with
  | [], _ => true
  | _ :: _, [] => false
  | p :: pat', c :: s' => Ascii.eqb p c && starts_with pat' s'
  end.

Fixpoint find_in (pat s : str) (i : nat) : option nat :=
  if starts_with pat s then Some i
  else match s with
       | [] => None
       | _ :: s' => find_in pat s' (S i)
       end.

Definition find (s pat : str) (pos : nat) : option nat :=
  if pos <=? length s then find_in pat (skipn pos s) pos else None.

(** ** Regular expressions *)

Inductive regex : Type :=
| Eps
| Chr (c : ascii)
| Cls (p : ascii -> bool)
| Cat (r1 r2 : regex)
| Alt (r1 r2 : regex)
| Star (greedy : bool) (r : regex)
| Group (n : nat) (r : regex).

Definition Plus (r : regex) : regex := Cat r (Star true r).

Fixpoint Lit (s : str) : regex :=
  match s with
  | [] => Eps
  | c :: s' => Cat (Chr c) (Lit s')
  end.

Definition captures := list (nat * str).

Fixpoint capture (n : nat) (caps : captures) : str :=
  match caps with
  | [] => []
  | (i, v) :: caps' => if i =? n then v else capture n caps'
  end.

(** One quantified sub-pattern, [step], repeated: [n] bounds the number of
    repetitions still possible, each of which consumes a character.  A
    repetition that consumes nothing is refused, as ECMAScript requires. *)
Section StarLoop.

Variable R : Type.
Variable step : str -> captures -> (str -> captures -> option R) -> option R.
Variable greedy : bool.
Variable k : str -> captures -> option R.

Fixpoint star_loop (n : nat) (s : str) (caps : captures) : option R :=
  match n with
  | 0 => k s caps
  | S n' =>
      let again s1 c1 :=
        if length s1 <? length s then star_loop n' s1 c1 else None in
      if greedy then
        match step s caps again with
        | Some x => Some x
        | None => k s caps
        end
      else
        match k s caps with
        | Some x => Some x
        | None => step s caps again
        end
  end.

End StarLoop.

(** The backtracking matcher.  [rmatch r s caps k] matches [r] at the start
    of [s] and hands what is left of [s], and the captures, to the
    continuation [k]; when [k] refuses, the next choice is tried: the
    alternatives of [|] from left to right, one more repetition before one
    less for a greedy quantifier and the other way round for a lazy one. *)
Fixpoint rmatch (R : Type) (r : regex) (s : str) (caps : captures)
    (k : str -> captures -> option R) {struct r} : option R :=
  match r with
  | Eps => k s caps
  | Chr c =>
      match s with
      | a :: t => if Ascii.eqb a c then k t caps else None
      | [] => None
      end
  | Cls p =>
      match s with
      | a :: t => if p a then k t caps else None
      | [] => None
      end
  | Cat r1 r2 => rmatch r1 s caps (fun s1 c1 => rmatch r2 s1 c1 k)
  | Alt r1 r2 =>
      match rmatch r1 s caps k with
      | Some x => Some x
      | None => rmatch r2 s caps k
      end
  | Star greedy r1 => star_loop (rmatch r1) greedy k (length s) s caps
  | Group n r1 =>
      rmatch r1 s caps
        (fun s1 c1 => k s1 ((n, firstn (length s - length s1) s) :: c1))
  end.

(** [std::smatch]. *)
Record smatch : Type := {
  sm_prefix : str;
  sm_str : str;
  sm_suffix : str;
  sm_subs : captures
}.

(** [std::smatch()]: a match object that holds no match. *)
Definition empty_smatch : smatch :=
  {| sm_prefix := []; sm_str := []; sm_suffix := []; sm_subs := [] |}.

(** [match[n].str()] *)
Definition sub (m : smatch) (n : nat) : str :=
  match n with
  | 0 => sm_str m
  | _ => capture n (sm_subs m)
  end.

Definition match_at (r : regex) (s : str) : option (str * captures) :=
  rmatch r s [] (fun s1 c1 => Some (s1, c1)).

(** [std::regex_search]: the match at the leftmost position that has one. *)
Fixpoint search_from (r : regex) (pre s : str) : option smatch :=
  match match_at r s with
  | Some (s1, c1) =>
      Some {| sm_prefix := pre;
              sm_str := firstn (length s - length s1) s;
              sm_suffix := s1;
              sm_subs := c1 |}
  | None =>
      match s with
      | [] => None
      | a :: t => search_from r (pre ++ [a]) t
      end
  end.

Definition regex_search (r : regex) (s : str) : option smatch :=
  search_from r [] s.

(** [std::match_results::format] with the ECMAScript rules: [$$], [$&],
    [$n] and [$nn]. *)
Fixpoint format (m : smatch) (fmt : str) : str :=
  match fmt with
  | [] => []
  | c :: t =>
      if Ascii.eqb c "$" then
        match t with
        | [] => [c]
        | d :: t1 =>
            if Ascii.eqb d "$" then d :: format m t1
            else if Ascii.eqb d "&" then sm_str m ++ format m t1
            else if isdigit d then
              match t1 with
              | [] => sub m (digit_value d)
              | d2 :: t2 =>
                  if isdigit d2
                  then sub m (10 * digit_value d + digit_value d2) ++ format m t2
                  else sub m (digit_value d) ++ format m t1
              end
            else c :: format m t
        end
      else c :: format m t
  end.

(** [std::regex_replace]: every match, from left to right, each search
    resuming where the previous match ended. *)
Fixpoint regex_replace_loop (fuel : nat) (r : regex) (fmt s : str) : option str :=
  match fuel with
  | 0 => None
  | S fuel' =>
      match regex_search r s with
      | None => Some s
      | Some m =>
          match regex_replace_loop fuel' r fmt (sm_suffix m) with
          | Some out => Some (sm_prefix m ++ format m fmt ++ out)
          | None => None
          end
      end
  end.

Definition regex_replace (s : str) (r : regex) (fmt : str) : option str :=
  regex_replace_loop (S (length s)) r fmt s.

(** [for (std::smatch match; std::regex_search(str, match, regex);
         str = match.suffix()) body]
    with the state [A] that the body updates.  The body sees the current
    value of [str] and the match. *)
Fixpoint for_each_match (A : Type) (fuel : nat) (r : regex)
    (body : str -> smatch -> A -> A) (s : str) (a : A) : option A :=
  match fuel with
  | 0 => None
  | S fuel' =>
      match regex_search r s with
      | None => Some a
      | Some m => for_each_match fuel' r body (sm_suffix m) (body s m a)
      end
  end.

(** ** The preprocessor *)

Declare Scope regex_scope.
Delimit Scope regex_scope with re.
Bind Scope regex_scope with regex.
Infix "@@" := Cat (at level 60, right associativity) : regex_scope.
Infix "<|>" := Alt (at level 65, right associativity) : regex_scope.

Notation "x <- c1 ; c2" :=
  (match c1 with Some x => c2 | None => None end)
  (at level 100, c1 at next level, right associativity).
Notation "' pat <- c1 ; c2" :=
  (match c1 with Some pat => c2 | None => None end)
  (at level 100, pat pattern, c1 at next level, right associativity).

Definition ws : regex := Cls isspace.
Definition word : regex := Cls isword.
Definition dig : regex := Cls isdigit.
Definition none_of (l : str) (extra : ascii -> bool) : regex :=
  Cls (fun c => negb (existsb (Ascii.eqb c) l || extra c)).

(** The patterns, as the source writes them, are quoted token by token; the
    blanks between tokens are not part of a pattern.

    [( \\  ) *? \\n] *)
Definition trailing_ws_regex : regex :=
  (Star false (Group 1 (Chr " ")) @@ Chr nl)%re.

(** [# \\s* ( include | pragma once )], with a blank inside the second
    keyword *)
Definition directive_regex : regex :=
  (Chr "#" @@ Star true ws @@
   Group 1 (Lit (L "include") <|> Lit (L "pragma once")))%re.

(** [shared \\s+ ( \\w+ ) \\s+ ( \\w+ ) ( [^;]* ) ;] *)
Definition shared_regex : regex :=
  (Lit (L "shared") @@ Plus ws @@ Group 1 (Plus word) @@ Plus ws @@
   Group 2 (Plus word) @@
   Group 3 (Star true (none_of (L ";") (fun _ => false))) @@ Chr ";")%re.

(** [( out | inout | in | shared ) \\s+ ( \\w+ ) \\s+ ( \\w+ )] *)
Definition decorator_regex : regex :=
  (Group 1 (Lit (L "out") <|> Lit (L "inout") <|> Lit (L "in")
            <|> Lit (L "shared")) @@
   Plus ws @@ Group 2 (Plus word) @@ Plus ws @@ Group 3 (Plus word))%re.

(** [= \\s* ( \\w+ ) \\s* \\[ [^\\]]* \\] \\s* \\( ] *)
Definition array_regex : regex :=
  (Chr "=" @@ Star true ws @@ Group 1 (Plus word) @@ Star true ws @@
   Chr "[" @@ Star true (none_of (L "]") (fun _ => false)) @@ Chr "]" @@
   Star true ws @@ Chr "(")%re.

(** [\\s+ ( mat ( \\d | \\d x \\d ) | float \\d x \\d ) \\( [^,\\s\\d]+ \\) ] *)
Definition matrix_regex : regex :=
  (Plus ws @@
   Group 1 ((Lit (L "mat") @@ Group 2 (dig <|> dig @@ Chr "x" @@ dig))
            <|> (Lit (L "float") @@ dig @@ Chr "x" @@ dig)) @@
   Chr "(" @@
   Plus (none_of (L ",") (fun c => isspace c || isdigit c)) @@ Chr ")")%re.

Definition malformed_block_msg : str := L "Malformed multi-line comment.".
Definition malformed_line_msg : str :=
  L "Malformed single line comment, missing newline.".
Definition matrix_msg : str :=
  L "Matrix constructor is not cross API compatible. Use to_floatNxM to reshape the matrix or use other constructors instead.".
Definition array_msg : str :=
  L "Array constructor is not cross API compatible. Use type_array instead of type[].".

(** [for (size_t i = start; i < stop; ++i) out_str[i] = f(out_str[i]);] *)
Fixpoint for_range (f : ascii -> ascii) (start stop i : nat) (s : str) : str :=
  match s with
  | [] => []
  | c :: t =>
      (if (start <=? i) && (i <? stop) then f c else c)
        :: for_range f start stop (S i) t
  end.

Definition blank_but_newline (c : ascii) : ascii :=
  if Ascii.eqb c nl then c else sp.

Definition blank (_ : ascii) : ascii := sp.

(** The [while] loop over multi-line comments.  The result is [out_str] and
    the value of [end] when the loop is left ([None] for [npos]). *)
Fixpoint block_comments (fuel : nat) (out_str : str) (end_ : nat)
    : option (str * option nat) :=
  match fuel with
  | 0 => None
  | S fuel' =>
      match find out_str (L "/*") end_ with
      | None => Some (out_str, Some end_)
      | Some start =>
          match find out_str (L "*/") (start + 2) with
          | None => Some (out_str, None)
          | Some e =>
              block_comments fuel'
                (for_range blank_but_newline start (e + 2) 0 out_str) e
          end
      end
  end.

(** The [while] loop over single-line comments. *)
Fixpoint line_comments (fuel : nat) (out_str : str) (end_ : nat)
    : option (str * option nat) :=
  match fuel with
  | 0 => None
  | S fuel' =>
      match find out_str (L "//") end_ with
      | None => Some (out_str, Some end_)
      | Some start =>
          match find out_str [nl] (start + 2) with
          | None => Some (out_str, None)
          | Some e =>
              line_comments fuel' (for_range blank start e 0 out_str) e
          end
      end
  end.

Record SharedVar : Type := {
  type : str;
  name : str;
  array : str
}.

(** The data members of [Preprocessor]. *)
Record Preprocessor : Type := {
  shared_vars_ : list SharedVar;
  output_ : str
}.

(** A newly constructed instance. *)
Definition fresh : Preprocessor := {| shared_vars_ := []; output_ := [] |}.

Definition preprocessor_directive_mutation (s : str) : option str :=
  regex_replace s directive_regex (L "//$1").

Definition threadgroup_variable_parsing (s : str) (self : Preprocessor)
    : option Preprocessor :=
  vars <- for_each_match (S (length s)) shared_regex
            (fun _ m vars =>
               vars ++ [{| type := sub m 1; name := sub m 2; array := sub m 3 |}])
            s (shared_vars_ self);
  Some {| shared_vars_ := vars; output_ := output_ self |}.

Definition argument_decorator_macro_injection (s : str) : option str :=
  regex_replace s decorator_regex (L "$1 $2 _$1_sta $3 _$1_end").

Definition array_constructor_macro_injection (s : str) : option str :=
  regex_replace s array_regex (L "= ARRAY_T($1) ARRAY_V(").

(** The four string streams of [suffix] and the flag [first]. *)
Record streams : Type := {
  args : str;
  assign : str;
  declare : str;
  pass : str;
  first : bool
}.

Definition suffix_step (st : streams) (var : SharedVar) : streams :=
  let sep := (if first st then " " else ",")%char in
  {| args := args st ++ [sep] ++ L "threadgroup " ++ type var ++ L "(&_"
             ++ name var ++ L ")" ++ array var;
     assign := assign st ++ [(if first st then ":" else ",")%char] ++ name var
               ++ L "(_" ++ name var ++ L ")";
     declare := declare st ++ L "threadgroup " ++ type var ++ [sp] ++ name var
                ++ array var ++ L ";";
     pass := pass st ++ [sep] ++ name var;
     first := false |}.

Definition suffix_streams (vars : list SharedVar) : streams :=
  fold_left suffix_step vars
    {| args := []; assign := []; declare := []; pass := []; first := true |}.

Definition suffix (self : Preprocessor) : str :=
  match shared_vars_ self with
  | [] => []
  | _ :: _ =>
      let st := suffix_streams (shared_vars_ self) in
      L "#undef MSL_SHARED_VARS_ARGS" ++ [nl]
      ++ L "#undef MSL_SHARED_VARS_ASSIGN" ++ [nl]
      ++ L "#undef MSL_SHARED_VARS_DECLARE" ++ [nl]
      ++ L "#undef MSL_SHARED_VARS_PASS" ++ [nl]
      ++ L "#define MSL_SHARED_VARS_ARGS " ++ args st ++ [nl]
      ++ L "#define MSL_SHARED_VARS_ASSIGN " ++ assign st ++ [nl]
      ++ L "#define MSL_SHARED_VARS_DECLARE " ++ declare st ++ [nl]
      ++ L "#define MSL_SHARED_VARS_PASS (" ++ pass st ++ L ")" ++ [nl]
  end.

(** The type of the [report_error] callback: it is handed the text, the
    match and the message, and does what it likes to the caller's state. *)
Definition ReportErrorF (W : Type) : Type := str -> smatch -> str -> W -> W.

Section WithReportError.

Variable W : Type.
Variable report_error : ReportErrorF W.

Definition remove_comments (s : str) (w : W) : option (str * W) :=
  '(out_str, end_) <- block_comments (S (length s)) s 0;
  match end_ with
  | None => Some (out_str, report_error s empty_smatch malformed_block_msg w)
  | Some _ =>
      '(out_str, end_) <- line_comments (S (length out_str)) out_str 0;
      match end_ with
      | None =>
          Some (out_str, report_error s empty_smatch malformed_line_msg w)
      | Some _ =>
          out <- regex_replace out_str trailing_ws_regex [nl];
          Some (out, w)
      end
  end.

Definition matrix_constructor_linting (s : str) (w : W) : option W :=
  for_each_match (S (length s)) matrix_regex
    (fun s' m w' => report_error s' m matrix_msg w') s w.

Definition array_constructor_linting (s : str) (w : W) : option W :=
  for_each_match (S (length s)) array_regex
    (fun s' m w' => report_error s' m array_msg w') s w.

(** [process] with the three flags and the callback. *)
Definition process (s : str)
    (do_linting do_string_mutation do_include_mutation : bool)
    (self : Preprocessor) (w : W) : option (str * Preprocessor * W) :=
  '(s, w) <- remove_comments s w;
  self <- threadgroup_variable_parsing s self;
  w <- matrix_constructor_linting s w;
  w <- array_constructor_linting s w;
  s <- preprocessor_directive_mutation s;
  s <- argument_decorator_macro_injection s;
  s <- array_constructor_macro_injection s;
  Some (s ++ suffix self, self, w).

End WithReportError.

Definition no_err_report : ReportErrorF unit := fun _ _ _ w => w.

(** [process(const std::string &)], the variant used for python shaders. *)
Definition process_py (s : str) (self : Preprocessor)
    : option (str * Preprocessor) :=
  '(out, self', _) <- process no_err_report s false false false self tt;
  Some (out, self').

(** A callback that records its calls, in order. *)
Record Diagnostic : Type := {
  d_text : str;
  d_match : smatch;
  d_msg : str
}.

Definition record_error : ReportErrorF (list Diagnostic) :=
  fun s m msg log => log ++ [{| d_text := s; d_match := m; d_msg := msg |}].


(** * Vocabulary of the properties *)

(** The words a pattern denotes. *)
Inductive Matches : regex -> str -> Prop :=
| MEps : Matches Eps []
| MChr c : Matches (Chr c) [c]
| MCls (p : ascii -> bool) c : p c = true -> Matches (Cls p) [c]
| MCat r1 r2 w1 w2 :
    Matches r1 w1 -> Matches r2 w2 -> Matches (Cat r1 r2) (w1 ++ w2)
| MAltL r1 r2 w : Matches r1 w -> Matches (Alt r1 r2) w
| MAltR r1 r2 w : Matches r2 w -> Matches (Alt r1 r2) w
| MStarNil g r : Matches (Star g r) []
| MStarApp g r w1 w2 :
    Matches r w1 -> Matches (Star g r) w2 -> Matches (Star g r) (w1 ++ w2)
| MGroup n r w : Matches r w -> Matches (Group n r) w.

(** Whether the empty word is a word of the pattern. *)
Fixpoint nullable (r : regex) : bool :=
  match r with
  | Eps => true
  | Chr _ | Cls _ => false
  | Cat r1 r2 => nullable r1 && nullable r2
  | Alt r1 r2 => nullable r1 || nullable r2
  | Star _ _ => true
  | Group _ r1 => nullable r1
  end.

(** A character as a comment loop leaves it: as it was or, if it was not a
    newline, a blank. *)
Definition blanked_char (c c' : ascii) : Prop := c' = c \/ (c' = sp /\ c <> nl).

(** [Blanked s out]: [out] is [s] with some characters, none of them a
    newline, replaced by a blank. *)
Definition Blanked (s out : str) : Prop := Forall2 blanked_char s out.

(** The calls of [report_error] that a recorded run stands for. *)
Definition replay (W : Type) (report_error : ReportErrorF W)
    (log : list Diagnostic) (w : W) : W :=
  fold_left (fun w' d => report_error (d_text d) (d_match d) (d_msg d) w') log w.

(** What the three mutating passes make of the stripped text. *)
Definition mutate (s : str) : option str :=
  s1 <- preprocessor_directive_mutation s;
  s2 <- argument_decorator_macro_injection s1;
  array_constructor_macro_injection s2.

(** The declarations that [threadgroup_variable_parsing] finds in a text. *)
Definition collect (s : str) : option (list SharedVar) :=
  option_map shared_vars_ (threadgroup_variable_parsing s fresh).

(** A text up to its first newline. *)
Fixpoint take_line (s : str) : str :=
  match s with
  | [] => []
  | c :: t => if Ascii.eqb c nl then [] else c :: take_line t
  end.

(** The text that a [#define] line of the output gives to a macro: what
    stands between the name of the macro, and the blank after it, and the
    end of the line. *)
Definition macro_definition (out name : str) : option str :=
  let key := L "#define " ++ name ++ [sp] in
  match find out key 0 with
  | Some i => Some (take_line (skipn (i + length key) out))
  | None => None
  end.

(** Whether [pat] occurs in [s]. *)
Definition contains (s pat : str) : bool :=
  match find s pat 0 with
  | Some _ => true
  | None => false
  end.




(** The value of [out_str] when [remove_comments] is done with the comment
    loops. *)
Definition blank_comments (s : str) : option str :=
  '(o1, e1) <- block_comments (S (length s)) s 0;
  match e1 with
  | None => Some o1
  | Some _ => '(o2, _) <- line_comments (S (length o1)) o1 0; Some o2
  end.

(** A greedy repetition of a character class, by recursion on the text. *)
Fixpoint greedy_cls (R : Type) (p : ascii -> bool)
    (k : str -> captures -> option R) (s : str) (caps : captures) : option R :=
  match s with
  | c :: t =>
      if p c then
        match greedy_cls p k t caps with
        | Some x => Some x
        | None => k s caps
        end
      else k s caps
  | [] => k [] caps
  end.

(** A text without its longest prefix in the class [p]. *)
Fixpoint drop_while (p : ascii -> bool) (s : str) : str :=
  match s with
  | c :: t => if p c then drop_while p t else s
  | [] => []
  end.

(** The keyword of a directive at the start of a text, and what follows. *)
Definition keyword_at (s : str) : option (str * str) :=
  if starts_with (L "include") s then Some (L "include", skipn 7 s)
  else if starts_with (L "pragma once") s
       then Some (L "pragma once", skipn 11 s)
       else None.

(** A directive at the start of a text: its keyword and what follows. *)
Definition directive_at (s : str) : option (str * str) :=
  match s with
  | c :: t => if Ascii.eqb c "#" then keyword_at (drop_while isspace t) else None
  | [] => None
  end.

(** A match found behind [pre], seen from the start of [pre]. *)
Definition shift_match (pre : str) (m : smatch) : smatch :=
  {| sm_prefix := pre ++ sm_prefix m;
     sm_str := sm_str m;
     sm_suffix := sm_suffix m;
     sm_subs := sm_subs m |}.

(** The double quote. *)
Definition dq : ascii := "034"%char.

(** The calls of one linting loop on [text]: the first is handed [text], and
    each later one the suffix of the match before it. *)
Fixpoint chained (text : str) (log : list Diagnostic) : Prop :=
  match log with
  | [] => True
  | d :: log' => d_text d = text /\ chained (sm_suffix (d_match d)) log'
  end.

(** A call of a linting loop: the text handed over is the prefix, the match
    and the suffix of the match handed over, the match is a word of the
    pattern, and the message is that of the loop. *)
Definition lint_call (r : regex) (msg : str) (d : Diagnostic) : Prop :=
  d_text d = sm_prefix (d_match d) ++ sm_str (d_match d) ++ sm_suffix (d_match d) /\
  Matches r (sm_str (d_match d)) /\
  d_msg d = msg.

(** A call of [remove_comments]: the text the caller passed in, no match,
    and one of the two messages. *)
Definition comment_call (s : str) (d : Diagnostic) : Prop :=
  d_text d = s /\ d_match d = empty_smatch /\
  (d_msg d = malformed_block_msg \/ d_msg d = malformed_line_msg).

(** A line with two matrix constructors that the linter finds. *)
Definition two_matrix_constructors : str :=
  L "a = mat4(b); c = mat4(d);" ++ [nl].

(** The declarations [shared float foo;] and [shared float bar[10];]. *)
Definition foo_bar : list SharedVar :=
  [ {| type := L "float"; name := L "foo"; array := [] |};
    {| type := L "float"; name := L "bar"; array := L "[10]" |} ].

(** The declarations [shared float a;] and [shared int b[4];]. *)
Definition a_b : list SharedVar :=
  [ {| type := L "float"; name := L "a"; array := [] |};
    {| type := L "int"; name := L "b"; array := L "[4]" |} ].

(** Whether a text does not start with a character of the class [p]. *)
Definition stops (p : ascii -> bool) (s : str) : bool :=
  match s with
  | [] => true
  | c :: _ => negb (p c)
  end.

(** Texts written one after the other, [sep0] before the first and [sep]
    before every other one. *)
Definition joined (sep0 sep : ascii) (items : list str) : str :=
  match items with
  | [] => []
  | x :: xs => sep0 :: x ++ concat (map (cons sep) xs)
  end.

(** What one declaration adds to each stream of [suffix], the separator
    apart. *)
Definition args_entry (var : SharedVar) : str :=
  L "threadgroup " ++ type var ++ L "(&_" ++ name var ++ L ")" ++ array var.

Definition assign_entry (var : SharedVar) : str :=
  name var ++ L "(_" ++ name var ++ L ")".

Definition declare_entry (var : SharedVar) : str :=
  L "threadgroup " ++ type var ++ [sp] ++ name var ++ array var ++ L ";".

(** The four qualifiers that [argument_decorator_macro_injection] knows. *)
Definition qualifier (q : str) : Prop :=
  q = L "out" \/ q = L "inout" \/ q = L "in" \/ q = L "shared".

(** The first multi-line comment of a text is not closed: the state in
    which the first loop of [remove_comments] breaks. *)
Definition unclosed_block (t : str) : Prop :=
  exists start,
    find t (L "/*") 0 = Some start /\ find t (L "*/") (start + 2) = None.

(** The first single-line comment of a text has no newline behind it: the
    state in which the second loop of [remove_comments] breaks. *)
Definition unclosed_line (t : str) : Prop :=
  exists start,
    find t (L "//") 0 = Some start /\ find t [nl] (start + 2) = None.

(** What the groups of a pattern capture: [P n v] holds of every word [v]
    of a sub-pattern that is group [n]. *)
Fixpoint captures_words (P : nat -> str -> Prop) (r : regex) : Prop :=
  match r with
  | Cat r1 r2 | Alt r1 r2 => captures_words P r1 /\ captures_words P r2
  | Star _ r1 => captures_words P r1
  | Group n r1 => (forall v, Matches r1 v -> P n v) /\ captures_words P r1
  | Eps | Chr _ | Cls _ => True
  end.

(** The groups that every match of a pattern sets: those that stand under
    no alternative and no quantifier. *)
Fixpoint always_set (r : regex) : list nat :=
  match r with
  | Cat r1 r2 => always_set r1 ++ always_set r2
  | Group n r1 => n :: always_set r1
  | Eps | Chr _ | Cls _ | Alt _ _ | Star _ _ => []
  end.

Definition captures_ok (P : nat -> str -> Prop) (caps : captures) : Prop :=
  Forall (fun e => P (fst e) (snd e)) caps.

(** A word of [\\w+]: one word character or more. *)
Definition word_chars (v : str) : Prop := v <> [] /\ forallb isword v = true.

(** A declaration as the pattern of [threadgroup_variable_parsing] captures
    it: type and name are words, and the array part has no semicolon. *)
Definition declaration_ok (var : SharedVar) : Prop :=
  word_chars (type var) /\ word_chars (name var) /\
  ~ In ";"%char (array var).

(** What the three groups of the pattern of [threadgroup_variable_parsing]
    hold. *)
Definition shared_groups (n : nat) (v : str) : Prop :=
  match n with
  | 1 | 2 => word_chars v
  | 3 => ~ In ";"%char v
  | _ => True
  end.




(** The text that [suffix] is to return for a list of declarations: nothing
    for no declaration, and else the four [#undef] lines and the four
    [#define] lines, each macro with the entries of the declarations in the
    order of the list. *)
Definition suffix_text (vars : list SharedVar) : str :=
  match vars with
  | [] => []
  | _ :: _ =>
      L "#undef MSL_SHARED_VARS_ARGS" ++ [nl]
      ++ L "#undef MSL_SHARED_VARS_ASSIGN" ++ [nl]
      ++ L "#undef MSL_SHARED_VARS_DECLARE" ++ [nl]
      ++ L "#undef MSL_SHARED_VARS_PASS" ++ [nl]
      ++ L "#define MSL_SHARED_VARS_ARGS "
      ++ joined " " "," (map args_entry vars) ++ [nl]
      ++ L "#define MSL_SHARED_VARS_ASSIGN "
      ++ joined ":" "," (map assign_entry vars) ++ [nl]
      ++ L "#define MSL_SHARED_VARS_DECLARE "
      ++ concat (map declare_entry vars) ++ [nl]
      ++ L "#define MSL_SHARED_VARS_PASS ("
      ++ joined " " "," (map name vars) ++ L ")" ++ [nl]
  end.

(** The shared declarations that a text holds, from left to right, when
    every [shared] of the text starts a declaration: the word [shared],
    whitespace, a type, whitespace, a name, a text without semicolon that
    does not go on with a word character, and a semicolon. *)
Inductive Declarations : str -> list SharedVar -> Prop :=
| no_declaration s :
    contains s (L "shared") = false -> Declarations s []
| one_declaration pre sp1 ty sp2 nm arr rest vars :
    contains pre (L "shared") = false ->
    forallb isspace sp1 = true -> sp1 <> [] ->
    forallb isword ty = true -> ty <> [] ->
    forallb isspace sp2 = true -> sp2 <> [] ->
    forallb isword nm = true -> nm <> [] ->
    forallb (fun c => negb (Ascii.eqb c ";")) arr = true ->
    stops isword arr = true ->
    Declarations rest vars ->
    Declarations
      (pre ++ L "shared" ++ sp1 ++ ty ++ sp2 ++ nm ++ arr ++ ";"%char :: rest)
      ({| type := ty; name := nm; array := arr |} :: vars).

(** A reader of comments goes through the text character by character.
    It is in the code, on the second character of an opener, inside a
    comment, on the second character of a closer, or behind an opener that
    nothing closes. *)
Inductive scan : Type := Code | Opening | Inside | Closing | Broken.

(** The characters of the multi-line comments of a text.  A comment goes
    from a [/*] in the code to the next [*/] behind it, both included.  A
    [/*] with no [*/] behind it opens no comment, and nothing behind it is
    read as a comment. *)
Fixpoint block_mask (st : scan) (s : str) : list bool :=
  match s with
  | [] => []
  | c :: t =>
      match st with
      | Code =>
          if starts_with (L "/*") s then
            if contains (skipn 1 t) (L "*/")
            then true :: block_mask Opening t
            else false :: block_mask Broken t
          else false :: block_mask Code t
      | Opening => true :: block_mask Inside t
      | Inside =>
          if starts_with (L "*/") s
          then true :: block_mask Closing t
          else true :: block_mask Inside t
      | Closing => true :: block_mask Code t
      | Broken => false :: block_mask Broken t
      end
  end.

(** The characters of the single-line comments of a text.  A comment goes
    from a [//] in the code to the character before the next newline.  A
    [//] with no newline behind it opens no comment, and nothing behind it
    is read as a comment.  A single-line comment has no closer. *)
Fixpoint line_mask (st : scan) (s : str) : list bool :=
  match s with
  | [] => []
  | c :: t =>
      match st with
      | Code | Closing =>
          if starts_with (L "//") s then
            if contains (skipn 1 t) [nl]
            then true :: line_mask Opening t
            else false :: line_mask Broken t
          else false :: line_mask Code t
      | Opening => true :: line_mask Inside t
      | Inside =>
          if Ascii.eqb c nl
          then false :: line_mask Code t
          else true :: line_mask Inside t
      | Broken => false :: line_mask Broken t
      end
  end.








(** * Properties *)

#[local] Arguments block_comments : simpl never.
#[local] Arguments line_comments : simpl never.
#[local] Arguments L : simpl never.

(** ** The matcher *)

#[local] Hint Constructors Matches : core.

(** Whatever the matcher hands to its continuation is what is left of the
    text after a word of the pattern. *)
Lemma rmatch_sound (r : regex) :
  forall (R : Type) s caps (k : str -> captures -> option R) res,
    rmatch r s caps k = Some res ->
    exists w s' caps', s = w ++ s' /\ Matches r w /\ k s' caps' = Some res.
Proof.
  induction r as [ | c | p | r1 IH1 r2 IH2 | r1 IH1 r2 IH2 | g r IH | n r IH];
    intros R s caps k res H; simpl in H.
  - exists [], s, caps. auto.
  - destruct s as [ | a t]; [discriminate | ].
    destruct (Ascii.eqb a c) eqn:E; [ | discriminate].
    apply Ascii.eqb_eq in E. subst a. exists [c], t, caps. auto.
  - destruct s as [ | a t]; [discriminate | ].
    destruct (p a) eqn:E; [ | discriminate].
    exists [a], t, caps. auto.
  - apply IH1 in H. destruct H as (w1 & s1 & c1 & -> & M1 & H).
    apply IH2 in H. destruct H as (w2 & s2 & c2 & -> & M2 & H).
    exists (w1 ++ w2), s2, c2. rewrite <- app_assoc. auto.
  - destruct (rmatch r1 s caps k) as [x | ] eqn:E.
    + inversion H; subst x. apply IH1 in E.
      destruct E as (w & s' & c' & -> & M & E). eauto 8.
    + apply IH2 in H. destruct H as (w & s' & c' & -> & M & H). eauto 8.
  - remember (length s) as n eqn:Hn. clear Hn. revert s caps H.
    induction n as [ | n IHn]; intros s caps H; simpl in H.
    + exists [], s, caps. auto.
    + assert (Hk : k s caps = Some res ->
                   exists w s' caps',
                     s = w ++ s' /\ Matches (Star g r) w /\ k s' caps' = Some res)
        by (intros Hk; exists [], s, caps; auto).
      assert (Hs : rmatch r s caps
                     (fun s1 c1 =>
                        if length s1 <? length s
                        then star_loop (rmatch r) g k n s1 c1 else None)
                   = Some res ->
                   exists w s' caps',
                     s = w ++ s' /\ Matches (Star g r) w /\ k s' caps' = Some res).
      { intros Hs. apply IH in Hs. destruct Hs as (w1 & s1 & c1 & -> & M1 & Hs).
        destruct (length s1 <? length (w1 ++ s1)); [ | discriminate].
        apply IHn in Hs. destruct Hs as (w2 & s2 & c2 & -> & M2 & Hs).
        exists (w1 ++ w2), s2, c2. rewrite <- app_assoc. auto. }
      destruct g.
      * destruct (rmatch r s caps _) as [x | ] eqn:E; [ | auto].
        inversion H; subst x. auto.
      * destruct (k s caps) as [x | ] eqn:E; [ | auto].
        inversion H; subst x. auto.
  - apply IH in H. destruct H as (w & s' & c' & -> & M & H). eauto 8.
Qed.

Lemma Matches_nil r w : Matches r w -> w = [] -> nullable r = true.
Proof.
  induction 1; intros E; simpl; try discriminate; auto.
  - apply app_eq_nil in E. destruct E. rewrite IHMatches1, IHMatches2; auto.
  - rewrite IHMatches; auto.
  - rewrite IHMatches; auto using orb_true_r.
Qed.

Lemma firstn_consumed (w s1 : str) :
  firstn (length (w ++ s1) - length s1) (w ++ s1) = w.
Proof.
  rewrite length_app, Nat.add_sub. rewrite firstn_app, Nat.sub_diag, firstn_all.
  simpl. apply app_nil_r.
Qed.

Lemma match_at_sound r s s1 c1 :
  match_at r s = Some (s1, c1) -> exists w, s = w ++ s1 /\ Matches r w.
Proof.
  unfold match_at. intros H. apply rmatch_sound in H.
  destruct H as (w & s' & c' & -> & M & H). inversion H; subst. eauto.
Qed.

Lemma search_from_eq r pre s :
  search_from r pre s =
  match match_at r s with
  | Some (s1, c1) =>
      Some {| sm_prefix := pre;
              sm_str := firstn (length s - length s1) s;
              sm_suffix := s1;
              sm_subs := c1 |}
  | None =>
      match s with
      | [] => None
      | a :: t => search_from r (pre ++ [a]) t
      end
  end.
Proof. destruct s; reflexivity. Qed.

(** What [regex_search] returns: the text is prefix, match and suffix, the
    match is a word of the pattern that the matcher finds right after the
    prefix, and the matcher finds nothing at any earlier position. *)
Lemma search_from_some r s :
  forall pre m,
    search_from r pre s = Some m ->
    exists p,
      sm_prefix m = pre ++ p /\
      s = p ++ sm_str m ++ sm_suffix m /\
      Matches r (sm_str m) /\
      match_at r (sm_str m ++ sm_suffix m) = Some (sm_suffix m, sm_subs m) /\
      forall p1 p2, p = p1 ++ p2 -> p2 <> [] ->
                    match_at r (p2 ++ sm_str m ++ sm_suffix m) = None.
Proof.
  induction s as [ | a t IH]; intros pre m H; rewrite search_from_eq in H.
  - destruct (match_at r []) as [[s1 c1] | ] eqn:E; [ | discriminate].
    inversion H; subst m; clear H; simpl.
    destruct (match_at_sound _ _ E) as (w & Hw & M).
    symmetry in Hw. apply app_eq_nil in Hw. destruct Hw; subst.
    exists []. rewrite app_nil_r. repeat split; auto.
    intros p1 p2 Hp. symmetry in Hp. apply app_eq_nil in Hp.
    destruct Hp; congruence.
  - destruct (match_at r (a :: t)) as [[s1 c1] | ] eqn:E.
    + destruct (match_at_sound _ _ E) as (w & Hw & M).
      rewrite Hw in *. rewrite firstn_consumed in H.
      injection H as <-. exists []. rewrite app_nil_r.
      cbn [sm_prefix sm_str sm_suffix sm_subs app]. repeat split; auto.
      intros p1 p2 Hp. symmetry in Hp. apply app_eq_nil in Hp.
      destruct Hp; congruence.
    + apply IH in H. destruct H as (p & Hp & Hs & M & Hm & Hleft).
      exists (a :: p). rewrite Hp, <- app_assoc. simpl.
      repeat split; auto; try congruence.
      intros p1 p2 E2 Hne. destruct p1 as [ | b p1]; simpl in E2.
      * subst p2. simpl. rewrite <- Hs. exact E.
      * inversion E2; subst. eauto.
Qed.

Lemma search_from_none r s :
  forall pre, search_from r pre s = None ->
              forall p1 p2, s = p1 ++ p2 -> match_at r p2 = None.
Proof.
  induction s as [ | a t IH]; intros pre H p1 p2 E; simpl in H.
  - symmetry in E. apply app_eq_nil in E. destruct E; subst.
    destruct (match_at r []) as [[? ?] | ]; [discriminate | reflexivity].
  - destruct (match_at r (a :: t)) as [[? ?] | ] eqn:Em; [discriminate | ].
    destruct p1 as [ | b p1]; simpl in E.
    + subst p2. exact Em.
    + inversion E; subst. eauto.
Qed.

(** A pattern that does not denote the empty word has no empty match, so
    the suffix of a match is shorter than the text searched. *)
Lemma regex_search_shorter r s m :
  nullable r = false -> regex_search r s = Some m ->
  length (sm_suffix m) < length s.
Proof.
  intros Hn H. apply search_from_some in H.
  destruct H as (p & _ & -> & M & _).
  destruct (sm_str m) eqn:E.
  - apply Matches_nil in M; congruence.
  - rewrite !length_app. simpl. lia.
Qed.

(** ** [find] *)

Lemma starts_with_app pat s :
  starts_with pat s = true -> exists rest, s = pat ++ rest.
Proof.
  revert s. induction pat as [ | p pat IH]; intros s H.
  - exists s. reflexivity.
  - destruct s as [ | c s]; simpl in H; [discriminate | ].
    apply andb_true_iff in H. destruct H as [E H].
    apply Ascii.eqb_eq in E. subst c.
    destruct (IH _ H) as [rest ->]. exists rest. reflexivity.
Qed.

Lemma find_in_spec pat s :
  forall i j,
    find_in pat s i = Some j ->
    exists d, j = i + d /\ starts_with pat (skipn d s) = true /\
              forall d', d' < d -> starts_with pat (skipn d' s) = false.
Proof.
  induction s as [ | c s IH]; intros i j H; simpl in H.
  - destruct (starts_with pat []) eqn:E; [ | discriminate].
    injection H as <-. exists 0. rewrite Nat.add_0_r. simpl.
    repeat split; auto. intros; lia.
  - destruct (starts_with pat (c :: s)) eqn:E.
    + injection H as <-. exists 0. rewrite Nat.add_0_r. simpl.
      repeat split; auto. intros; lia.
    + apply IH in H. destruct H as (d & -> & Hd & Hmin).
      exists (S d). simpl. split; [lia | split; [exact Hd | ]].
      intros [ | d'] Hlt; simpl; [exact E | apply Hmin; lia].
Qed.

Lemma find_spec s pat pos j :
  find s pat pos = Some j ->
  pos <= j /\ starts_with pat (skipn j s) = true /\
  forall j', pos <= j' -> j' < j -> starts_with pat (skipn j' s) = false.
Proof.
  unfold find. destruct (pos <=? length s) eqn:E; [ | discriminate].
  intros H. apply find_in_spec in H. destruct H as (d & -> & Hd & Hmin).
  rewrite skipn_skipn in Hd. rewrite Nat.add_comm in Hd.
  repeat split; auto; [lia | ].
  intros j' H1 H2. replace j' with ((j' - pos) + pos) by lia.
  rewrite <- skipn_skipn. apply Hmin. lia.
Qed.

Lemma find_bound s pat pos j :
  pat <> [] ->
  find s pat pos = Some j -> pos <= j /\ j + length pat <= length s.
Proof.
  intros Hne H. apply find_spec in H. destruct H as (H1 & H2 & _).
  split; [exact H1 | ].
  apply starts_with_app in H2. destruct H2 as [rest H2].
  assert (Hl : length (skipn j s) = length pat + length rest)
    by (rewrite H2; apply length_app).
  rewrite length_skipn in Hl.
  destruct pat as [ | p pat]; [congruence | ]. simpl in *. lia.
Qed.

Lemma length_for_range f a b s : forall i, length (for_range f a b i s) = length s.
Proof. induction s; intros; simpl; auto. Qed.

Lemma hd_skipn (s : str) : forall j, hd_error (skipn j s) = nth_error s j.
Proof.
  induction s as [ | c s IH]; intros [ | j]; simpl; auto.
Qed.

Lemma starts_with_hd c pat s :
  starts_with (c :: pat) s = true -> hd_error s = Some c.
Proof.
  destruct s as [ | a s]; simpl; [discriminate | ].
  intros H. apply andb_true_iff in H. destruct H as [E _].
  apply Ascii.eqb_eq in E. congruence.
Qed.

Lemma starts_with_single_false c s :
  starts_with [c] s = false -> hd_error s <> Some c.
Proof.
  destruct s as [ | a s]; simpl; [discriminate | ].
  rewrite andb_true_r. intros H E. injection E as ->.
  rewrite Ascii.eqb_refl in H. discriminate.
Qed.

(** ** The comment loops *)

Lemma Blanked_refl s : Blanked s s.
Proof. induction s; constructor; [left; reflexivity | assumption]. Qed.

Lemma Blanked_trans s1 s2 s3 : Blanked s1 s2 -> Blanked s2 s3 -> Blanked s1 s3.
Proof.
  intros H. revert s3. induction H as [ | a b l1 l2 Hab H IH]; intros s3 H3.
  - inversion H3. constructor.
  - inversion H3 as [ | b' c l2' l3 Hbc H3']; subst.
    constructor; [ | apply IH; assumption].
    destruct Hab as [-> | [-> Ha]]; [exact Hbc | ].
    destruct Hbc as [-> | [-> _]]; right; split; auto.
Qed.

Lemma Blanked_length s out : Blanked s out -> length out = length s.
Proof. intros H. symmetry. exact (Forall2_length H). Qed.

Lemma for_range_blank_but_newline a b s :
  forall i, Blanked s (for_range blank_but_newline a b i s).
Proof.
  induction s as [ | c s IH]; intros i; simpl; constructor; [ | apply IH].
  destruct ((a <=? i) && (i <? b)); [ | left; reflexivity].
  unfold blank_but_newline. destruct (Ascii.eqb c nl) eqn:E.
  - left; reflexivity.
  - right. split; auto. apply Ascii.eqb_neq. exact E.
Qed.

Lemma for_range_blank a b s :
  forall i,
    (forall j, a <= i + j -> i + j < b -> nth_error s j <> Some nl) ->
    Blanked s (for_range blank a b i s).
Proof.
  induction s as [ | c s IH]; intros i H; simpl; constructor.
  - destruct ((a <=? i) && (i <? b)) eqn:E; [ | left; reflexivity].
    apply andb_true_iff in E. destruct E as [E1 E2].
    apply Nat.leb_le in E1. apply Nat.ltb_lt in E2.
    right. split; [reflexivity | ].
    intros ->. apply (H 0); simpl; auto; lia.
  - apply IH. intros j H1 H2. apply (H (S j)); lia.
Qed.

Lemma block_comments_S fuel s e :
  block_comments (S fuel) s e =
  match find s (L "/*") e with
  | None => Some (s, Some e)
  | Some start =>
      match find s (L "*/") (start + 2) with
      | None => Some (s, None)
      | Some e1 =>
          block_comments fuel (for_range blank_but_newline start (e1 + 2) 0 s) e1
      end
  end.
Proof. reflexivity. Qed.

Lemma line_comments_S fuel s e :
  line_comments (S fuel) s e =
  match find s (L "//") e with
  | None => Some (s, Some e)
  | Some start =>
      match find s [nl] (start + 2) with
      | None => Some (s, None)
      | Some e1 => line_comments fuel (for_range blank start e1 0 s) e1
      end
  end.
Proof. reflexivity. Qed.

Lemma block_comments_blanked fuel :
  forall s e out e',
    block_comments fuel s e = Some (out, e') -> Blanked s out.
Proof.
  induction fuel as [ | fuel IH]; intros s e out e' H;
    [discriminate | ]; rewrite ?block_comments_S, ?line_comments_S in H.
  destruct (find s (L "/*") e) as [start | ].
  - destruct (find s (L "*/") (start + 2)) as [e1 | ].
    + apply IH in H. eapply Blanked_trans; [ | exact H].
      apply for_range_blank_but_newline.
    + injection H as <- _. apply Blanked_refl.
  - injection H as <- _. apply Blanked_refl.
Qed.

Lemma line_comments_blanked fuel :
  forall s e out e',
    line_comments fuel s e = Some (out, e') -> Blanked s out.
Proof.
  induction fuel as [ | fuel IH]; intros s e out e' H;
    [discriminate | ]; rewrite ?block_comments_S, ?line_comments_S in H.
  destruct (find s (L "//") e) as [start | ] eqn:F1.
  - destruct (find s [nl] (start + 2)) as [e1 | ] eqn:F2.
    + apply IH in H. eapply Blanked_trans; [ | exact H].
      apply for_range_blank. cbn [Nat.add]. intros j Hj1 Hj2.
      apply find_spec in F1. destruct F1 as (_ & F1 & _).
      apply find_spec in F2. destruct F2 as (_ & _ & F2).
      apply starts_with_app in F1. destruct F1 as [rest F1].
      destruct (Nat.eq_dec j start) as [-> | Hn1].
      { rewrite <- hd_skipn, F1. discriminate. }
      destruct (Nat.eq_dec j (S start)) as [-> | Hn2].
      { rewrite <- hd_skipn. replace (S start) with (1 + start) by lia.
        rewrite <- skipn_skipn, F1. discriminate. }
      rewrite <- hd_skipn. apply starts_with_single_false.
      apply F2; lia.
    + injection H as <- _. apply Blanked_refl.
  - injection H as <- _. apply Blanked_refl.
Qed.

Lemma block_comments_total fuel :
  forall s e,
    1 <= fuel -> length s < fuel + e ->
    exists out e', block_comments fuel s e = Some (out, e').
Proof.
  induction fuel as [ | fuel IH]; intros s e H1 H2; [lia | ].
  rewrite ?block_comments_S, ?line_comments_S.
  destruct (find s (L "/*") e) as [start | ] eqn:F1; [ | eauto].
  destruct (find s (L "*/") (start + 2)) as [e1 | ] eqn:F2; [ | eauto].
  apply find_bound in F1; [ | discriminate].
  apply find_bound in F2; [ | discriminate]. simpl in F1, F2.
  apply IH; [lia | ]. rewrite length_for_range. lia.
Qed.

Lemma line_comments_total fuel :
  forall s e,
    1 <= fuel -> length s < fuel + e ->
    exists out e', line_comments fuel s e = Some (out, e').
Proof.
  induction fuel as [ | fuel IH]; intros s e H1 H2; [lia | ].
  rewrite ?block_comments_S, ?line_comments_S.
  destruct (find s (L "//") e) as [start | ] eqn:F1; [ | eauto].
  destruct (find s [nl] (start + 2)) as [e1 | ] eqn:F2; [ | eauto].
  apply find_bound in F1; [ | discriminate].
  apply find_bound in F2; [ | discriminate]. simpl in F1, F2.
  apply IH; [lia | ]. rewrite length_for_range. lia.
Qed.

(** ** The regex loops *)

Section NonNullable.

Variable r : regex.
Hypothesis r_consumes : nullable r = false.

Lemma regex_replace_loop_fuel fmt :
  forall f1 f2 s,
    length s < f1 -> length s < f2 ->
    regex_replace_loop f1 r fmt s = regex_replace_loop f2 r fmt s.
Proof.
  induction f1 as [ | f1 IH]; intros f2 s H1 H2; [lia | ].
  destruct f2 as [ | f2]; [lia | ]. simpl.
  destruct (regex_search r s) as [m | ] eqn:E; [ | reflexivity].
  apply regex_search_shorter in E; [ | exact r_consumes].
  rewrite (IH f2); [reflexivity | lia | lia].
Qed.

Lemma regex_replace_loop_total fmt :
  forall fuel s,
    length s < fuel -> exists out, regex_replace_loop fuel r fmt s = Some out.
Proof.
  induction fuel as [ | fuel IH]; intros s H; [lia | ]. simpl.
  destruct (regex_search r s) as [m | ] eqn:E; [ | eauto].
  apply regex_search_shorter in E; [ | exact r_consumes].
  destruct (IH (sm_suffix m)) as [out ->]; [lia | eauto].
Qed.

(** [regex_replace] without the bound. *)
Lemma regex_replace_eq fmt s :
  regex_replace s r fmt =
  match regex_search r s with
  | None => Some s
  | Some m =>
      out <- regex_replace (sm_suffix m) r fmt;
      Some (sm_prefix m ++ format m fmt ++ out)
  end.
Proof.
  unfold regex_replace at 1. simpl.
  destruct (regex_search r s) as [m | ] eqn:E; [ | reflexivity].
  apply regex_search_shorter in E; [ | exact r_consumes].
  unfold regex_replace.
  rewrite (@regex_replace_loop_fuel fmt (length s) (S (length (sm_suffix m))));
    [reflexivity | lia | lia].
Qed.

Lemma regex_replace_total fmt s :
  exists out, regex_replace s r fmt = Some out.
Proof. apply regex_replace_loop_total. lia. Qed.

Lemma for_each_match_fuel (A : Type) (body : str -> smatch -> A -> A) :
  forall f1 f2 s a,
    length s < f1 -> length s < f2 ->
    for_each_match f1 r body s a = for_each_match f2 r body s a.
Proof.
  induction f1 as [ | f1 IH]; intros f2 s a H1 H2; [lia | ].
  destruct f2 as [ | f2]; [lia | ]. simpl.
  destruct (regex_search r s) as [m | ] eqn:E; [ | reflexivity].
  apply regex_search_shorter in E; [ | exact r_consumes].
  apply IH; lia.
Qed.

Lemma for_each_match_total (A : Type) (body : str -> smatch -> A -> A) :
  forall fuel s a,
    length s < fuel -> exists a', for_each_match fuel r body s a = Some a'.
Proof.
  induction fuel as [ | fuel IH]; intros s a H; [lia | ]. simpl.
  destruct (regex_search r s) as [m | ] eqn:E; [ | eauto].
  apply regex_search_shorter in E; [ | exact r_consumes].
  apply IH. lia.
Qed.

End NonNullable.

(** ** The callback *)

Lemma replay_snoc W (report_error : ReportErrorF W) log s m msg w :
  replay report_error (record_error s m msg log) w =
  report_error s m msg (replay report_error log w).
Proof. unfold replay, record_error. rewrite fold_left_app. reflexivity. Qed.

Section Replay.

Variable W : Type.
Variable report_error : ReportErrorF W.

Lemma lint_replay r msg fuel :
  forall s log w,
    for_each_match fuel r (fun s' m w' => report_error s' m msg w') s
      (replay report_error log w) =
    option_map (fun log' => replay report_error log' w)
      (for_each_match fuel r (fun s' m l => record_error s' m msg l) s log).
Proof.
  induction fuel as [ | fuel IH]; intros s log w; simpl; [reflexivity | ].
  destruct (regex_search r s) as [m | ]; [ | reflexivity].
  rewrite <- IH, replay_snoc. reflexivity.
Qed.

Lemma remove_comments_replay s log w :
  remove_comments report_error s (replay report_error log w) =
  option_map (fun '(out, log') => (out, replay report_error log' w))
    (remove_comments record_error s log).
Proof.
  unfold remove_comments.
  destruct (block_comments (S (length s)) s 0) as [[o1 [e1 | ]] | ];
    simpl; auto.
  - destruct (line_comments (S (length o1)) o1 0) as [[o2 [e2 | ]] | ];
      simpl; auto.
    + destruct (regex_replace o2 trailing_ws_regex [nl]); reflexivity.
    + rewrite replay_snoc. reflexivity.
  - rewrite replay_snoc. reflexivity.
Qed.

(** Running [process] with any callback is running it with the recording
    one and then making the recorded calls, in order. *)
Lemma process_replay s b1 b2 b3 self log w :
  process report_error s b1 b2 b3 self (replay report_error log w) =
  option_map (fun '(out, self', log') => (out, self', replay report_error log' w))
    (process record_error s b1 b2 b3 self log).
Proof.
  unfold process. rewrite remove_comments_replay.
  destruct (remove_comments record_error s log) as [[o1 l1] | ]; cbn [option_map]; auto.
  destruct (threadgroup_variable_parsing o1 self) as [self' | ]; auto.
  unfold matrix_constructor_linting, array_constructor_linting.
  rewrite lint_replay.
  destruct (for_each_match _ matrix_regex _ o1 l1) as [l2 | ]; cbn [option_map]; auto.
  rewrite lint_replay.
  destruct (for_each_match _ array_regex _ o1 l2) as [l3 | ]; cbn [option_map]; auto.
  destruct (preprocessor_directive_mutation o1) as [o2 | ]; auto.
  destruct (argument_decorator_macro_injection o2) as [o3 | ]; auto.
  destruct (array_constructor_macro_injection o3) as [o4 | ]; auto.
Qed.

End Replay.

(** ** Every pass returns *)

Lemma remove_comments_total W (report_error : ReportErrorF W) s w :
  exists out w', remove_comments report_error s w = Some (out, w').
Proof.
  unfold remove_comments.
  destruct (@block_comments_total (S (length s)) s 0) as (o1 & e1 & ->);
    [lia | lia | ].
  destruct e1 as [e1 | ]; [ | eauto].
  destruct (@line_comments_total (S (length o1)) o1 0) as (o2 & e2 & ->);
    [lia | lia | ].
  destruct e2 as [e2 | ]; [ | eauto].
  destruct (@regex_replace_total trailing_ws_regex eq_refl [nl] o2) as [out ->].
  eauto.
Qed.

Lemma threadgroup_variable_parsing_total s self :
  exists self', threadgroup_variable_parsing s self = Some self'.
Proof.
  unfold threadgroup_variable_parsing.
  destruct (@for_each_match_total shared_regex eq_refl _
              (fun _ m vars =>
                 vars ++ [{| type := sub m 1; name := sub m 2; array := sub m 3 |}])
              (S (length s)) s (shared_vars_ self)) as [vars ->]; [lia | ].
  eauto.
Qed.

Lemma process_total W (report_error : ReportErrorF W) s b1 b2 b3 self w :
  exists out self' w', process report_error s b1 b2 b3 self w = Some (out, self', w').
Proof.
  unfold process.
  destruct (remove_comments_total report_error s w) as (o1 & w1 & ->).
  destruct (threadgroup_variable_parsing_total o1 self) as (self' & ->).
  unfold matrix_constructor_linting, array_constructor_linting.
  destruct (@for_each_match_total matrix_regex eq_refl _
              (fun s' m w' => report_error s' m matrix_msg w')
              (S (length o1)) o1 w1) as [w2 ->]; [lia | ].
  destruct (@for_each_match_total array_regex eq_refl _
              (fun s' m w' => report_error s' m array_msg w')
              (S (length o1)) o1 w2) as [w3 ->]; [lia | ].
  unfold preprocessor_directive_mutation, argument_decorator_macro_injection,
    array_constructor_macro_injection.
  destruct (@regex_replace_total directive_regex eq_refl (L "//$1") o1)
    as [o2 ->].
  destruct (@regex_replace_total decorator_regex eq_refl
              (L "$1 $2 _$1_sta $3 _$1_end") o2) as [o3 ->].
  destruct (@regex_replace_total array_regex eq_refl
              (L "= ARRAY_T($1) ARRAY_V(") o3) as [o4 ->].
  eauto.
Qed.

(** ** The pipeline *)

Lemma collect_append r (g : smatch -> SharedVar) fuel :
  forall s a b,
    for_each_match fuel r (fun _ m vars => vars ++ [g m]) s (a ++ b) =
    option_map (app a) (for_each_match fuel r (fun _ m vars => vars ++ [g m]) s b).
Proof.
  induction fuel as [ | fuel IH]; intros s a b; simpl; [reflexivity | ].
  destruct (regex_search r s) as [m | ]; [ | reflexivity].
  rewrite <- IH, app_assoc. reflexivity.
Qed.

Lemma threadgroup_variable_parsing_appends s self :
  threadgroup_variable_parsing s self =
  option_map
    (fun vars => {| shared_vars_ := shared_vars_ self ++ vars;
                    output_ := output_ self |})
    (collect s).
Proof.
  unfold collect, threadgroup_variable_parsing. cbn [shared_vars_ fresh].
  rewrite <- (app_nil_r (shared_vars_ self)) at 1.
  rewrite (collect_append shared_regex
             (fun m => {| type := sub m 1; name := sub m 2; array := sub m 3 |})).
  destruct (for_each_match _ _ _ s []) as [vars | ]; reflexivity.
Qed.

(** [process] in one equation: the text returned is the mutated stripped
    text followed by the suffix for the declarations of the instance, old
    and new. *)
Lemma process_eq W (report_error : ReportErrorF W) s b1 b2 b3 self w :
  process report_error s b1 b2 b3 self w =
  ('(stripped, w1) <- remove_comments report_error s w;
   vars <- collect stripped;
   w2 <- matrix_constructor_linting report_error stripped w1;
   w3 <- array_constructor_linting report_error stripped w2;
   body <- mutate stripped;
   let self' := {| shared_vars_ := shared_vars_ self ++ vars;
                   output_ := output_ self |} in
   Some (body ++ suffix self', self', w3)).
Proof.
  unfold process, mutate.
  destruct (remove_comments report_error s w) as [[o1 w1] | ]; auto.
  rewrite threadgroup_variable_parsing_appends.
  destruct (collect o1) as [vars | ]; cbn [option_map]; [ | reflexivity].
  destruct (matrix_constructor_linting report_error o1 w1) as [w2 | ];
    [ | reflexivity].
  destruct (array_constructor_linting report_error o1 w2) as [w3 | ];
    [ | reflexivity].
  destruct (preprocessor_directive_mutation o1) as [o2 | ]; [ | reflexivity].
  destruct (argument_decorator_macro_injection o2) as [o3 | ]; [ | reflexivity].
  destruct (array_constructor_macro_injection o3) as [o4 | ]; reflexivity.
Qed.

(** ** The entry points, the instance and the suffix *)

(** C5: whatever the three flags, the callback and the caller's state, the
    entry point with the callback and the one without, each on a new
    instance, return the same text and leave the same declarations in the
    instance; the callback is called on the diagnostics of the run, in
    order, and nothing else tells the two apart. *)
Theorem process_same_text :
  forall (W : Type) (report_error : ReportErrorF W) (s : str)
         (do_linting do_string_mutation do_include_mutation : bool) (w : W),
  exists out self' log,
    process report_error s do_linting do_string_mutation do_include_mutation
      fresh w
    = Some (out, self', replay report_error log w) /\
    process_py s fresh = Some (out, self') /\
    process record_error s false false false fresh [] = Some (out, self', log).
Proof.
  intros W report_error s b1 b2 b3 w.
  destruct (process_total record_error s false false false fresh [])
    as (out & self' & log & H).
  exists out, self', log. split; [ | split; [ | exact H]].
  - change w with (replay report_error [] w) at 1.
    rewrite process_replay.
    change (process record_error s b1 b2 b3 fresh [])
      with (process record_error s false false false fresh []).
    rewrite H. reflexivity.
  - unfold process_py. change tt with (replay no_err_report [] tt).
    rewrite process_replay, H. reflexivity.
Qed.

(** C10: [process] returns, whatever the text, the flags, the callback and
    the state of the instance, and so does the variant without callback.
    The bounds of the loops are enough because every pass of a comment loop
    moves [end] forward, and stays inside the text, and because the suffix
    of a match of any of the six patterns is shorter than the text searched. *)
Theorem process_terminates :
  (forall (W : Type) (report_error : ReportErrorF W) s b1 b2 b3 self w,
      exists out self' w',
        process report_error s b1 b2 b3 self w = Some (out, self', w')) /\
  (forall s self, exists out self', process_py s self = Some (out, self')) /\
  (forall s end_ start e,
      find s (L "/*") end_ = Some start ->
      find s (L "*/") (start + 2) = Some e ->
      end_ < e /\ e < length s) /\
  (forall s end_ start e,
      find s (L "//") end_ = Some start ->
      find s [nl] (start + 2) = Some e ->
      end_ < e /\ e < length s) /\
  (forall r s m,
      In r [trailing_ws_regex; directive_regex; shared_regex;
            decorator_regex; array_regex; matrix_regex] ->
      regex_search r s = Some m ->
      length (sm_suffix m) < length s).
Proof.
  split; [ | split; [ | split; [ | split]]].
  - intros. apply process_total.
  - intros s self. unfold process_py.
    destruct (process_total no_err_report s false false false self tt)
      as (out & self' & w' & ->). eauto.
  - intros s end_ start e F1 F2.
    apply find_bound in F1; [ | discriminate].
    apply find_bound in F2; [ | discriminate]. simpl in F1, F2. lia.
  - intros s end_ start e F1 F2.
    apply find_bound in F1; [ | discriminate].
    apply find_bound in F2; [ | discriminate]. simpl in F1, F2. lia.
  - intros r s m Hr. apply regex_search_shorter.
    simpl in Hr.
    repeat (destruct Hr as [<- | Hr]; [reflexivity | ]). contradiction.
Qed.

(** C10 at a text with both kinds of comment, and at one pass of the loop
    over multi-line comments. *)
Lemma process_terminates_witness :
  (exists out self',
      process_py (L "/* a */ shared float x; // b") fresh = Some (out, self')) /\
  (0 < 5 /\ 5 < length (L "a /* */ b")).
Proof.
  split.
  - exact (proj1 (proj2 process_terminates)
             (L "/* a */ shared float x; // b") fresh).
  - apply (proj1 (proj2 (proj2 process_terminates)) (L "a /* */ b") 0 2 5);
      reflexivity.
Defined.

(** C9: [out float var[2]] becomes [out float _out_sta var _out_end[2]]:
    the start marker stands between the type and the identifier, the end
    marker between the identifier and the brackets, and both carry the
    qualifier, as the three other qualifiers show. *)
Theorem argument_decorator_example :
  argument_decorator_macro_injection (L "out float var[2]")
    = Some (L "out float _out_sta var _out_end[2]") /\
  argument_decorator_macro_injection (L "inout float var[2]")
    = Some (L "inout float _inout_sta var _inout_end[2]") /\
  argument_decorator_macro_injection (L "in float var[2]")
    = Some (L "in float _in_sta var _in_end[2]") /\
  argument_decorator_macro_injection (L "shared float var[2]")
    = Some (L "shared float _shared_sta var _shared_end[2]").
Proof. repeat split; vm_compute; reflexivity. Qed.

(** The text returned by [process] on a new instance ends with the suffix
    for the declarations that the call leaves in the instance. *)
Lemma process_fresh_suffix W (report_error : ReportErrorF W) s b1 b2 b3 w
    out self' w' :
  process report_error s b1 b2 b3 fresh w = Some (out, self', w') ->
  exists stripped body,
    option_map fst (remove_comments report_error s w) = Some stripped /\
    collect stripped = Some (shared_vars_ self') /\
    mutate stripped = Some body /\
    out = body ++ suffix self'.
Proof.
  intros H. rewrite process_eq in H.
  destruct (remove_comments report_error s w) as [[stripped w1] | ];
    [ | discriminate].
  destruct (collect stripped) as [vars | ] eqn:Ec; [ | discriminate].
  destruct (matrix_constructor_linting report_error stripped w1)
    as [w2 | ]; [ | discriminate].
  destruct (array_constructor_linting report_error stripped w2)
    as [w3 | ]; [ | discriminate].
  destruct (mutate stripped) as [body | ] eqn:Em; [ | discriminate].
  cbv zeta in H. injection H as <- <- _.
  exists stripped, body. cbn [shared_vars_ fresh app option_map fst].
  repeat split; assumption.
Qed.

(** C1, as the code has it: whenever [process], on a new instance, finds
    the declarations [shared float foo;] and [shared float bar[10];], in
    this order, the text returned ends with the suffix, and the suffix
    defines the four macros as below.  The first three are as claimed; the
    text of [MSL_SHARED_VARS_PASS] has a blank after the opening
    parenthesis, the separator that [suffix] writes before the first name. *)
Theorem suffix_foo_bar :
  forall (W : Type) (report_error : ReportErrorF W) (s : str)
         (b1 b2 b3 : bool) (w : W) out self' w',
    process report_error s b1 b2 b3 fresh w = Some (out, self', w') ->
    shared_vars_ self' = foo_bar ->
    (exists body, out = body ++ suffix self') /\
    macro_definition (suffix self') (L "MSL_SHARED_VARS_ARGS")
      = Some (L " threadgroup float(&_foo),threadgroup float(&_bar)[10]") /\
    macro_definition (suffix self') (L "MSL_SHARED_VARS_ASSIGN")
      = Some (L ":foo(_foo),bar(_bar)") /\
    macro_definition (suffix self') (L "MSL_SHARED_VARS_DECLARE")
      = Some (L "threadgroup float foo;threadgroup float bar[10];") /\
    macro_definition (suffix self') (L "MSL_SHARED_VARS_PASS")
      = Some (L "( foo,bar)").
Proof.
  intros W report_error s b1 b2 b3 w out self' w' H Hv.
  apply process_fresh_suffix in H. destruct H as (stripped & body & _ & _ & _ & ->).
  split; [eauto | ].
  unfold suffix. rewrite Hv.
  repeat split; vm_compute; reflexivity.
Qed.

(** C1 at the text of the two declarations. *)
Lemma suffix_foo_bar_witness :
  exists out self',
    process_py (L "shared float foo; shared float bar[10];") fresh
      = Some (out, self') /\
    (exists body, out = body ++ suffix self') /\
    macro_definition (suffix self') (L "MSL_SHARED_VARS_ARGS")
      = Some (L " threadgroup float(&_foo),threadgroup float(&_bar)[10]") /\
    macro_definition (suffix self') (L "MSL_SHARED_VARS_ASSIGN")
      = Some (L ":foo(_foo),bar(_bar)") /\
    macro_definition (suffix self') (L "MSL_SHARED_VARS_DECLARE")
      = Some (L "threadgroup float foo;threadgroup float bar[10];") /\
    macro_definition (suffix self') (L "MSL_SHARED_VARS_PASS")
      = Some (L "( foo,bar)").
Proof.
  eexists. eexists. split; [vm_compute; reflexivity | ].
  apply (@suffix_foo_bar unit no_err_report
           (L "shared float foo; shared float bar[10];")
           false false false tt _ _ tt).
  - vm_compute. reflexivity.
  - vm_compute. reflexivity.
Defined.

(** C1, as claimed, fails: on the text of the two declarations the text of
    [MSL_SHARED_VARS_PASS] is not [(foo,bar)]. *)
Lemma suffix_foo_bar_pass_differs :
  ~ (exists out self',
        process_py (L "shared float foo; shared float bar[10];") fresh
          = Some (out, self') /\
        shared_vars_ self' = foo_bar /\
        macro_definition (suffix self') (L "MSL_SHARED_VARS_PASS")
          = Some (L "(foo,bar)")).
Proof.
  intros (out & self' & H & _ & P).
  vm_compute in H. injection H as _ <-. vm_compute in P. discriminate.
Qed.

(** ** Lines and columns *)








Lemma star_of_blank_words g n w :
  Matches (Star g (Group n (Chr sp))) w -> exists k, w = repeat sp k.
Proof.
  remember (Star g (Group n (Chr sp))) as r eqn:Er. intros M.
  induction M as [ | | | | | | | g' r' w1 w2 M1 _ M2 IH | ]; try discriminate.
  - exists 0. reflexivity.
  - injection Er as -> ->. destruct (IH eq_refl) as [k ->].
    inversion M1 as [ | | | | | | | | n' r'' w' M' ]; subst.
    inversion M'; subst. exists (S k). reflexivity.
Qed.

(** A match of the trailing blanks pattern is blanks and then a newline. *)
Lemma trailing_ws_words w :
  Matches trailing_ws_regex w -> exists k, w = repeat sp k ++ [nl].
Proof.
  unfold trailing_ws_regex. intros M.
  inversion M as [ | | | r1 r2 w1 w2 M1 M2 | | | | | ]; subst.
  inversion M2; subst. apply star_of_blank_words in M1.
  destruct M1 as [k ->]. exists k. reflexivity.
Qed.





Lemma remove_comments_cases W (report_error : ReportErrorF W) s w out w' :
  remove_comments report_error s w = Some (out, w') ->
  exists b,
    blank_comments s = Some b /\ Blanked s b /\
    (out = b \/ regex_replace b trailing_ws_regex [nl] = Some out).
Proof.
  unfold remove_comments, blank_comments. intros H.
  destruct (block_comments (S (length s)) s 0) as [[o1 [e1 | ]] | ] eqn:E1;
    try discriminate.
  - apply block_comments_blanked in E1.
    destruct (line_comments (S (length o1)) o1 0) as [[o2 [e2 | ]] | ] eqn:E2;
      try discriminate; apply line_comments_blanked in E2.
    + destruct (regex_replace o2 trailing_ws_regex [nl]) as [o3 | ] eqn:E3;
        [ | discriminate].
      injection H as <- _. exists o2. eauto using Blanked_trans.
    + injection H as <- _. exists o2. eauto using Blanked_trans.
  - apply block_comments_blanked in E1. injection H as <- _. exists o1. eauto.
Qed.

(** ** Evaluating the matcher *)

Lemma starts_with_skipn pat s :
  starts_with pat s = true -> s = pat ++ skipn (length pat) s.
Proof.
  intros H. apply starts_with_app in H. destruct H as [rest ->].
  rewrite skipn_app, skipn_all, Nat.sub_diag. reflexivity.
Qed.

Lemma rmatch_Lit (R : Type) (k : str -> captures -> option R) l :
  forall s caps,
    rmatch (Lit l) s caps k =
    if starts_with l s then k (skipn (length l) s) caps else None.
Proof.
  induction l as [ | c l IH]; intros s caps; simpl; [reflexivity | ].
  destruct s as [ | a t]; [reflexivity | ].
  rewrite (Ascii.eqb_sym c a). destruct (Ascii.eqb a c); simpl; auto.
Qed.

Lemma star_loop_greedy_cls (R : Type) p (k : str -> captures -> option R) :
  forall n s caps,
    length s <= n ->
    star_loop (rmatch (Cls p)) true k n s caps = greedy_cls p k s caps.
Proof.
  induction n as [ | n IH]; intros s caps Hn.
  - destruct s; [reflexivity | simpl in Hn; lia].
  - destruct s as [ | c t]; [reflexivity | ].
    cbn [star_loop rmatch greedy_cls]. destruct (p c); [ | reflexivity].
    replace (length t <? length (c :: t)) with true
      by (symmetry; apply Nat.ltb_lt; simpl; lia).
    rewrite IH by (simpl in Hn; lia). reflexivity.
Qed.

Lemma rmatch_star_cls (R : Type) p (k : str -> captures -> option R) s caps :
  rmatch (Star true (Cls p)) s caps k = greedy_cls p k s caps.
Proof. apply star_loop_greedy_cls. lia. Qed.

(** When nothing that starts in the class can follow, the repetition takes
    all it can. *)
Lemma greedy_cls_all (R : Type) p (k : str -> captures -> option R) :
  (forall c t caps, p c = true -> k (c :: t) caps = None) ->
  forall s caps, greedy_cls p k s caps = k (drop_while p s) caps.
Proof.
  intros Hk. induction s as [ | c t IH]; intros caps; simpl; [reflexivity | ].
  destruct (p c) eqn:E; [ | reflexivity].
  rewrite IH. destruct (k (drop_while p t) caps); [reflexivity | ].
  apply Hk. exact E.
Qed.

Lemma keyword_group s caps :
  rmatch (Group 1 (Lit (L "include") <|> Lit (L "pragma once"))%re) s caps
    (fun s1 c1 => Some (s1, c1)) =
  option_map (fun '(kw, rest) => (rest, (1, kw) :: caps)) (keyword_at s).
Proof.
  cbn [rmatch]. rewrite !rmatch_Lit. unfold keyword_at.
  destruct (starts_with (L "include") s) eqn:E1.
  - apply starts_with_app in E1. destruct E1 as [rest ->].
    rewrite skipn_app, skipn_all, Nat.sub_diag, firstn_consumed. reflexivity.
  - destruct (starts_with (L "pragma once") s) eqn:E2; [ | reflexivity].
    apply starts_with_app in E2. destruct E2 as [rest ->].
    rewrite skipn_app, skipn_all, Nat.sub_diag, firstn_consumed. reflexivity.
Qed.

Lemma keyword_at_space c t : isspace c = true -> keyword_at (c :: t) = None.
Proof.
  intros H. unfold keyword_at.
  destruct (starts_with (L "include") (c :: t)) eqn:E1.
  { apply starts_with_hd in E1. simpl in E1. injection E1 as ->.
    discriminate. }
  destruct (starts_with (L "pragma once") (c :: t)) eqn:E2; [ | reflexivity].
  apply starts_with_hd in E2. simpl in E2. injection E2 as ->. discriminate.
Qed.

(** The matcher on the directive pattern. *)
Lemma match_at_directive s :
  match_at directive_regex s =
  option_map (fun '(kw, rest) => (rest, [(1, kw)])) (directive_at s).
Proof.
  unfold match_at, directive_regex, directive_at.
  destruct s as [ | c t]; [reflexivity | ].
  cbn [rmatch]. destruct (Ascii.eqb c "#"); [ | reflexivity].
  change (star_loop (rmatch ws) true ?k (length t) t [])
    with (rmatch (Star true ws) t [] k).
  unfold ws. rewrite rmatch_star_cls, greedy_cls_all.
  - apply keyword_group.
  - intros a t' caps Ha.
    change (rmatch (Group 1 (Lit (L "include") <|> Lit (L "pragma once"))%re)
              (a :: t') caps (fun s1 c1 => Some (s1, c1)) = None).
    rewrite keyword_group, keyword_at_space by exact Ha. reflexivity.
Qed.

(** ** Shared declarations *)

Lemma isword_not_space c : isword c = true -> isspace c = false.
Proof.
  destruct c as [[] [] [] [] [] [] [] []]; vm_compute; congruence.
Qed.

Lemma isspace_not_word c : isspace c = true -> isword c = false.
Proof.
  destruct c as [[] [] [] [] [] [] [] []]; vm_compute; congruence.
Qed.

(** A greedy repetition takes the longest run of the class when the rest of
    the pattern matches behind it. *)
Lemma greedy_cls_longest (R : Type) p (k : str -> captures -> option R) w s caps x :
  forallb p w = true -> stops p s = true -> k s caps = Some x ->
  greedy_cls p k (w ++ s) caps = Some x.
Proof.
  intros Hw Hs Hk. induction w as [ | c w IH]; simpl in *.
  - destruct s as [ | c t]; simpl in *; [exact Hk | ].
    apply negb_true_iff in Hs. rewrite Hs. exact Hk.
  - apply andb_true_iff in Hw. destruct Hw as [Hc Hw].
    rewrite Hc, (IH Hw). reflexivity.
Qed.

Lemma star_cls_longest (R : Type) p (k : str -> captures -> option R) w s caps x :
  forallb p w = true -> stops p s = true -> k s caps = Some x ->
  rmatch (Star true (Cls p)) (w ++ s) caps k = Some x.
Proof. intros. rewrite rmatch_star_cls. apply greedy_cls_longest; assumption. Qed.

Lemma plus_cls_longest (R : Type) p (k : str -> captures -> option R) w s caps x :
  forallb p w = true -> w <> [] -> stops p s = true -> k s caps = Some x ->
  rmatch (Plus (Cls p)) (w ++ s) caps k = Some x.
Proof.
  intros Hw Hne Hs Hk. destruct w as [ | c w]; [congruence | ].
  simpl in Hw. apply andb_true_iff in Hw. destruct Hw as [Hc Hw].
  unfold Plus. cbn [rmatch app]. rewrite Hc.
  change (star_loop (rmatch (Cls p)) true k (length (w ++ s)) (w ++ s) caps)
    with (rmatch (Star true (Cls p)) (w ++ s) caps k).
  apply star_cls_longest; assumption.
Qed.

Lemma stops_app p w s : w <> [] -> stops p w = true -> stops p (w ++ s) = true.
Proof. destruct w; [congruence | auto]. Qed.

Lemma stops_word_space w :
  w <> [] -> forallb isword w = true -> stops isspace w = true.
Proof.
  destruct w as [ | c w]; [congruence | ]. simpl. intros _ H.
  apply andb_true_iff in H. destruct H as [H _].
  rewrite (isword_not_space _ H). reflexivity.
Qed.

Lemma stops_space_word w :
  w <> [] -> forallb isspace w = true -> stops isword w = true.
Proof.
  destruct w as [ | c w]; [congruence | ]. simpl. intros _ H.
  apply andb_true_iff in H. destruct H as [H _].
  rewrite (isspace_not_word _ H). reflexivity.
Qed.

Lemma forallb_same (f g : ascii -> bool) l :
  (forall c, f c = g c) -> forallb f l = forallb g l.
Proof.
  intros H. induction l as [ | c l IH]; simpl; [reflexivity | ].
  rewrite H, IH. reflexivity.
Qed.

(** The matcher on a declaration [shared], blanks, a type, blanks, a name,
    what follows the name, and a semicolon: the three groups are the type,
    the name and what follows the name. *)
Lemma match_at_shared_declaration sp1 ty sp2 nm arr rest :
  forallb isspace sp1 = true -> sp1 <> [] ->
  forallb isword ty = true -> ty <> [] ->
  forallb isspace sp2 = true -> sp2 <> [] ->
  forallb isword nm = true -> nm <> [] ->
  forallb (fun c => negb (Ascii.eqb c ";")) arr = true ->
  stops isword arr = true ->
  match_at shared_regex
    (L "shared" ++ sp1 ++ ty ++ sp2 ++ nm ++ arr ++ ";"%char :: rest)
  = Some (rest, [(3, arr); (2, nm); (1, ty)]).
Proof.
  intros Hs1 Hn1 Hty Hnty Hs2 Hn2 Hnm Hnnm Harr Hstop.
  unfold match_at, shared_regex. cbn [rmatch]. rewrite rmatch_Lit.
  replace (starts_with (L "shared") (L "shared" ++ _)) with true by reflexivity.
  change (skipn (length (L "shared")) (L "shared" ++ ?x)) with x.
  change (Cat ws (Star true ws)) with (Plus (Cls isspace)).
  apply plus_cls_longest; auto.
  { apply stops_app; auto using stops_word_space. }
  change (Cat word (Star true word)) with (Plus (Cls isword)).
  apply plus_cls_longest; auto.
  { apply stops_app; auto using stops_space_word. }
  rewrite firstn_consumed.
  apply plus_cls_longest; auto.
  { apply stops_app; auto using stops_word_space. }
  apply plus_cls_longest; auto.
  { destruct arr as [ | c arr]; [reflexivity | exact Hstop]. }
  rewrite firstn_consumed.
  unfold none_of. apply star_cls_longest.
  { etransitivity; [ | exact Harr]. apply forallb_same. intros c. simpl.
    rewrite !orb_false_r. reflexivity. }
  { reflexivity. }
  rewrite firstn_consumed. cbn [rmatch]. rewrite Ascii.eqb_refl.
  reflexivity.
Qed.

(** ** Searching behind a prefix *)

Lemma search_from_pre r t :
  forall pre, search_from r pre t = option_map (shift_match pre) (search_from r [] t).
Proof.
  induction t as [ | a t IH]; intros pre;
    rewrite (search_from_eq r pre), (search_from_eq r []).
  - destruct (match_at r []) as [[s1 c1] | ]; [ | reflexivity].
    unfold shift_match. simpl. rewrite app_nil_r. reflexivity.
  - destruct (match_at r (a :: t)) as [[s1 c1] | ].
    + unfold shift_match. cbn [option_map sm_prefix sm_str sm_suffix sm_subs].
      rewrite app_nil_r. reflexivity.
    + rewrite (IH (pre ++ [a])), (IH ([] ++ [a])).
      destruct (search_from r [] t) as [m | ]; [ | reflexivity].
      unfold shift_match. simpl. rewrite <- app_assoc. reflexivity.
Qed.

Lemma search_from_skip r q :
  forall pre t,
    (forall p1 p2, q = p1 ++ p2 -> p2 <> [] -> match_at r (p2 ++ t) = None) ->
    search_from r pre (q ++ t) = search_from r (pre ++ q) t.
Proof.
  induction q as [ | a q IH]; intros pre t H.
  - rewrite app_nil_r. reflexivity.
  - pose proof (H [] (a :: q) eq_refl) as H0. cbn [app] in *.
    rewrite search_from_eq. rewrite H0 by discriminate.
    rewrite IH.
    + rewrite <- app_assoc. reflexivity.
    + intros p1 p2 -> Hne. apply (H (a :: p1) p2); auto.
Qed.

Lemma format_ext m1 m2 :
  sm_str m1 = sm_str m2 -> sm_subs m1 = sm_subs m2 ->
  forall fmt, format m1 fmt = format m2 fmt.
Proof.
  intros H1 H2.
  assert (Hsub : forall n, sub m1 n = sub m2 n).
  { intros [ | n]; simpl; congruence. }
  assert (H : forall n fmt, length fmt < n -> format m1 fmt = format m2 fmt).
  { induction n as [ | n IH]; intros fmt Hn; [lia | ].
    destruct fmt as [ | c t]; [reflexivity | ]. cbn [format].
    simpl in Hn.
    destruct (Ascii.eqb c "$"); [ | rewrite (IH t) by lia; reflexivity].
    destruct t as [ | d t1]; [reflexivity | ]. simpl in Hn.
    destruct (Ascii.eqb d "$"); [rewrite (IH t1) by lia; reflexivity | ].
    destruct (Ascii.eqb d "&");
      [rewrite H1, (IH t1) by lia; reflexivity | ].
    destruct (isdigit d).
    - destruct t1 as [ | d2 t2]; [apply Hsub | ]. simpl in Hn.
      destruct (isdigit d2).
      + rewrite Hsub, (IH t2) by lia. reflexivity.
      + rewrite Hsub, (IH (d2 :: t2)) by (simpl; lia). reflexivity.
    - rewrite (IH (d :: t1)) by (simpl; lia). reflexivity. }
  intros fmt. apply (H (S (length fmt))). lia.
Qed.

(** A prefix in which no match starts is copied. *)
Lemma regex_replace_skip r fmt q t :
  nullable r = false ->
  (forall p1 p2, q = p1 ++ p2 -> p2 <> [] -> match_at r (p2 ++ t) = None) ->
  regex_replace (q ++ t) r fmt = option_map (app q) (regex_replace t r fmt).
Proof.
  intros Hr H. rewrite (@regex_replace_eq r Hr fmt (q ++ t)).
  rewrite (@regex_replace_eq r Hr fmt t). unfold regex_search.
  rewrite (@search_from_skip r q [] t H), search_from_pre. cbn [app].
  destruct (search_from r [] t) as [m | ]; [ | reflexivity].
  cbn [option_map shift_match sm_suffix sm_prefix].
  destruct (regex_replace (sm_suffix m) r fmt) as [out | ]; [ | reflexivity].
  cbn [option_map].
  rewrite (@format_ext (shift_match q m) m eq_refl eq_refl).
  rewrite <- app_assoc. reflexivity.
Qed.

(** ** The declarations of a text *)

Lemma match_at_not_shared s :
  starts_with (L "shared") s = false -> match_at shared_regex s = None.
Proof.
  intros H. unfold match_at, shared_regex. cbn [rmatch].
  rewrite rmatch_Lit, H. reflexivity.
Qed.

Lemma find_in_none pat s :
  forall i, find_in pat s i = None ->
            forall p1 p2, s = p1 ++ p2 -> starts_with pat p2 = false.
Proof.
  induction s as [ | c s IH]; intros i H p1 p2 E; simpl in H.
  - symmetry in E. apply app_eq_nil in E. destruct E; subst.
    destruct (starts_with pat []); [discriminate | reflexivity].
  - destruct (starts_with pat (c :: s)) eqn:Es; [discriminate | ].
    destruct p1 as [ | a p1]; simpl in E.
    + subst p2. exact Es.
    + injection E as _ E. eauto.
Qed.

Lemma contains_false s pat p1 p2 :
  contains s pat = false -> s = p1 ++ p2 -> starts_with pat p2 = false.
Proof.
  unfold contains, find. simpl. intros H.
  destruct (find_in pat s 0) eqn:E; [discriminate | ].
  exact (@find_in_none pat s 0 E p1 p2).
Qed.

(** An occurrence of [pat] that starts in [p2] and ends behind it: the
    character behind [p2] is one of [pat], not the first. *)
Lemma starts_with_straddle pat c x :
  forall p2,
    p2 <> [] -> starts_with pat p2 = false ->
    starts_with pat (p2 ++ c :: x) = true -> In c (tl pat).
Proof.
  induction pat as [ | a pat IH]; intros p2 Hne H1 H2.
  - destruct p2; discriminate.
  - destruct p2 as [ | b p2]; [congruence | ]. simpl in H1, H2.
    apply andb_true_iff in H2. destruct H2 as [Hab H2].
    rewrite Hab in H1. simpl in H1. simpl.
    destruct p2 as [ | b' p2].
    + destruct pat as [ | a' pat]; [discriminate | ].
      simpl in H2. apply andb_true_iff in H2. destruct H2 as [H2 _].
      apply Ascii.eqb_eq in H2. left. exact H2.
    + assert (Hin : In c (tl pat)) by (apply (IH (b' :: p2)); congruence).
      destruct pat; [contradiction | right; exact Hin].
Qed.

Lemma search_from_nothing r s :
  (forall p1 p2, s = p1 ++ p2 -> match_at r p2 = None) ->
  forall pre, search_from r pre s = None.
Proof.
  induction s as [ | a t IH]; intros H pre; rewrite search_from_eq.
  - rewrite (H [] [] eq_refl). reflexivity.
  - rewrite (H [] (a :: t) eq_refl). apply IH.
    intros p1 p2 E. apply (H (a :: p1) p2). rewrite E. reflexivity.
Qed.

Lemma collect_eq s :
  collect s =
  for_each_match (S (length s)) shared_regex
    (fun _ m vars =>
       vars ++ [{| type := sub m 1; name := sub m 2; array := sub m 3 |}])
    s [].
Proof.
  unfold collect, threadgroup_variable_parsing. cbn [shared_vars_ fresh].
  destruct (for_each_match _ _ _ s []); reflexivity.
Qed.

(** A text without the word [shared] has no declaration. *)
Lemma collect_nothing s : contains s (L "shared") = false -> collect s = Some [].
Proof.
  intros H. rewrite collect_eq. cbn [for_each_match]. unfold regex_search.
  rewrite search_from_nothing; [reflexivity | ].
  intros p1 p2 E. apply match_at_not_shared.
  exact (@contains_false s (L "shared") p1 p2 H E).
Qed.

(** The first declaration of a text that has the word [shared] nowhere
    before it is found first, as it stands, and the search goes on behind
    its semicolon. *)
Lemma collect_declaration pre sp1 ty sp2 nm arr rest vars :
  contains pre (L "shared") = false ->
  forallb isspace sp1 = true -> sp1 <> [] ->
  forallb isword ty = true -> ty <> [] ->
  forallb isspace sp2 = true -> sp2 <> [] ->
  forallb isword nm = true -> nm <> [] ->
  forallb (fun c => negb (Ascii.eqb c ";")) arr = true ->
  stops isword arr = true ->
  collect rest = Some vars ->
  collect (pre ++ L "shared" ++ sp1 ++ ty ++ sp2 ++ nm ++ arr ++ ";"%char :: rest)
  = Some ({| type := ty; name := nm; array := arr |} :: vars).
Proof.
  intros Hpre Hs1 Hn1 Hty Hnty Hs2 Hn2 Hnm Hnnm Harr Hstop Hrest.
  rewrite collect_eq in *. cbn [for_each_match]. unfold regex_search.
  set (decl := L "shared" ++ sp1 ++ ty ++ sp2 ++ nm ++ arr ++ ";"%char :: rest).
  rewrite search_from_skip.
  - rewrite search_from_eq. unfold decl at 1.
    rewrite match_at_shared_declaration by assumption.
    cbn [sm_suffix sub capture sm_subs Nat.eqb app].
    rewrite <- (app_nil_r [ {| type := ty; name := nm; array := arr |} ]).
    rewrite (collect_append shared_regex
               (fun m => {| type := sub m 1; name := sub m 2; array := sub m 3 |})).
    rewrite (@for_each_match_fuel shared_regex eq_refl _ _
               (length (pre ++ decl)) (S (length rest)));
      [rewrite Hrest; reflexivity | | lia].
    unfold decl. rewrite !length_app. simpl. lia.
  - intros p1 p2 E Hne. apply match_at_not_shared.
    destruct (starts_with (L "shared") (p2 ++ decl)) eqn:Es; [ | reflexivity].
    exfalso. unfold decl in Es.
    change (L "shared" ++ ?x) with ("s"%char :: (L "hared" ++ x)) in Es.
    apply starts_with_straddle in Es; auto.
    + vm_compute in Es. intuition discriminate.
    + exact (@contains_false pre (L "shared") p1 p2 Hpre E).
Qed.

(** The two declarations of [a_b], with anything before and behind that
    does not hold the word [shared]. *)
Lemma collect_a_b pre post :
  contains pre (L "shared") = false ->
  contains post (L "shared") = false ->
  collect (pre ++ L "shared float a; shared int b[4];" ++ post) = Some a_b.
Proof.
  intros Hpre Hpost.
  change (L "shared float a; shared int b[4];" ++ post)
    with (L "shared" ++ L " " ++ L "float" ++ L " " ++ L "a" ++ [] ++
          ";"%char ::
          (L " " ++ L "shared" ++ L " " ++ L "int" ++ L " " ++ L "b" ++
           L "[4]" ++ ";"%char :: post)).
  apply collect_declaration; try reflexivity; try discriminate; auto.
  apply collect_declaration; try reflexivity; try discriminate.
  apply collect_nothing. exact Hpost.
Qed.

(** C6: for every input whose stripped text holds
    [shared float a; shared int b[4];], and the word [shared] nowhere else,
    [process] on a new instance leaves in the instance the declaration of
    [a] and then that of [b], in this order, and returns a text that ends
    with the suffix, in which each of the four macros lists [a] before
    [b]. *)
Theorem collect_order_a_b :
  forall (W : Type) (report_error : ReportErrorF W) (s : str)
         (b1 b2 b3 : bool) (w : W) (pre post : str) out self' w',
    process report_error s b1 b2 b3 fresh w = Some (out, self', w') ->
    option_map fst (remove_comments report_error s w)
      = Some (pre ++ L "shared float a; shared int b[4];" ++ post) ->
    contains pre (L "shared") = false ->
    contains post (L "shared") = false ->
    shared_vars_ self' =
      [ {| type := L "float"; name := L "a"; array := [] |};
        {| type := L "int"; name := L "b"; array := L "[4]" |} ] /\
    (exists body, out = body ++ suffix self') /\
    macro_definition (suffix self') (L "MSL_SHARED_VARS_ARGS")
      = Some (L " threadgroup float(&_a),threadgroup int(&_b)[4]") /\
    macro_definition (suffix self') (L "MSL_SHARED_VARS_ASSIGN")
      = Some (L ":a(_a),b(_b)") /\
    macro_definition (suffix self') (L "MSL_SHARED_VARS_DECLARE")
      = Some (L "threadgroup float a;threadgroup int b[4];") /\
    macro_definition (suffix self') (L "MSL_SHARED_VARS_PASS")
      = Some (L "( a,b)").
Proof.
  intros W report_error s b1 b2 b3 w pre post out self' w' H Hs Hpre Hpost.
  apply process_fresh_suffix in H.
  destruct H as (stripped & body & Hs' & Hc & _ & ->).
  assert (Hst : stripped = pre ++ L "shared float a; shared int b[4];" ++ post)
    by congruence.
  subst stripped. rewrite (@collect_a_b pre post Hpre Hpost) in Hc.
  assert (Hv : a_b = shared_vars_ self') by congruence.
  split; [symmetry; exact Hv | ]. split; [eauto | ].
  unfold suffix. rewrite <- Hv.
  repeat split; vm_compute; reflexivity.
Qed.

(** C6 at the text of the two declarations, and between a comment line and
    a function. *)
Lemma collect_order_a_b_witness :
  (exists out self',
      process_py (L "shared float a; shared int b[4];") fresh
        = Some (out, self') /\
      shared_vars_ self' = a_b /\
      macro_definition (suffix self') (L "MSL_SHARED_VARS_PASS")
        = Some (L "( a,b)")) /\
  (exists out self',
      process_py
        (L "// two declarations" ++ [nl]
         ++ L "shared float a; shared int b[4];" ++ [nl]
         ++ L "void main() { a = b[0]; }" ++ [nl]) fresh
        = Some (out, self') /\
      shared_vars_ self' = a_b /\
      macro_definition (suffix self') (L "MSL_SHARED_VARS_PASS")
        = Some (L "( a,b)")).
Proof.
  split.
  - eexists. eexists. split; [vm_compute; reflexivity | ].
    refine (let H := @collect_order_a_b unit no_err_report
                       (L "shared float a; shared int b[4];")
                       false false false tt [] [] _ _ tt _ _ _ _ in
            conj (proj1 H) (proj2 (proj2 (proj2 (proj2 (proj2 H)))))).
    + vm_compute. reflexivity.
    + vm_compute. reflexivity.
    + reflexivity.
    + reflexivity.
  - eexists. eexists. split; [vm_compute; reflexivity | ].
    refine (let H := @collect_order_a_b unit no_err_report
                       (L "// two declarations" ++ [nl]
                        ++ L "shared float a; shared int b[4];" ++ [nl]
                        ++ L "void main() { a = b[0]; }" ++ [nl])
                       false false false tt [nl]
                       ([nl] ++ L "void main() { a = b[0]; }" ++ [nl])
                       _ _ tt _ _ _ _ in
            conj (proj1 H) (proj2 (proj2 (proj2 (proj2 (proj2 H)))))).
    + vm_compute. reflexivity.
    + vm_compute. reflexivity.
    + reflexivity.
    + reflexivity.
Defined.

(** ** The directive mask *)

Lemma starts_with_inside pat c y z :
  ~ In c pat ->
  forall b, starts_with pat (b ++ c :: y) = true -> starts_with pat (b ++ z) = true.
Proof.
  induction pat as [ | p pat IH]; intros Hc b H; [destruct (b ++ z); reflexivity | ].
  destruct b as [ | b0 b]; simpl in H.
  - apply andb_true_iff in H. destruct H as [H _].
    apply Ascii.eqb_eq in H. subst p. exfalso. apply Hc. left. reflexivity.
  - apply andb_true_iff in H. destruct H as [H1 H2]. simpl. rewrite H1.
    apply IH; auto. intros Hin. apply Hc. right. exact Hin.
Qed.

Lemma drop_while_app p a z :
  drop_while p (a ++ z) =
  if forallb p a then drop_while p z else drop_while p a ++ z.
Proof.
  induction a as [ | c a IH]; simpl; [reflexivity | ].
  destruct (p c); simpl; [exact IH | reflexivity].
Qed.

Lemma keyword_at_inside b y z :
  keyword_at (b ++ "/"%char :: y) <> None -> keyword_at (b ++ z) <> None.
Proof.
  unfold keyword_at. intros H.
  destruct (starts_with (L "include") (b ++ "/"%char :: y)) eqn:E1.
  - rewrite (@starts_with_inside (L "include") "/" y z) by
      (try exact E1; vm_compute; intuition discriminate).
    discriminate.
  - destruct (starts_with (L "pragma once") (b ++ "/"%char :: y)) eqn:E2;
      [ | congruence].
    rewrite (@starts_with_inside (L "pragma once") "/" y z) by
      (try exact E2; vm_compute; intuition discriminate).
    destruct (starts_with (L "include") (b ++ z)); discriminate.
Qed.

(** A directive that starts before a slash ends before it. *)
Lemma directive_at_inside a y z :
  a <> [] ->
  directive_at (a ++ "/"%char :: y) <> None -> directive_at (a ++ z) <> None.
Proof.
  destruct a as [ | c a]; [congruence | ]. intros _. simpl.
  destruct (Ascii.eqb c "#"); [ | congruence].
  rewrite !drop_while_app. destruct (forallb isspace a).
  - simpl. intros H. exfalso. apply H. reflexivity.
  - apply keyword_at_inside.
Qed.

Lemma directive_at_hash s kw rest :
  directive_at s = Some (kw, rest) ->
  (exists t, s = "#"%char :: t) /\
  (kw = L "include" \/ kw = L "pragma once").
Proof.
  destruct s as [ | c t]; simpl; [discriminate | ].
  destruct (Ascii.eqb c "#") eqn:E; [ | discriminate].
  apply Ascii.eqb_eq in E. subst c. unfold keyword_at. intros H.
  split; [eauto | ].
  destruct (starts_with (L "include") _); [injection H as <- _; auto | ].
  destruct (starts_with (L "pragma once") _); [injection H as <- _; auto | ].
  discriminate.
Qed.

Lemma directive_at_other c t :
  c <> "#"%char -> directive_at (c :: t) = None.
Proof.
  intros H. simpl. apply Ascii.eqb_neq in H. rewrite H. reflexivity.
Qed.

(** What [preprocessor_directive_mutation] returns is left alone by it. *)
Lemma directive_mask_fixed :
  forall n s out,
    length s < n ->
    preprocessor_directive_mutation s = Some out ->
    preprocessor_directive_mutation out = Some out.
Proof.
  unfold preprocessor_directive_mutation.
  induction n as [ | n IH]; intros s out Hn H; [lia | ].
  pose proof H as H0.
  rewrite regex_replace_eq in H by reflexivity.
  destruct (regex_search directive_regex s) as [m | ] eqn:E;
    [ | injection H as <-; exact H0].
  clear H0.
  destruct (regex_replace (sm_suffix m) directive_regex (L "//$1"))
    as [out' | ] eqn:E'; [ | discriminate].
  injection H as <-.
  pose proof (@regex_search_shorter directive_regex s m eq_refl E) as Hs.
  apply search_from_some in E. destruct E as (p & Hp & Hb & _ & Hm & Hleft).
  simpl in Hp. rewrite Hp. clear Hp.
  rewrite match_at_directive in Hm.
  destruct (directive_at (sm_str m ++ sm_suffix m)) as [[kw rest] | ] eqn:Ed;
    [ | discriminate].
  injection Hm as _ Hsubs.
  destruct (directive_at_hash _ Ed) as [[t Ht] Hkw].
  assert (Hf : format m (L "//$1") = L "//" ++ kw).
  { cbv [L String.list_ascii_of_string]. cbn [format].
    change (Ascii.eqb "/" "$") with false. cbv iota.
    change (Ascii.eqb "$" "$") with true. cbv iota.
    change (Ascii.eqb "1" "$") with false. cbv iota.
    change (Ascii.eqb "1" "&") with false. cbv iota.
    change (isdigit "1") with true. cbv iota.
    change (digit_value "1") with 1. unfold sub. rewrite <- Hsubs.
    reflexivity. }
  change (regex_replace (p ++ format m (L "//$1") ++ out') directive_regex
            (L "//$1") = Some (p ++ format m (L "//$1") ++ out')).
  rewrite Hf. rewrite app_assoc.
  rewrite regex_replace_skip; [ | reflexivity | ].
  { rewrite (IH (sm_suffix m) out') by (lia || exact E'). reflexivity. }
  intros p1 p2 Hq Hne. rewrite match_at_directive.
  assert (Hnone : directive_at (p2 ++ out') = None); [ | rewrite Hnone; reflexivity].
  apply app_eq_app in Hq. destruct Hq as [l [[-> Hz] | [Hp Hz]]].
  - (* the position is in the prefix of the match *)
    destruct (list_eq_dec ascii_dec l []) as [-> | Hl].
    + simpl in Hz. subst p2. destruct Hkw as [-> | ->];
        apply directive_at_other; discriminate.
    + rewrite Hz, <- app_assoc.
      destruct (directive_at (l ++ (L "//" ++ kw) ++ out')) eqn:Ex; [ | reflexivity].
      exfalso.
      assert (Hsome : directive_at (l ++ sm_str m ++ sm_suffix m) <> None).
      { apply (@directive_at_inside l ("/"%char :: kw ++ out')); auto.
        change (l ++ "/"%char :: "/"%char :: kw ++ out')
          with (l ++ (L "//" ++ kw) ++ out'). congruence. }
      apply Hsome. specialize (Hleft p1 l eq_refl Hl).
      rewrite match_at_directive in Hleft.
      destruct (directive_at (l ++ sm_str m ++ sm_suffix m)) as [[? ?] | ];
        [discriminate | reflexivity].
  - (* the position is in the replacement *)
    destruct p2 as [ | c p2]; [congruence | ].
    apply directive_at_other. intros ->.
    assert (Hin : In "#"%char (L "//" ++ kw)).
    { rewrite Hz. apply in_or_app. right. left. reflexivity. }
    destruct Hkw as [-> | ->]; vm_compute in Hin; intuition discriminate.
Qed.

(** C8: [preprocessor_directive_mutation] returns, and what it returns is
    left as it is by a second pass; the include of [x] becomes a line
    comment, which a second pass leaves alone. *)
Theorem directive_mask_idempotent :
  (forall s : str,
      exists out,
        preprocessor_directive_mutation s = Some out /\
        preprocessor_directive_mutation out = Some out) /\
  preprocessor_directive_mutation (L "#include " ++ [dq] ++ L "x" ++ [dq])
    = Some (L "//include " ++ [dq] ++ L "x" ++ [dq]) /\
  preprocessor_directive_mutation (L "//include " ++ [dq] ++ L "x" ++ [dq])
    = Some (L "//include " ++ [dq] ++ L "x" ++ [dq]).
Proof.
  split; [ | split; vm_compute; reflexivity].
  intros s.
  destruct (@regex_replace_total directive_regex eq_refl (L "//$1") s)
    as [out H].
  exists out. split; [exact H | ].
  apply (@directive_mask_fixed (S (length s)) s); [lia | exact H].
Qed.

(** ** Completeness of the matcher *)

Lemma star_loop_complete (g : bool) (r : regex) :
  (forall w, Matches r w ->
     forall (R : Type) (k : str -> captures -> option R) s,
       (forall caps, k s caps <> None) ->
       forall caps, rmatch r (w ++ s) caps k <> None) ->
  forall w, Matches (Star g r) w ->
    forall (R : Type) (k : str -> captures -> option R) s n,
      length (w ++ s) <= n ->
      (forall caps, k s caps <> None) ->
      forall caps, star_loop (rmatch r) g k n (w ++ s) caps <> None.
Proof.
  intros Hr w M. remember (Star g r) as r0 eqn:Er.
  induction M as [ | | | | | | g' r' | g' r' w1 w2 M1 _ M2 IH | ];
    try discriminate; injection Er as -> ->; intros R k s n Hn Hk caps.
  - simpl app. destruct n as [ | n]; [apply Hk | ]. simpl.
    destruct g.
    + destruct (rmatch r s caps _); [discriminate | apply Hk].
    + destruct (k s caps) eqn:E; [discriminate | ].
      exfalso. exact (Hk caps E).
  - destruct w1 as [ | a w1]; [apply IH; auto | ].
    destruct n as [ | n]; [simpl in Hn; lia | ].
    assert (Hiter :
              rmatch r (((a :: w1) ++ w2) ++ s) caps
                (fun s1 c1 =>
                   if length s1 <? length (((a :: w1) ++ w2) ++ s)
                   then star_loop (rmatch r) g k n s1 c1 else None) <> None).
    { rewrite <- app_assoc. apply Hr; [exact M1 | ]. intros c1.
      replace (length (w2 ++ s) <? length ((a :: w1) ++ w2 ++ s)) with true
        by (symmetry; apply Nat.ltb_lt; rewrite !length_app; simpl; lia).
      apply IH; auto.
      rewrite !length_app in *. simpl in Hn. lia. }
    cbn [star_loop]. destruct g.
    + destruct (rmatch r _ caps _); [discriminate | congruence].
    + destruct (k _ caps); [discriminate | exact Hiter].
Qed.

(** Where a word of the pattern stands, and the continuation takes what
    follows, the matcher finds a match: this word or one tried before it. *)
Lemma rmatch_complete (r : regex) :
  forall w, Matches r w ->
    forall (R : Type) (k : str -> captures -> option R) s,
      (forall caps, k s caps <> None) ->
      forall caps, rmatch r (w ++ s) caps k <> None.
Proof.
  induction r as [ | c | p | r1 IH1 r2 IH2 | r1 IH1 r2 IH2 | g r IH | n r IH];
    intros w M R k s Hk caps.
  - inversion M; subst. apply Hk.
  - inversion M; subst. simpl. rewrite Ascii.eqb_refl. apply Hk.
  - inversion M as [ | | p' c' Hp | | | | | | ]; subst. simpl. rewrite Hp.
    apply Hk.
  - inversion M as [ | | | r1' r2' w1 w2 M1 M2 | | | | | ]; subst.
    cbn [rmatch]. rewrite <- app_assoc. apply IH1; [exact M1 | ].
    intros c1. apply IH2; auto.
  - cbn [rmatch].
    inversion M as [ | | | | r1' r2' w' M1 | r1' r2' w' M2 | | | ]; subst.
    + destruct (rmatch r1 (w ++ s) caps k) eqn:E; [discriminate | ].
      exfalso. exact (IH1 _ M1 _ k s Hk caps E).
    + destruct (rmatch r1 (w ++ s) caps k); [discriminate | ].
      apply IH2; auto.
  - cbn [rmatch]. apply star_loop_complete; auto.
  - inversion M; subst. cbn [rmatch]. apply IH; auto.
Qed.

Lemma match_at_complete r w s : Matches r w -> match_at r (w ++ s) <> None.
Proof.
  intros M. unfold match_at. apply rmatch_complete; [exact M | discriminate].
Qed.

Lemma search_from_complete r w s q :
  Matches r w -> forall pre, search_from r pre (q ++ w ++ s) <> None.
Proof.
  intros M. induction q as [ | a q IH]; intros pre; rewrite search_from_eq.
  - simpl app. pose proof (@match_at_complete r w s M) as H.
    destruct (match_at r (w ++ s)) as [[? ?] | ]; [discriminate | congruence].
  - destruct (match_at r ((a :: q) ++ w ++ s)) as [[? ?] | ]; [discriminate | ].
    apply IH.
Qed.

Lemma Matches_Lit l : Matches (Lit l) l.
Proof.
  induction l as [ | c l IH]; simpl; [constructor | ].
  change (c :: l) with ([c] ++ l). constructor; [constructor | exact IH].
Qed.

Lemma Matches_star_cls g p w :
  forallb p w = true -> Matches (Star g (Cls p)) w.
Proof.
  induction w as [ | c w IH]; simpl; intros H; [constructor | ].
  apply andb_true_iff in H. destruct H as [H1 H2].
  change (c :: w) with ([c] ++ w). constructor; [constructor; exact H1 | auto].
Qed.

(** ** The diagnostics *)

Lemma lint_log r msg fuel :
  forall s log0 log,
    for_each_match fuel r (fun s' m l => record_error s' m msg l) s log0
      = Some log ->
    exists new,
      log = log0 ++ new /\ chained s new /\ Forall (lint_call r msg) new.
Proof.
  induction fuel as [ | fuel IH]; intros s log0 log H; simpl in H;
    [discriminate | ].
  destruct (regex_search r s) as [m | ] eqn:E.
  - apply IH in H. destruct H as (new & -> & Hc & Hf).
    exists ({| d_text := s; d_match := m; d_msg := msg |} :: new).
    unfold record_error. rewrite <- app_assoc. split; [reflexivity | ].
    split; [simpl; auto | ]. constructor; [ | exact Hf].
    apply search_from_some in E. destruct E as (p & Hp & Hs & M & _).
    unfold lint_call. simpl in *. rewrite Hp. auto.
  - injection H as <-. exists []. rewrite app_nil_r. simpl. auto.
Qed.

Lemma comment_log s log0 out log :
  remove_comments record_error s log0 = Some (out, log) ->
  exists new, log = log0 ++ new /\ Forall (comment_call s) new /\ length new <= 1.
Proof.
  unfold remove_comments. intros H.
  assert (Hcall : forall msg,
             msg = malformed_block_msg \/ msg = malformed_line_msg ->
             exists new,
               record_error s empty_smatch msg log0 = log0 ++ new /\
               Forall (comment_call s) new /\ length new <= 1).
  { intros msg Hmsg. eexists. split; [reflexivity | ].
    split; [ | simpl; lia]. constructor; [ | constructor].
    unfold comment_call. simpl. auto. }
  destruct (block_comments (S (length s)) s 0) as [[o1 [e1 | ]] | ];
    try discriminate.
  - destruct (line_comments (S (length o1)) o1 0) as [[o2 [e2 | ]] | ];
      try discriminate.
    + destruct (regex_replace o2 trailing_ws_regex [nl]); [ | discriminate].
      injection H as _ <-. exists []. rewrite app_nil_r. simpl. auto.
    + injection H as _ <-. apply Hcall. auto.
  - injection H as _ <-. apply Hcall. auto.
Qed.

(** C4, as the code has it.  Whatever the callback, its calls during one
    [process] are those that the recording callback records, in order:
    those of [remove_comments], at most one, with the text that was passed
    in, no match and a message, then those of the matrix linter and then
    those of the array linter.  A linter hands over the text it searched,
    the match it found there and its message: the first call of a linter
    gets the whole stripped text, every later call the suffix of the match
    before it. *)
Theorem diagnostics_of_process :
  forall (W : Type) (report_error : ReportErrorF W) (s : str)
         (b1 b2 b3 : bool) (self : Preprocessor) (w : W),
  exists out self' log stripped clog mlog alog,
    process report_error s b1 b2 b3 self w
      = Some (out, self', replay report_error log w) /\
    process record_error s b1 b2 b3 self [] = Some (out, self', log) /\
    remove_comments record_error s [] = Some (stripped, clog) /\
    log = clog ++ mlog ++ alog /\
    Forall (comment_call s) clog /\ length clog <= 1 /\
    chained stripped mlog /\ Forall (lint_call matrix_regex matrix_msg) mlog /\
    chained stripped alog /\ Forall (lint_call array_regex array_msg) alog.
Proof.
  intros W report_error s b1 b2 b3 self w.
  destruct (process_total record_error s b1 b2 b3 self [])
    as (out & self' & log & H).
  exists out, self', log.
  assert (Hrun : process report_error s b1 b2 b3 self w
                 = Some (out, self', replay report_error log w)).
  { change w with (replay report_error [] w) at 1.
    rewrite process_replay, H. reflexivity. }
  pose proof H as H0. rewrite process_eq in H0.
  destruct (remove_comments record_error s []) as [[stripped clog] | ] eqn:E1;
    [ | discriminate].
  destruct (collect stripped) as [vars | ]; [ | discriminate].
  destruct (matrix_constructor_linting record_error stripped clog)
    as [l2 | ] eqn:E2; [ | discriminate].
  destruct (array_constructor_linting record_error stripped l2)
    as [l3 | ] eqn:E3; [ | discriminate].
  destruct (mutate stripped) as [body | ]; [ | discriminate].
  cbv zeta in H0. injection H0 as _ _ <-.
  apply comment_log in E1. destruct E1 as (c & -> & Hc & Hlen).
  apply lint_log in E2. destruct E2 as (m & -> & Hm1 & Hm2).
  apply lint_log in E3. destruct E3 as (a & -> & Ha1 & Ha2).
  exists stripped, c, m, a. cbn [app] in *. rewrite <- app_assoc in *.
  repeat match goal with |- _ /\ _ => split end; auto.
Qed.

(** C4, as claimed, fails: on a text with two matrix constructors the
    second call of the callback gets what follows the first match, not the
    whole stripped text. *)
Lemma second_diagnostic_text :
  exists out self' d1 d2,
    process record_error two_matrix_constructors false false false fresh []
      = Some (out, self', [d1; d2]) /\
    remove_comments record_error two_matrix_constructors []
      = Some (two_matrix_constructors, []) /\
    d_msg d2 = matrix_msg /\
    d_text d2 = L "; c = mat4(d);" ++ [nl] /\
    d_text d2 <> two_matrix_constructors.
Proof.
  do 4 eexists. split; [vm_compute; reflexivity | ].
  repeat split; try (vm_compute; reflexivity).
  vm_compute. discriminate.
Qed.

Lemma matrix_word c :
  isspace c = true -> Matches matrix_regex (c :: L "mat4(other_mat)").
Proof.
  intros Hc. unfold matrix_regex, Plus.
  change (c :: L "mat4(other_mat)")
    with (([c] ++ []) ++ (L "mat" ++ L "4") ++ L "(" ++
          (L "o" ++ L "ther_mat") ++ L ")").
  apply MCat; [apply MCat; [apply MCls; exact Hc | apply MStarNil] | ].
  apply MCat.
  { apply MGroup, MAltL, MCat; [apply Matches_Lit | ].
    apply MGroup, MAltL. apply (MCls isdigit "4"). reflexivity. }
  apply MCat; [apply (MChr "(") | ].
  apply MCat; [ | apply (MChr ")")].
  apply MCat; [apply (MCls _ "o"); reflexivity | ].
  apply Matches_star_cls. reflexivity.
Qed.

Lemma in_lint_log r msg fuel s m log0 log :
  regex_search r s = Some m ->
  for_each_match (S fuel) r (fun s' m' l => record_error s' m' msg l) s log0
    = Some log ->
  In {| d_text := s; d_match := m; d_msg := msg |} log.
Proof.
  intros E H. simpl in H. rewrite E in H. apply lint_log in H.
  destruct H as (new & -> & _). unfold record_error.
  apply in_or_app. left. apply in_or_app. right. left. reflexivity.
Qed.

(** C7, as the code has it: when, in the stripped text, a whitespace
    character stands before [mat4(other_mat)], the matrix linter calls the
    callback, whichever it is, at least once, with its message; and the
    text returned is the stripped text after the three mutating passes, and
    the suffix: the linters change nothing. *)
Theorem matrix_constructor_reported :
  forall (W : Type) (report_error : ReportErrorF W) (s : str)
         (b1 b2 b3 : bool) (self : Preprocessor) (w : W)
         (pre post : str) (c : ascii) (clog : list Diagnostic),
    remove_comments record_error s []
      = Some (pre ++ c :: L "mat4(other_mat)" ++ post, clog) ->
    isspace c = true ->
    exists out self' log d body,
      process report_error s b1 b2 b3 self w
        = Some (out, self', replay report_error log w) /\
      process record_error s b1 b2 b3 self [] = Some (out, self', log) /\
      In d log /\ d_msg d = matrix_msg /\
      mutate (pre ++ c :: L "mat4(other_mat)" ++ post) = Some body /\
      out = body ++ suffix self'.
Proof.
  intros W report_error s b1 b2 b3 self w pre post c clog E1 Hc.
  destruct (process_total record_error s b1 b2 b3 self [])
    as (out & self' & log & H).
  assert (Hrun : process report_error s b1 b2 b3 self w
                 = Some (out, self', replay report_error log w)).
  { change w with (replay report_error [] w) at 1.
    rewrite process_replay, H. reflexivity. }
  pose proof H as H0. rewrite process_eq, E1 in H0.
  set (stripped := pre ++ c :: L "mat4(other_mat)" ++ post) in *.
  destruct (collect stripped) as [vars | ]; [ | discriminate].
  destruct (matrix_constructor_linting record_error stripped clog)
    as [l2 | ] eqn:E2; [ | discriminate].
  destruct (array_constructor_linting record_error stripped l2)
    as [l3 | ] eqn:E3; [ | discriminate].
  destruct (mutate stripped) as [body | ]; [ | discriminate].
  cbv zeta in H0. injection H0 as <- <- <-.
  destruct (regex_search matrix_regex stripped) as [m | ] eqn:Es.
  - exists (body ++ suffix {| shared_vars_ := shared_vars_ self ++ vars;
                              output_ := output_ self |}).
    exists {| shared_vars_ := shared_vars_ self ++ vars;
              output_ := output_ self |}.
    exists l3, {| d_text := stripped; d_match := m; d_msg := matrix_msg |}, body.
    split; [exact Hrun | ]. split; [exact H | ]. split; [ | auto].
    unfold array_constructor_linting in E3. apply lint_log in E3.
    destruct E3 as (new & -> & _). apply in_or_app. left.
    exact (@in_lint_log matrix_regex matrix_msg _ stripped m clog l2 Es E2).
  - exfalso. revert Es. unfold regex_search, stripped.
    change (c :: L "mat4(other_mat)" ++ post)
      with ((c :: L "mat4(other_mat)") ++ post).
    apply search_from_complete. apply matrix_word. exact Hc.
Qed.

(** C7 at a text in which a blank stands before the constructor. *)
Lemma matrix_constructor_reported_witness :
  exists out self' log d body,
    process no_err_report (L "m = mat4(other_mat);") false false false fresh tt
      = Some (out, self', replay no_err_report log tt) /\
    process record_error (L "m = mat4(other_mat);") false false false fresh []
      = Some (out, self', log) /\
    In d log /\ d_msg d = matrix_msg /\
    mutate (L "m =" ++ " "%char :: L "mat4(other_mat)" ++ L ";") = Some body /\
    out = body ++ suffix self'.
Proof.
  apply (@matrix_constructor_reported unit no_err_report
           (L "m = mat4(other_mat);")
           false false false fresh tt (L "m =") (L ";") " "%char []).
  - vm_compute. reflexivity.
  - reflexivity.
Defined.

(** C7, as claimed, fails: the text [mat4(other_mat)] alone, where nothing
    stands before the constructor, goes through [process] without a call of
    the callback. *)
Lemma matrix_constructor_missed :
  process record_error (L "mat4(other_mat)") false false false fresh []
    = Some (L "mat4(other_mat)", fresh, []).
Proof. vm_compute. reflexivity. Qed.

(** * Further properties *)

(** ** The suffix of any list of declarations *)

Lemma suffix_steps_later vars :
  forall st,
    first st = false ->
    fold_left suffix_step vars st =
    {| args := args st ++ concat (map (cons ","%char) (map args_entry vars));
       assign := assign st
                 ++ concat (map (cons ","%char) (map assign_entry vars));
       declare := declare st ++ concat (map declare_entry vars);
       pass := pass st ++ concat (map (cons ","%char) (map name vars));
       first := false |}.
Proof.
  induction vars as [ | v vars IH]; intros st Hf.
  - destruct st as [a b c d f]. simpl in *. subst f.
    rewrite !app_nil_r. reflexivity.
  - cbn [fold_left]. rewrite IH by reflexivity.
    unfold suffix_step. rewrite Hf.
    cbn [args assign declare pass first map concat].
    unfold args_entry, assign_entry, declare_entry.
    f_equal; cbn [app]; rewrite <- ?app_assoc; cbn [app];
      rewrite <- ?app_assoc; reflexivity.
Qed.

(** X1: for any list of declarations, the loop of [suffix] leaves in each
    stream the entries of the declarations in the order of the list: a
    blank (a colon for the assignments) before the first entry and a comma
    before every other one, and no separator between the declarations of
    the [DECLARE] stream. *)
Theorem suffix_streams_closed_form :
  forall vars : list SharedVar,
    args (suffix_streams vars) = joined " " "," (map args_entry vars) /\
    assign (suffix_streams vars) = joined ":" "," (map assign_entry vars) /\
    declare (suffix_streams vars) = concat (map declare_entry vars) /\
    pass (suffix_streams vars) = joined " " "," (map name vars).
Proof.
  intros [ | v vars]; [repeat split | ].
  unfold suffix_streams. cbn [fold_left].
  rewrite suffix_steps_later by reflexivity.
  unfold suffix_step, joined.
  cbn [args assign declare pass first map concat app].
  unfold args_entry, assign_entry, declare_entry.
  repeat split; cbn [app]; rewrite <- ?app_assoc; cbn [app];
    rewrite <- ?app_assoc; reflexivity.
Qed.

(** ** Occurrences of a word *)

Lemma contains_true s pat :
  contains s pat = true ->
  exists p1 p2, s = p1 ++ p2 /\ starts_with pat p2 = true.
Proof.
  unfold contains, find. simpl. intros H.
  destruct (find_in pat s 0) as [j | ] eqn:E; [ | discriminate].
  apply find_in_spec in E. destruct E as (d & _ & Hd & _).
  exists (firstn d s), (skipn d s). split; [ | exact Hd].
  symmetry. apply firstn_skipn.
Qed.

Lemma contains_false_intro s pat :
  (forall p1 p2, s = p1 ++ p2 -> starts_with pat p2 = false) ->
  contains s pat = false.
Proof.
  intros H. destruct (contains s pat) eqn:E; [ | reflexivity].
  apply contains_true in E. destruct E as (p1 & p2 & E & Hs).
  rewrite (H p1 p2 E) in Hs. discriminate.
Qed.

Lemma starts_with_blanked pat :
  ~ In sp pat ->
  forall p q,
    Blanked p q -> starts_with pat q = true -> starts_with pat p = true.
Proof.
  induction pat as [ | a pat IH]; intros Hsp p q HB H; [reflexivity | ].
  destruct HB as [ | c c' p q Hc HB]; simpl in H; [discriminate | ].
  apply andb_true_iff in H. destruct H as [Ha H].
  apply Ascii.eqb_eq in Ha. subst c'. simpl.
  assert (Hac : c = a).
  { destruct Hc as [Hc | [Hc _]]; [congruence | ].
    exfalso. apply Hsp. left. congruence. }
  subst c. rewrite Ascii.eqb_refl. simpl.
  apply (IH (fun Hin => Hsp (or_intror Hin)) p q HB H).
Qed.

(** Blanking characters brings no occurrence of a word without blank. *)
Lemma contains_blanked s b pat :
  Blanked s b -> ~ In sp pat ->
  contains s pat = false -> contains b pat = false.
Proof.
  intros HB Hsp Hs. apply contains_false_intro. intros q1 q2 E.
  destruct (starts_with pat q2) eqn:Hq; [ | reflexivity].
  unfold Blanked in HB. rewrite E in HB.
  apply Forall2_app_inv_r in HB.
  destruct HB as (p1 & p2 & _ & HB2 & Es).
  pose proof (@starts_with_blanked pat Hsp p2 q2 HB2 Hq) as Hp.
  rewrite (@contains_false s pat p1 p2 Hs Es) in Hp. discriminate.
Qed.

(** Dropping the blanks at the end of the lines brings no occurrence of a
    word without newline. *)
Lemma contains_strip pat :
  pat <> [] -> ~ In nl pat ->
  forall n b out,
    length b < n ->
    regex_replace b trailing_ws_regex [nl] = Some out ->
    contains b pat = false -> contains out pat = false.
Proof.
  intros Hne Hnl. induction n as [ | n IH]; intros b out Hlen H Hb; [lia | ].
  rewrite regex_replace_eq in H by reflexivity.
  destruct (regex_search trailing_ws_regex b) as [m | ] eqn:E;
    [ | injection H as <-; exact Hb].
  destruct (regex_replace (sm_suffix m) trailing_ws_regex [nl])
    as [out' | ] eqn:E'; [ | discriminate].
  pose proof (@regex_search_shorter trailing_ws_regex b m eq_refl E) as Hs.
  apply search_from_some in E. destruct E as (p & Hp & Hsplit & _).
  simpl in Hp.
  assert (Hout : out = p ++ nl :: out').
  { rewrite <- Hp. injection H as <-. reflexivity. }
  subst out. clear H.
  assert (Hsuf : contains (sm_suffix m) pat = false).
  { apply contains_false_intro. intros q1 q2 Eq.
    apply (@contains_false b pat (p ++ sm_str m ++ q1) q2 Hb).
    rewrite Hsplit, Eq, <- !app_assoc. reflexivity. }
  pose proof (IH (sm_suffix m) out' ltac:(lia) E' Hsuf) as Hout'.
  apply contains_false_intro. intros q1 q2 Eq.
  apply app_eq_app in Eq. destruct Eq as [l [[-> Hl] | [-> Hl]]].
  - (* the occurrence would start in what stands before the match *)
    destruct l as [ | c l].
    + simpl in Hl. subst q2.
      destruct pat as [ | a pat]; [congruence | ]. simpl.
      destruct (Ascii.eqb a nl) eqn:Ea; [ | reflexivity].
      apply Ascii.eqb_eq in Ea. exfalso. apply Hnl. left. exact Ea.
    + rewrite Hl.
      destruct (starts_with pat ((c :: l) ++ nl :: out')) eqn:Es;
        [ | reflexivity].
      apply (@starts_with_inside pat nl out' (sm_str m ++ sm_suffix m) Hnl)
        in Es.
      rewrite (@contains_false b pat q1 ((c :: l) ++ sm_str m ++ sm_suffix m) Hb)
        in Es; [discriminate | ].
      rewrite Hsplit, <- app_assoc. reflexivity.
  - (* the occurrence would start at the newline or behind it *)
    destruct l as [ | c l].
    + simpl in Hl. subst q2.
      destruct pat as [ | a pat]; [congruence | ]. simpl.
      destruct (Ascii.eqb a nl) eqn:Ea; [ | reflexivity].
      apply Ascii.eqb_eq in Ea. exfalso. apply Hnl. left. exact Ea.
    + simpl in Hl. injection Hl as _ Hl.
      exact (@contains_false out' pat l q2 Hout' Hl).
Qed.

(** [remove_comments] brings no occurrence of a word that has neither blank
    nor newline. *)
Lemma contains_remove_comments W (report_error : ReportErrorF W) s w out w' pat :
  pat <> [] -> ~ In sp pat -> ~ In nl pat ->
  remove_comments report_error s w = Some (out, w') ->
  contains s pat = false -> contains out pat = false.
Proof.
  intros Hne Hsp Hnl H Hs.
  apply remove_comments_cases in H. destruct H as (b & _ & HB & Hout).
  pose proof (@contains_blanked s b pat HB Hsp Hs) as Hb.
  destruct Hout as [-> | Hout]; [exact Hb | ].
  apply (@contains_strip pat Hne Hnl (S (length b)) b out); auto.
Qed.

(** ** No declaration, no suffix *)

(** X2: when the input does not hold the word [shared], [process] on a new
    instance returns, leaves the instance without declaration, and the text
    it returns is the stripped text after the three mutating passes, with
    nothing behind it. *)
Theorem no_shared_no_suffix :
  forall (W : Type) (report_error : ReportErrorF W) (s : str)
         (b1 b2 b3 : bool) (w : W),
    contains s (L "shared") = false ->
    exists out self' w' stripped,
      process report_error s b1 b2 b3 fresh w = Some (out, self', w') /\
      shared_vars_ self' = [] /\
      suffix self' = [] /\
      option_map fst (remove_comments report_error s w) = Some stripped /\
      mutate stripped = Some out.
Proof.
  intros W report_error s b1 b2 b3 w Hs.
  destruct (process_total report_error s b1 b2 b3 fresh w)
    as (out & self' & w' & H).
  exists out, self', w'. pose proof H as H0.
  apply process_fresh_suffix in H.
  destruct H as (stripped & body & Hstr & Hc & Hm & ->).
  assert (Hnone : contains stripped (L "shared") = false).
  { destruct (remove_comments report_error s w) as [[o w1] | ] eqn:E;
      [ | discriminate].
    simpl in Hstr. injection Hstr as ->.
    apply (@contains_remove_comments W report_error s w stripped w1
             (L "shared")); auto; try discriminate;
      vm_compute; intuition discriminate. }
  rewrite (collect_nothing _ Hnone) in Hc. injection Hc as Hv.
  assert (Hsuf : suffix self' = []) by (unfold suffix; rewrite <- Hv; reflexivity).
  exists stripped. rewrite Hsuf, app_nil_r in H0. rewrite Hsuf, app_nil_r.
  auto.
Qed.

(** X2 at a text with a comment and no declaration. *)
Lemma no_shared_no_suffix_witness :
  exists out self' w' stripped,
    process no_err_report (L "void main() {} // done" ++ [nl])
      false false false fresh tt = Some (out, self', w') /\
    shared_vars_ self' = [] /\
    suffix self' = [] /\
    option_map fst
      (remove_comments no_err_report (L "void main() {} // done" ++ [nl]) tt)
      = Some stripped /\
    mutate stripped = Some out.
Proof.
  apply (@no_shared_no_suffix unit no_err_report
           (L "void main() {} // done" ++ [nl]) false false false tt).
  vm_compute. reflexivity.
Defined.

(** ** Collecting one declaration *)

(** X3: a declaration written [shared], blanks, a type, blanks, a name, a
    text without semicolon that does not go on with a word character, and a
    semicolon, with the word [shared] nowhere before it, adds the type, the
    name and the text between name and semicolon, as they stand, behind the
    declarations the instance holds, followed by the declarations of what
    follows the semicolon; the rest of the instance is left alone. *)
Theorem shared_declaration_collected :
  forall (pre sp1 ty sp2 nm arr rest : str) (self : Preprocessor),
    contains pre (L "shared") = false ->
    forallb isspace sp1 = true -> sp1 <> [] ->
    forallb isword ty = true -> ty <> [] ->
    forallb isspace sp2 = true -> sp2 <> [] ->
    forallb isword nm = true -> nm <> [] ->
    forallb (fun c => negb (Ascii.eqb c ";")) arr = true ->
    stops isword arr = true ->
    exists vars,
      collect rest = Some vars /\
      threadgroup_variable_parsing
        (pre ++ L "shared" ++ sp1 ++ ty ++ sp2 ++ nm ++ arr ++ ";"%char :: rest)
        self
      = Some {| shared_vars_ :=
                  shared_vars_ self
                  ++ {| type := ty; name := nm; array := arr |} :: vars;
                output_ := output_ self |}.
Proof.
  intros pre sp1 ty sp2 nm arr rest self
         Hpre Hs1 Hn1 Hty Hnty Hs2 Hn2 Hnm Hnnm Harr Hstop.
  destruct (threadgroup_variable_parsing_total rest fresh) as [self0 H0].
  exists (shared_vars_ self0).
  assert (Hc : collect rest = Some (shared_vars_ self0))
    by (unfold collect; rewrite H0; reflexivity).
  split; [exact Hc | ].
  rewrite threadgroup_variable_parsing_appends.
  rewrite (@collect_declaration pre sp1 ty sp2 nm arr rest (shared_vars_ self0));
    auto.
Qed.

(** X3 at a declaration with an array size and an initial text before it. *)
Lemma shared_declaration_collected_witness :
  exists vars,
    collect (L " void main() {}") = Some vars /\
    threadgroup_variable_parsing
      (L "#define N 4" ++ [nl] ++ L "shared" ++ L "  " ++ L "vec4" ++ [nl]
       ++ L "tile" ++ L "[N][N]" ++ ";"%char :: L " void main() {}")
      fresh
    = Some {| shared_vars_ :=
                shared_vars_ fresh
                ++ {| type := L "vec4"; name := L "tile"; array := L "[N][N]" |}
                   :: vars;
              output_ := output_ fresh |}.
Proof.
  apply (@shared_declaration_collected
           (L "#define N 4" ++ [nl]) (L "  ") (L "vec4") [nl] (L "tile")
           (L "[N][N]") (L " void main() {}") fresh);
    try reflexivity; discriminate.
Defined.

(** ** The rewriting passes, one match at a time *)

(** A match at the very start of the text. *)
Lemma regex_replace_at_start r fmt s rest caps :
  nullable r = false ->
  match_at r s = Some (rest, caps) ->
  regex_replace s r fmt =
  option_map
    (app (format {| sm_prefix := [];
                    sm_str := firstn (length s - length rest) s;
                    sm_suffix := rest;
                    sm_subs := caps |} fmt))
    (regex_replace rest r fmt).
Proof.
  intros Hr Hm. rewrite (@regex_replace_eq r Hr fmt s).
  unfold regex_search. rewrite search_from_eq, Hm.
  cbn [sm_suffix sm_prefix app].
  destruct (regex_replace rest r fmt); reflexivity.
Qed.

Lemma drop_while_all p w s :
  forallb p w = true -> stops p s = true -> drop_while p (w ++ s) = s.
Proof.
  intros Hw Hs. rewrite drop_while_app, Hw.
  destruct s as [ | c s]; [reflexivity | ]. simpl in *.
  apply negb_true_iff in Hs. rewrite Hs. reflexivity.
Qed.

Lemma directive_at_other_all pre t :
  ~ In "#"%char pre ->
  forall p1 p2, pre = p1 ++ p2 -> p2 <> [] ->
                match_at directive_regex (p2 ++ t) = None.
Proof.
  intros Hpre p1 p2 E Hne. rewrite match_at_directive.
  destruct p2 as [ | c p2]; [congruence | ]. cbn [app].
  rewrite directive_at_other; [reflexivity | ].
  intros ->. apply Hpre. rewrite E. apply in_or_app. right. left. reflexivity.
Qed.

(** X4: a directive, [#], any whitespace and [include] or [pragma once],
    with no [#] before it, becomes two slashes and the keyword, the
    whitespace between [#] and keyword dropped; what stands before is
    copied and what stands behind is rewritten in the same way. *)
Theorem directive_masked :
  forall (pre wsp kw rest : str),
    ~ In "#"%char pre ->
    forallb isspace wsp = true ->
    kw = L "include" \/ kw = L "pragma once" ->
    exists out,
      preprocessor_directive_mutation rest = Some out /\
      preprocessor_directive_mutation (pre ++ "#"%char :: wsp ++ kw ++ rest)
      = Some (pre ++ L "//" ++ kw ++ out).
Proof.
  intros pre wsp kw rest Hpre Hws Hkw.
  unfold preprocessor_directive_mutation.
  destruct (@regex_replace_total directive_regex eq_refl (L "//$1") rest)
    as [out Hout].
  exists out. split; [exact Hout | ].
  rewrite regex_replace_skip;
    [ | reflexivity | apply directive_at_other_all; exact Hpre].
  assert (Hm : match_at directive_regex ("#"%char :: wsp ++ kw ++ rest)
               = Some (rest, [(1, kw)])).
  { rewrite match_at_directive. unfold directive_at.
    change (Ascii.eqb "#" "#") with true. cbv iota.
    rewrite drop_while_all;
      [ | exact Hws | destruct Hkw as [-> | ->]; reflexivity].
    destruct Hkw as [-> | ->]; reflexivity. }
  rewrite (@regex_replace_at_start directive_regex (L "//$1") _ rest
             [(1, kw)] eq_refl Hm).
  rewrite Hout. reflexivity.
Qed.

(** X4 at a directive with a tabulation behind the [#]. *)
Lemma directive_masked_witness :
  exists out,
    preprocessor_directive_mutation ([nl] ++ L "#pragma once" ++ [nl])
      = Some out /\
    preprocessor_directive_mutation
      (L "// deps" ++ [nl] ++ "#"%char :: ["009"%char] ++ L "include"
       ++ ([nl] ++ L "#pragma once" ++ [nl]))
    = Some ((L "// deps" ++ [nl]) ++ L "//" ++ L "include" ++ out).
Proof.
  apply (@directive_masked (L "// deps" ++ [nl]) ["009"%char] (L "include")
           ([nl] ++ L "#pragma once" ++ [nl])).
  - vm_compute. intuition discriminate.
  - reflexivity.
  - left. reflexivity.
Defined.

Lemma regex_search_behind r pre x rest caps :
  (forall p1 p2, pre = p1 ++ p2 -> p2 <> [] -> match_at r (p2 ++ x) = None) ->
  match_at r x = Some (rest, caps) ->
  regex_search r (pre ++ x) =
  Some {| sm_prefix := pre;
          sm_str := firstn (length x - length rest) x;
          sm_suffix := rest;
          sm_subs := caps |}.
Proof.
  intros Hpre Hm. unfold regex_search.
  rewrite (@search_from_skip r pre [] x Hpre), search_from_eq, Hm.
  reflexivity.
Qed.

Lemma stops_space_bracket sp2 t :
  forallb isspace sp2 = true -> stops isword (sp2 ++ "["%char :: t) = true.
Proof.
  destruct sp2 as [ | c sp2]; [reflexivity | ]. simpl. intros H.
  apply andb_true_iff in H. destruct H as [H _].
  rewrite (isspace_not_word _ H). reflexivity.
Qed.

(** The matcher on an array constructor behind an equals sign. *)
Lemma match_at_array_constructor sp1 ty sp2 dims sp3 rest :
  forallb isspace sp1 = true ->
  forallb isword ty = true -> ty <> [] ->
  forallb isspace sp2 = true ->
  forallb (fun c => negb (Ascii.eqb c "]")) dims = true ->
  forallb isspace sp3 = true ->
  match_at array_regex
    ("="%char :: sp1 ++ ty ++ sp2 ++ "["%char :: dims ++ "]"%char
                 :: sp3 ++ "("%char :: rest)
  = Some (rest, [(1, ty)]).
Proof.
  intros Hs1 Hty Hnty Hs2 Hdims Hs3.
  unfold match_at, array_regex. cbn [rmatch].
  change (Ascii.eqb "=" "=") with true. cbv iota.
  apply star_cls_longest; auto.
  { apply stops_app; auto using stops_word_space. }
  change (Cat word (Star true word)) with (Plus (Cls isword)).
  apply plus_cls_longest; auto using stops_space_bracket.
  rewrite firstn_consumed.
  apply star_cls_longest; auto.
  cbn [rmatch]. change (Ascii.eqb "[" "[") with true. cbv iota.
  unfold none_of. apply star_cls_longest.
  { etransitivity; [ | exact Hdims]. apply forallb_same. intros c. simpl.
    rewrite !orb_false_r. reflexivity. }
  { reflexivity. }
  cbn [rmatch]. change (Ascii.eqb "]" "]") with true. cbv iota.
  apply star_cls_longest; auto.
Qed.

Lemma match_at_array_other pre t :
  ~ In "="%char pre ->
  forall p1 p2, pre = p1 ++ p2 -> p2 <> [] ->
                match_at array_regex (p2 ++ t) = None.
Proof.
  intros Hpre p1 p2 E Hne. destruct p2 as [ | c p2]; [congruence | ].
  unfold match_at, array_regex. cbn [rmatch app].
  destruct (Ascii.eqb c "=") eqn:Ec; [ | reflexivity].
  apply Ascii.eqb_eq in Ec. subst c. exfalso. apply Hpre. rewrite E.
  apply in_or_app. right. left. reflexivity.
Qed.

(** X5: an array constructor behind an equals sign, that is [=], a type
    name, brackets around anything but a closing bracket, and an opening
    parenthesis, with any whitespace between them and no [=] before, is
    rewritten to [= ARRAY_T(type) ARRAY_V(]: the brackets and what they
    hold are dropped, what stands before is copied and what stands behind
    is rewritten in the same way. *)
Theorem array_constructor_rewritten :
  forall (pre sp1 ty sp2 dims sp3 rest : str),
    ~ In "="%char pre ->
    forallb isspace sp1 = true ->
    forallb isword ty = true -> ty <> [] ->
    forallb isspace sp2 = true ->
    forallb (fun c => negb (Ascii.eqb c "]")) dims = true ->
    forallb isspace sp3 = true ->
    exists out,
      array_constructor_macro_injection rest = Some out /\
      array_constructor_macro_injection
        (pre ++ "="%char :: sp1 ++ ty ++ sp2 ++ "["%char :: dims ++ "]"%char
             :: sp3 ++ "("%char :: rest)
      = Some (pre ++ L "= ARRAY_T(" ++ ty ++ L ") ARRAY_V(" ++ out).
Proof.
  intros pre sp1 ty sp2 dims sp3 rest Hpre Hs1 Hty Hnty Hs2 Hdims Hs3.
  unfold array_constructor_macro_injection.
  destruct (@regex_replace_total array_regex eq_refl
              (L "= ARRAY_T($1) ARRAY_V(") rest) as [out Hout].
  exists out. split; [exact Hout | ].
  rewrite regex_replace_skip;
    [ | reflexivity | apply match_at_array_other; exact Hpre].
  rewrite (@regex_replace_at_start array_regex (L "= ARRAY_T($1) ARRAY_V(")
             _ rest [(1, ty)] eq_refl
             (@match_at_array_constructor sp1 ty sp2 dims sp3 rest
                Hs1 Hty Hnty Hs2 Hdims Hs3)).
  rewrite Hout. cbn [option_map]. f_equal. f_equal.
  change (format ?m (L "= ARRAY_T($1) ARRAY_V("))
    with (L "= ARRAY_T(" ++ ty ++ L ") ARRAY_V(").
  rewrite <- !app_assoc. reflexivity.
Qed.

(** X5 at the constructor of an array of two floats. *)
Lemma array_constructor_rewritten_witness :
  exists out,
    array_constructor_macro_injection (L "0.0, 0.0);") = Some out /\
    array_constructor_macro_injection
      (L "float a[2] " ++ "="%char :: L " " ++ L "float" ++ [] ++ "["%char
         :: L "2" ++ "]"%char :: [] ++ "("%char :: L "0.0, 0.0);")
    = Some (L "float a[2] " ++ L "= ARRAY_T(" ++ L "float" ++ L ") ARRAY_V("
            ++ out).
Proof.
  apply (@array_constructor_rewritten (L "float a[2] ") (L " ") (L "float")
           [] (L "2") [] (L "0.0, 0.0);")); try reflexivity.
  - vm_compute. intuition discriminate.
  - discriminate.
Defined.

Lemma lint_log_append r msg fuel :
  forall s l l',
    for_each_match fuel r (fun s' m a => record_error s' m msg a) s (l ++ l') =
    option_map (app l)
      (for_each_match fuel r (fun s' m a => record_error s' m msg a) s l').
Proof.
  induction fuel as [ | fuel IH]; intros s l l'; simpl; [reflexivity | ].
  destruct (regex_search r s) as [m | ]; [ | reflexivity].
  rewrite <- IH. unfold record_error. rewrite app_assoc. reflexivity.
Qed.

Lemma lint_log_from r msg fuel s l :
  for_each_match fuel r (fun s' m a => record_error s' m msg a) s l =
  option_map (app l)
    (for_each_match fuel r (fun s' m a => record_error s' m msg a) s []).
Proof.
  rewrite <- (app_nil_r l) at 1. apply lint_log_append.
Qed.

(** X6: the array linter reports such a constructor, the first one of the
    text: the callback gets the whole text, the match with what stands
    before as prefix, the constructor from [=] to [(] as matched text and
    what follows as suffix, and the message about array constructors; the
    calls for what follows come behind. *)
Theorem array_constructor_reported :
  forall (pre sp1 ty sp2 dims sp3 rest : str) (log0 : list Diagnostic),
    ~ In "="%char pre ->
    forallb isspace sp1 = true ->
    forallb isword ty = true -> ty <> [] ->
    forallb isspace sp2 = true ->
    forallb (fun c => negb (Ascii.eqb c "]")) dims = true ->
    forallb isspace sp3 = true ->
    let ctor := "="%char :: sp1 ++ ty ++ sp2 ++ "["%char :: dims ++ "]"%char
                         :: sp3 ++ ["("%char] in
    exists later,
      array_constructor_linting record_error rest [] = Some later /\
      array_constructor_linting record_error (pre ++ ctor ++ rest) log0
      = Some (log0
              ++ {| d_text := pre ++ ctor ++ rest;
                    d_match := {| sm_prefix := pre;
                                  sm_str := ctor;
                                  sm_suffix := rest;
                                  sm_subs := [(1, ty)] |};
                    d_msg := array_msg |} :: later).
Proof.
  intros pre sp1 ty sp2 dims sp3 rest log0 Hpre Hs1 Hty Hnty Hs2 Hdims Hs3 ctor.
  unfold array_constructor_linting.
  destruct (@for_each_match_total array_regex eq_refl _
              (fun s' m l => record_error s' m array_msg l)
              (S (length rest)) rest []) as [later Hl]; [lia | ].
  exists later. split; [exact Hl | ].
  assert (Hx : ctor ++ rest =
               "="%char :: sp1 ++ ty ++ sp2 ++ "["%char :: dims ++ "]"%char
                           :: sp3 ++ "("%char :: rest).
  { unfold ctor. cbn [app]. f_equal. rewrite <- !app_assoc. cbn [app].
    f_equal. f_equal. f_equal. rewrite <- !app_assoc. cbn [app].
    f_equal. rewrite <- !app_assoc. reflexivity. }
  cbn [for_each_match].
  rewrite (@regex_search_behind array_regex pre (ctor ++ rest) rest [(1, ty)]).
  - rewrite firstn_consumed.
    rewrite (@for_each_match_fuel array_regex eq_refl _ _
               (length (pre ++ ctor ++ rest)) (S (length rest)));
      [ | cbn [sm_suffix]; unfold ctor; rewrite !length_app;
          cbn [length]; lia | cbn [sm_suffix]; lia].
    cbn [sm_suffix]. rewrite lint_log_from, Hl. cbn [option_map].
    unfold record_error. rewrite <- app_assoc. reflexivity.
  - apply match_at_array_other. exact Hpre.
  - rewrite Hx. apply match_at_array_constructor; assumption.
Qed.

(** X6 at the constructor of an array of two floats. *)
Lemma array_constructor_reported_witness :
  exists later,
    array_constructor_linting record_error (L "0.0, 0.0);") [] = Some later /\
    array_constructor_linting record_error
      (L "float a[2] "
       ++ ("="%char :: L " " ++ L "float" ++ [] ++ "["%char :: L "2"
             ++ "]"%char :: [] ++ ["("%char])
       ++ L "0.0, 0.0);") []
    = Some ([]
            ++ {| d_text :=
                    L "float a[2] "
                    ++ ("="%char :: L " " ++ L "float" ++ [] ++ "["%char
                          :: L "2" ++ "]"%char :: [] ++ ["("%char])
                    ++ L "0.0, 0.0);";
                  d_match :=
                    {| sm_prefix := L "float a[2] ";
                       sm_str := "="%char :: L " " ++ L "float" ++ []
                                 ++ "["%char :: L "2" ++ "]"%char :: []
                                 ++ ["("%char];
                       sm_suffix := L "0.0, 0.0);";
                       sm_subs := [(1, L "float")] |};
                  d_msg := array_msg |} :: later).
Proof.
  apply (@array_constructor_reported (L "float a[2] ") (L " ") (L "float")
           [] (L "2") [] (L "0.0, 0.0);") []); try reflexivity.
  - vm_compute. intuition discriminate.
  - discriminate.
Defined.

(** ** The decorator of one argument *)

Lemma starts_with_self_app l t : starts_with l (l ++ t) = true.
Proof.
  induction l as [ | c l IH]; simpl; [reflexivity | ].
  rewrite Ascii.eqb_refl. exact IH.
Qed.

Lemma skipn_length_app (l t : str) : skipn (length l) (l ++ t) = t.
Proof. rewrite skipn_app, skipn_all, Nat.sub_diag. reflexivity. Qed.

Lemma rmatch_Alt (R : Type) r1 r2 s caps (k : str -> captures -> option R) :
  rmatch (Alt r1 r2) s caps k =
  match rmatch r1 s caps k with
  | Some x => Some x
  | None => rmatch r2 s caps k
  end.
Proof. reflexivity. Qed.

(** The matcher on a qualifier, blanks, a type, blanks and a name. *)
Lemma match_at_decorated q sp1 ty sp2 nm rest :
  qualifier q ->
  forallb isspace sp1 = true -> sp1 <> [] ->
  forallb isword ty = true -> ty <> [] ->
  forallb isspace sp2 = true -> sp2 <> [] ->
  forallb isword nm = true -> nm <> [] ->
  stops isword rest = true ->
  match_at decorator_regex (q ++ sp1 ++ ty ++ sp2 ++ nm ++ rest)
  = Some (rest, [(3, nm); (2, ty); (1, q)]).
Proof.
  intros Hq Hs1 Hn1 Hty Hnty Hs2 Hn2 Hnm Hnnm Hstop.
  assert (Hk : forall caps,
             rmatch (Plus ws @@ Group 2 (Plus word) @@ Plus ws
                     @@ Group 3 (Plus word))%re
               (sp1 ++ ty ++ sp2 ++ nm ++ rest) caps
               (fun s1 c1 => Some (s1, c1))
             = Some (rest, (3, nm) :: (2, ty) :: caps)).
  { intros caps. cbn [rmatch].
    change (Cat ws (Star true ws)) with (Plus (Cls isspace)).
    apply plus_cls_longest; auto.
    { apply stops_app; auto using stops_word_space. }
    change (Cat word (Star true word)) with (Plus (Cls isword)).
    apply plus_cls_longest; auto.
    { apply stops_app; auto using stops_space_word. }
    rewrite firstn_consumed.
    apply plus_cls_longest; auto.
    { apply stops_app; auto using stops_word_space. }
    apply plus_cls_longest; auto.
    rewrite firstn_consumed. reflexivity. }
  assert (Hsp : exists c t, sp1 = c :: t /\ isspace c = true).
  { destruct sp1 as [ | c t]; [congruence | ]. simpl in Hs1.
    apply andb_true_iff in Hs1. destruct Hs1. eauto. }
  destruct Hsp as (c & t & Ec & Hc).
  unfold match_at, decorator_regex.
  set (B := (Plus ws @@ Group 2 (Plus word) @@ Plus ws
             @@ Group 3 (Plus word))%re) in *.
  set (s := q ++ sp1 ++ ty ++ sp2 ++ nm ++ rest).
  change (rmatch (Lit (L "out") <|> Lit (L "inout") <|> Lit (L "in")
                  <|> Lit (L "shared"))%re s []
            (fun s1 c1 =>
               rmatch B s1 ((1, firstn (length s - length s1) s) :: c1)
                 (fun s2 c2 => Some (s2, c2)))
          = Some (rest, [(3, nm); (2, ty); (1, q)])).
  rewrite !rmatch_Alt, !rmatch_Lit. unfold s.
  destruct Hq as [-> | [-> | [-> | ->]]].
  - rewrite starts_with_self_app, skipn_length_app, firstn_consumed.
    rewrite Hk. reflexivity.
  - replace (starts_with (L "out") (L "inout" ++ _)) with false by reflexivity.
    rewrite starts_with_self_app, skipn_length_app, firstn_consumed.
    rewrite Hk. reflexivity.
  - replace (starts_with (L "out") (L "in" ++ _)) with false by reflexivity.
    replace (starts_with (L "inout") (L "in" ++ sp1 ++ _)) with false.
    + rewrite starts_with_self_app, skipn_length_app, firstn_consumed.
      rewrite Hk. reflexivity.
    + rewrite Ec.
      change (starts_with (L "inout")
                (L "in" ++ (c :: t) ++ ty ++ sp2 ++ nm ++ rest))
        with (Ascii.eqb "o" c
              && starts_with (L "ut") (t ++ ty ++ sp2 ++ nm ++ rest)).
      destruct (Ascii.eqb "o" c) eqn:Eo; [ | reflexivity].
      apply Ascii.eqb_eq in Eo. subst c. discriminate.
  - replace (starts_with (L "out") (L "shared" ++ _)) with false by reflexivity.
    replace (starts_with (L "inout") (L "shared" ++ _)) with false
      by reflexivity.
    replace (starts_with (L "in") (L "shared" ++ _)) with false by reflexivity.
    rewrite starts_with_self_app, skipn_length_app, firstn_consumed.
    rewrite Hk. reflexivity.
Qed.

Lemma match_at_decorator_start s :
  starts_with (L "out") s = false ->
  starts_with (L "in") s = false ->
  starts_with (L "shared") s = false ->
  match_at decorator_regex s = None.
Proof.
  intros H1 H2 H3. unfold match_at, decorator_regex.
  set (B := (Plus ws @@ Group 2 (Plus word) @@ Plus ws
             @@ Group 3 (Plus word))%re).
  change (rmatch (Lit (L "out") <|> Lit (L "inout") <|> Lit (L "in")
                  <|> Lit (L "shared"))%re s []
            (fun s1 c1 =>
               rmatch B s1 ((1, firstn (length s - length s1) s) :: c1)
                 (fun s2 c2 => Some (s2, c2)))
          = None).
  rewrite !rmatch_Alt, !rmatch_Lit, H1, H2, H3.
  destruct (starts_with (L "inout") s) eqn:E; [ | reflexivity].
  exfalso. apply starts_with_app in E. destruct E as [t ->].
  discriminate.
Qed.

Lemma no_straddle pre w c x p1 p2 :
  contains pre w = false -> ~ In c (tl w) ->
  pre = p1 ++ p2 -> p2 <> [] ->
  starts_with w (p2 ++ c :: x) = false.
Proof.
  intros Hpre Hc E Hne.
  destruct (starts_with w (p2 ++ c :: x)) eqn:Es; [ | reflexivity].
  exfalso. apply Hc.
  apply (@starts_with_straddle w c x p2 Hne); [ | exact Es].
  exact (@contains_false pre w p1 p2 Hpre E).
Qed.

(** X7: a qualifier, [out], [inout], [in] or [shared], blanks, a type,
    blanks and a name that ends where the text stops or goes on with
    something else than a word character, with none of the words [out],
    [in] and [shared] before it, gets the marker [_q_sta] before the name
    and the marker [_q_end] behind it, where [q] is the qualifier; the
    blanks between qualifier, type and name become one blank each; what
    stands before is copied and what stands behind is rewritten in the
    same way. *)
Theorem argument_decorated :
  forall (pre q sp1 ty sp2 nm rest : str),
    contains pre (L "out") = false ->
    contains pre (L "in") = false ->
    contains pre (L "shared") = false ->
    qualifier q ->
    forallb isspace sp1 = true -> sp1 <> [] ->
    forallb isword ty = true -> ty <> [] ->
    forallb isspace sp2 = true -> sp2 <> [] ->
    forallb isword nm = true -> nm <> [] ->
    stops isword rest = true ->
    exists out,
      argument_decorator_macro_injection rest = Some out /\
      argument_decorator_macro_injection
        (pre ++ q ++ sp1 ++ ty ++ sp2 ++ nm ++ rest)
      = Some (pre ++ q ++ L " " ++ ty ++ L " _" ++ q ++ L "_sta " ++ nm
              ++ L " _" ++ q ++ L "_end" ++ out).
Proof.
  intros pre q sp1 ty sp2 nm rest Ho Hi Hsh Hq
         Hs1 Hn1 Hty Hnty Hs2 Hn2 Hnm Hnnm Hstop.
  unfold argument_decorator_macro_injection.
  destruct (@regex_replace_total decorator_regex eq_refl
              (L "$1 $2 _$1_sta $3 _$1_end") rest) as [out Hout].
  exists out. split; [exact Hout | ].
  rewrite regex_replace_skip; [ | reflexivity | ].
  - rewrite (@regex_replace_at_start decorator_regex
               (L "$1 $2 _$1_sta $3 _$1_end") _ rest
               [(3, nm); (2, ty); (1, q)] eq_refl
               (@match_at_decorated q sp1 ty sp2 nm rest Hq Hs1 Hn1 Hty Hnty
                  Hs2 Hn2 Hnm Hnnm Hstop)).
    rewrite Hout. cbn [option_map]. f_equal. f_equal.
    change (format ?m (L "$1 $2 _$1_sta $3 _$1_end"))
      with (q ++ L " " ++ ty ++ L " _" ++ q ++ L "_sta " ++ nm
            ++ L " _" ++ q ++ L "_end").
    rewrite <- !app_assoc. reflexivity.
  - intros p1 p2 E Hne.
    assert (Hhead : exists c x, q ++ sp1 ++ ty ++ sp2 ++ nm ++ rest = c :: x /\
                                (c = "o" \/ c = "i" \/ c = "s")%char).
    { destruct Hq as [-> | [-> | [-> | ->]]]; eexists; eexists;
        (split; [reflexivity | auto]). }
    destruct Hhead as (c & x & -> & Hc).
    apply match_at_decorator_start;
      (eapply no_straddle; [eassumption | | exact E | exact Hne]);
      destruct Hc as [-> | [-> | ->]]; vm_compute; intuition discriminate.
Qed.

(** X7 at an argument of a function, with a tabulation behind the
    qualifier. *)
Lemma argument_decorated_witness :
  exists out,
    argument_decorator_macro_injection (L "[2], float x)") = Some out /\
    argument_decorator_macro_injection
      (L "void f(" ++ L "inout" ++ ["009"%char] ++ L "vec3" ++ L "  "
       ++ L "var" ++ L "[2], float x)")
    = Some (L "void f(" ++ L "inout" ++ L " " ++ L "vec3" ++ L " _"
            ++ L "inout" ++ L "_sta " ++ L "var" ++ L " _" ++ L "inout"
            ++ L "_end" ++ out).
Proof.
  apply (@argument_decorated (L "void f(") (L "inout") ["009"%char] (L "vec3")
           (L "  ") (L "var") (L "[2], float x)"));
    try reflexivity; try discriminate.
  right. left. reflexivity.
Defined.

(** ** What the comment loops leave *)

Lemma skipn_split (s p1 p2 : str) : s = p1 ++ p2 -> skipn (length p1) s = p2.
Proof. intros ->. apply skipn_length_app. Qed.

Lemma occurs_nowhere s pat :
  contains s pat = false -> forall j, starts_with pat (skipn j s) = false.
Proof.
  intros H j. apply (@contains_false s pat (firstn j s) (skipn j s) H).
  symmetry. apply firstn_skipn.
Qed.

Lemma occurs_nowhere_intro s pat :
  (forall j, starts_with pat (skipn j s) = false) -> contains s pat = false.
Proof.
  intros H. apply contains_false_intro. intros p1 p2 E.
  rewrite <- (skipn_split _ _ E). apply H.
Qed.

Lemma find_in_nothing pat s :
  (forall j, starts_with pat (skipn j s) = false) ->
  forall i, find_in pat s i = None.
Proof.
  induction s as [ | c s IH]; intros H i; pose proof (H 0) as H0;
    simpl in H0; simpl; rewrite H0; [reflexivity | ].
  apply IH. intros j. exact (H (S j)).
Qed.

Lemma find_none_from s pat pos :
  (forall j, pos <= j -> starts_with pat (skipn j s) = false) ->
  find s pat pos = None.
Proof.
  intros H. unfold find. destruct (pos <=? length s); [ | reflexivity].
  apply find_in_nothing. intros j. rewrite skipn_skipn. apply H. lia.
Qed.

Lemma find_none_after s pat pos :
  pat <> [] -> find s pat pos = None ->
  forall j, pos <= j -> starts_with pat (skipn j s) = false.
Proof.
  intros Hne H j Hj. unfold find in H.
  destruct (pos <=? length s) eqn:E.
  - replace j with ((j - pos) + pos) by lia. rewrite <- skipn_skipn.
    apply (@find_in_none pat (skipn pos s) pos H
             (firstn (j - pos) (skipn pos s)) (skipn (j - pos) (skipn pos s))).
    symmetry. apply firstn_skipn.
  - apply Nat.leb_gt in E. rewrite skipn_all2 by lia.
    destruct pat; [congruence | reflexivity].
Qed.

Lemma find_first s pat pos j :
  pos <= j -> starts_with pat (skipn j s) = true ->
  (forall i, pos <= i -> i < j -> starts_with pat (skipn i s) = false) ->
  pat <> [] ->
  find s pat pos = Some j.
Proof.
  intros Hj Hocc Hmin Hne.
  destruct (find s pat pos) as [i | ] eqn:E.
  - apply find_spec in E. destruct E as (Hi & Hoi & Hmi).
    destruct (Nat.lt_trichotomy i j) as [Hlt | [-> | Hgt]]; [ | reflexivity | ].
    + rewrite (Hmin i Hi Hlt) in Hoi. discriminate.
    + rewrite (Hmi j Hj Hgt) in Hocc. discriminate.
  - rewrite (@find_none_after s pat pos Hne E j Hj) in Hocc. discriminate.
Qed.

Lemma Blanked_skipn s b :
  Blanked s b -> forall j, Blanked (skipn j s) (skipn j b).
Proof.
  induction 1 as [ | c c' s b Hc H IH]; intros [ | j]; simpl;
    try constructor; auto.
Qed.

Lemma occurs_blanked s b pat j :
  Blanked s b -> ~ In sp pat ->
  starts_with pat (skipn j s) = false -> starts_with pat (skipn j b) = false.
Proof.
  intros HB Hsp Hs.
  destruct (starts_with pat (skipn j b)) eqn:E; [ | reflexivity].
  rewrite (@starts_with_blanked pat Hsp _ _ (@Blanked_skipn s b HB j) E) in Hs.
  discriminate.
Qed.

Lemma nth_error_for_range f a b s :
  forall i j,
    nth_error (for_range f a b i s) j =
    option_map (fun c => if (a <=? i + j) && (i + j <? b) then f c else c)
      (nth_error s j).
Proof.
  induction s as [ | c s IH]; intros i [ | j]; simpl; try reflexivity.
  - rewrite Nat.add_0_r. reflexivity.
  - rewrite IH. replace (S i + j) with (i + S j) by lia. reflexivity.
Qed.

(** A word that starts with a slash does not start at a place that a
    comment loop has blanked. *)
Lemma no_slash_in_range f a b s j pat :
  (forall c, f c = sp \/ f c = nl) ->
  a <= j -> j < b ->
  starts_with ("/"%char :: pat) (skipn j (for_range f a b 0 s)) = false.
Proof.
  intros Hf Ha Hb.
  destruct (starts_with ("/"%char :: pat) (skipn j (for_range f a b 0 s)))
    eqn:E; [ | reflexivity].
  apply starts_with_hd in E. rewrite hd_skipn, nth_error_for_range in E.
  simpl in E.
  replace ((a <=? j) && (j <? b)) with true in E
    by (symmetry; apply andb_true_iff; split;
        [apply Nat.leb_le | apply Nat.ltb_lt]; lia).
  destruct (nth_error s j) as [c | ]; [ | discriminate]. simpl in E.
  injection E as E. destruct (Hf c) as [H | H]; rewrite H in E; discriminate.
Qed.

Lemma blank_but_newline_cases c :
  blank_but_newline c = sp \/ blank_but_newline c = nl.
Proof.
  unfold blank_but_newline. destruct (Ascii.eqb c nl) eqn:E; [ | auto].
  apply Ascii.eqb_eq in E. auto.
Qed.

(** When the loop over multi-line comments ends by itself, no [/*] is
    left. *)
Lemma block_comments_no_opener fuel :
  forall s e out e',
    block_comments fuel s e = Some (out, Some e') ->
    (forall j, j < e -> starts_with (L "/*") (skipn j s) = false) ->
    forall j, starts_with (L "/*") (skipn j out) = false.
Proof.
  induction fuel as [ | fuel IH]; intros s e out e' H Hbefore j;
    [discriminate | ].
  rewrite block_comments_S in H.
  destruct (find s (L "/*") e) as [start | ] eqn:F1.
  - destruct (find s (L "*/") (start + 2)) as [e1 | ] eqn:F2;
      [ | discriminate].
    apply (IH _ _ _ _ H). intros i Hi.
    pose proof (@find_bound s (L "/*") e start ltac:(discriminate) F1)
      as [B1 _].
    pose proof (@find_bound s (L "*/") (start + 2) e1 ltac:(discriminate) F2)
      as [B2 _].
    apply find_spec in F1. destruct F1 as (_ & _ & Hmin).
    destruct (Nat.lt_ge_cases i start) as [Hlt | Hge].
    + apply occurs_blanked with (s := s);
        [apply for_range_blank_but_newline | vm_compute; intuition discriminate | ].
      destruct (Nat.lt_ge_cases i e); [apply Hbefore | apply Hmin]; lia.
    + apply no_slash_in_range; [exact blank_but_newline_cases | lia | lia].
  - injection H as <- _.
    destruct (Nat.lt_ge_cases j e); [apply Hbefore; assumption | ].
    apply (@find_none_after s (L "/*") e ltac:(discriminate) F1). assumption.
Qed.

Lemma line_step_blanked s e start e1 :
  find s (L "//") e = Some start ->
  find s [nl] (start + 2) = Some e1 ->
  Blanked s (for_range blank start e1 0 s).
Proof.
  intros F1 F2. apply for_range_blank. cbn [Nat.add]. intros j Hj1 Hj2.
  apply find_spec in F1. destruct F1 as (_ & F1 & _).
  apply find_spec in F2. destruct F2 as (_ & _ & F2).
  apply starts_with_app in F1. destruct F1 as [rest F1].
  destruct (Nat.eq_dec j start) as [-> | Hn1].
  { rewrite <- hd_skipn, F1. discriminate. }
  destruct (Nat.eq_dec j (S start)) as [-> | Hn2].
  { rewrite <- hd_skipn. replace (S start) with (1 + start) by lia.
    rewrite <- skipn_skipn, F1. discriminate. }
  rewrite <- hd_skipn. apply starts_with_single_false.
  apply F2; lia.
Qed.

(** When the loop over single-line comments ends by itself, no [//] is
    left. *)
Lemma line_comments_no_opener fuel :
  forall s e out e',
    line_comments fuel s e = Some (out, Some e') ->
    (forall j, j < e -> starts_with (L "//") (skipn j s) = false) ->
    forall j, starts_with (L "//") (skipn j out) = false.
Proof.
  induction fuel as [ | fuel IH]; intros s e out e' H Hbefore j;
    [discriminate | ].
  rewrite line_comments_S in H.
  destruct (find s (L "//") e) as [start | ] eqn:F1.
  - destruct (find s [nl] (start + 2)) as [e1 | ] eqn:F2; [ | discriminate].
    apply (IH _ _ _ _ H). intros i Hi.
    pose proof (@find_bound s (L "//") e start ltac:(discriminate) F1)
      as [B1 _].
    pose proof (@find_bound s [nl] (start + 2) e1 ltac:(discriminate) F2)
      as [B2 _].
    pose proof F1 as F1'. pose proof F2 as F2'.
    apply find_spec in F1. destruct F1 as (_ & _ & Hmin).
    destruct (Nat.lt_ge_cases i start) as [Hlt | Hge].
    + apply occurs_blanked with (s := s);
        [ | vm_compute; intuition discriminate
          | destruct (Nat.lt_ge_cases i e); [apply Hbefore | apply Hmin]; lia].
      exact (@line_step_blanked s e start e1 F1' F2').
    + apply no_slash_in_range; [intros c; left; reflexivity | lia | lia].
  - injection H as <- _.
    destruct (Nat.lt_ge_cases j e); [apply Hbefore; assumption | ].
    apply (@find_none_after s (L "//") e ltac:(discriminate) F1). assumption.
Qed.

(** When the loop over multi-line comments is left at a comment that is not
    closed, that comment is the first [/*] of the text returned. *)
Lemma block_comments_broken fuel :
  forall s e out,
    block_comments fuel s e = Some (out, None) ->
    (forall j, j < e -> starts_with (L "/*") (skipn j s) = false) ->
    exists start,
      find out (L "/*") 0 = Some start /\
      find out (L "*/") (start + 2) = None.
Proof.
  induction fuel as [ | fuel IH]; intros s e out H Hbefore; [discriminate | ].
  rewrite block_comments_S in H.
  destruct (find s (L "/*") e) as [start | ] eqn:F1; [ | discriminate].
  destruct (find s (L "*/") (start + 2)) as [e1 | ] eqn:F2.
  - apply (IH _ _ _ H). intros i Hi.
    pose proof (@find_bound s (L "/*") e start ltac:(discriminate) F1)
      as [B1 _].
    pose proof (@find_bound s (L "*/") (start + 2) e1 ltac:(discriminate) F2)
      as [B2 _].
    apply find_spec in F1. destruct F1 as (_ & _ & Hmin).
    destruct (Nat.lt_ge_cases i start) as [Hlt | Hge].
    + apply occurs_blanked with (s := s);
        [apply for_range_blank_but_newline | vm_compute; intuition discriminate | ].
      destruct (Nat.lt_ge_cases i e); [apply Hbefore | apply Hmin]; lia.
    + apply no_slash_in_range; [exact blank_but_newline_cases | lia | lia].
  - injection H as <-. exists start. split; [ | exact F2].
    apply find_spec in F1. destruct F1 as (Hge & Hocc & Hmin).
    apply find_first; [lia | exact Hocc | | discriminate].
    intros i _ Hi.
    destruct (Nat.lt_ge_cases i e); [apply Hbefore | apply Hmin]; lia.
Qed.

Lemma line_comments_broken fuel :
  forall s e out,
    line_comments fuel s e = Some (out, None) ->
    (forall j, j < e -> starts_with (L "//") (skipn j s) = false) ->
    exists start,
      find out (L "//") 0 = Some start /\
      find out [nl] (start + 2) = None.
Proof.
  induction fuel as [ | fuel IH]; intros s e out H Hbefore; [discriminate | ].
  rewrite line_comments_S in H.
  destruct (find s (L "//") e) as [start | ] eqn:F1; [ | discriminate].
  destruct (find s [nl] (start + 2)) as [e1 | ] eqn:F2.
  - apply (IH _ _ _ H). intros i Hi.
    pose proof (@find_bound s (L "//") e start ltac:(discriminate) F1)
      as [B1 _].
    pose proof (@find_bound s [nl] (start + 2) e1 ltac:(discriminate) F2)
      as [B2 _].
    pose proof (@line_step_blanked s e start e1 F1 F2) as HB.
    apply find_spec in F1. destruct F1 as (_ & _ & Hmin).
    destruct (Nat.lt_ge_cases i start) as [Hlt | Hge].
    + apply occurs_blanked with (s := s);
        [exact HB | vm_compute; intuition discriminate | ].
      destruct (Nat.lt_ge_cases i e); [apply Hbefore | apply Hmin]; lia.
    + apply no_slash_in_range; [intros c; left; reflexivity | lia | lia].
  - injection H as <-. exists start. split; [ | exact F2].
    apply find_spec in F1. destruct F1 as (Hge & Hocc & Hmin).
    apply find_first; [lia | exact Hocc | | discriminate].
    intros i _ Hi.
    destruct (Nat.lt_ge_cases i e); [apply Hbefore | apply Hmin]; lia.
Qed.

(** ** Blanks before a newline *)

Lemma blank_words k g n : Matches (Star g (Group n (Chr sp))) (repeat sp k).
Proof.
  induction k as [ | k IH]; simpl; [constructor | ].
  change (sp :: repeat sp k) with ([sp] ++ repeat sp k).
  constructor; [constructor; constructor | exact IH].
Qed.

Lemma match_at_trailing_complete k x :
  match_at trailing_ws_regex (repeat sp k ++ nl :: x) <> None.
Proof.
  change (repeat sp k ++ nl :: x) with (repeat sp k ++ [nl] ++ x).
  rewrite app_assoc. apply match_at_complete.
  unfold trailing_ws_regex. constructor; [apply blank_words | constructor].
Qed.

Lemma match_at_trailing_shape s :
  match_at trailing_ws_regex s <> None ->
  exists k x, s = repeat sp k ++ nl :: x.
Proof.
  intros H. destruct (match_at trailing_ws_regex s) as [[s1 c1] | ] eqn:E;
    [ | congruence].
  apply match_at_sound in E. destruct E as (w & -> & M).
  apply trailing_ws_words in M. destruct M as [k ->].
  exists k, s1. rewrite <- app_assoc. reflexivity.
Qed.

Lemma blanks_then_newline p2 :
  forall k z x,
    p2 ++ nl :: z = repeat sp k ++ nl :: x ->
    (exists k', p2 = repeat sp k') \/ (exists rest, p2 = repeat sp k ++ nl :: rest).
Proof.
  induction p2 as [ | c p2 IH]; intros k z x E.
  - left. exists 0. reflexivity.
  - destruct k as [ | k]; simpl in E.
    + injection E as -> _. right. exists p2. reflexivity.
    + injection E as -> E. destruct (IH _ _ _ E) as [[k' ->] | [rest ->]].
      * left. exists (S k'). reflexivity.
      * right. exists rest. reflexivity.
Qed.

(** Where no match of the trailing blanks pattern starts before a newline,
    none starts before another newline put in its place. *)
Lemma match_at_trailing_moved p2 k0 suf z :
  match_at trailing_ws_regex (p2 ++ repeat sp k0 ++ nl :: suf) = None ->
  match_at trailing_ws_regex (p2 ++ nl :: z) = None.
Proof.
  intros H.
  destruct (match_at trailing_ws_regex (p2 ++ nl :: z)) as [r | ] eqn:E;
    [ | reflexivity].
  exfalso.
  assert (Hs : match_at trailing_ws_regex (p2 ++ nl :: z) <> None)
    by congruence.
  apply match_at_trailing_shape in Hs. destruct Hs as (k & x & Hs).
  destruct (blanks_then_newline _ _ _ _ Hs) as [[k' ->] | [rest ->]].
  - rewrite app_assoc, <- repeat_app in H.
    exact (match_at_trailing_complete _ _ H).
  - rewrite <- app_assoc in H. cbn [app] in H.
    exact (match_at_trailing_complete _ _ H).
Qed.

Lemma match_at_trailing_newline x :
  match_at trailing_ws_regex (nl :: x) = Some (x, []).
Proof. reflexivity. Qed.

(** The text without its trailing blanks is left as it is by the step that
    removes them. *)
Lemma strip_trailing_fixed :
  forall n b out,
    length b < n ->
    regex_replace b trailing_ws_regex [nl] = Some out ->
    regex_replace out trailing_ws_regex [nl] = Some out.
Proof.
  induction n as [ | n IH]; intros b out Hlen H; [lia | ].
  pose proof H as H0.
  rewrite regex_replace_eq in H by reflexivity.
  destruct (regex_search trailing_ws_regex b) as [m | ] eqn:E;
    [ | injection H as <-; exact H0].
  clear H0.
  destruct (regex_replace (sm_suffix m) trailing_ws_regex [nl])
    as [out' | ] eqn:E'; [ | discriminate].
  pose proof (@regex_search_shorter trailing_ws_regex b m eq_refl E) as Hs.
  apply search_from_some in E. destruct E as (p & Hp & Hsplit & M & _ & Hleft).
  simpl in Hp.
  assert (Hout : out = p ++ nl :: out').
  { rewrite <- Hp. injection H as <-. reflexivity. }
  subst out. clear H.
  apply trailing_ws_words in M. destruct M as [k Hk].
  rewrite Hk in Hleft.
  rewrite regex_replace_skip; [ | reflexivity | ].
  - rewrite (@regex_replace_at_start trailing_ws_regex [nl] (nl :: out') out'
               [] eq_refl (match_at_trailing_newline out')).
    rewrite (IH (sm_suffix m) out') by (lia || exact E'). reflexivity.
  - intros p1 p2 Ep Hne.
    apply (@match_at_trailing_moved p2 k (sm_suffix m) out').
    rewrite <- (Hleft p1 p2 Ep Hne). rewrite <- app_assoc. reflexivity.
Qed.

(** Behind the step that removes the trailing blanks, no blank stands
    before a newline. *)
Lemma strip_trailing_clean :
  forall n b out,
    length b < n ->
    regex_replace b trailing_ws_regex [nl] = Some out ->
    contains out [sp; nl] = false.
Proof.
  induction n as [ | n IH]; intros b out Hlen H; [lia | ].
  rewrite regex_replace_eq in H by reflexivity.
  destruct (regex_search trailing_ws_regex b) as [m | ] eqn:E.
  - destruct (regex_replace (sm_suffix m) trailing_ws_regex [nl])
      as [out' | ] eqn:E'; [ | discriminate].
    pose proof (@regex_search_shorter trailing_ws_regex b m eq_refl E) as Hs.
    apply search_from_some in E.
    destruct E as (p & Hp & Hsplit & M & _ & Hleft).
    simpl in Hp.
    assert (Hout : out = p ++ nl :: out').
    { rewrite <- Hp. injection H as <-. reflexivity. }
    subst out. clear H.
    apply trailing_ws_words in M. destruct M as [k Hk].
    rewrite Hk in Hleft.
    pose proof (IH (sm_suffix m) out' ltac:(lia) E') as Hout'.
    apply contains_false_intro. intros q1 q2 Eq.
    apply app_eq_app in Eq. destruct Eq as [l [[-> Hl] | [-> Hl]]].
    + destruct l as [ | c l].
      * simpl in Hl. subst q2. reflexivity.
      * rewrite Hl.
        destruct (starts_with [sp; nl] ((c :: l) ++ nl :: out')) eqn:Es;
          [ | reflexivity].
        exfalso.
        assert (Hm : match_at trailing_ws_regex ((c :: l) ++ nl :: out') <> None).
        { apply starts_with_app in Es. destruct Es as [r Er]. rewrite Er.
          exact (match_at_trailing_complete 1 r). }
        apply Hm. apply (@match_at_trailing_moved (c :: l) k (sm_suffix m) out').
        rewrite <- (Hleft q1 (c :: l) eq_refl ltac:(discriminate)).
        rewrite <- app_assoc. reflexivity.
    + destruct l as [ | c l].
      * simpl in Hl. subst q2. reflexivity.
      * simpl in Hl. injection Hl as _ Hl.
        exact (@contains_false out' [sp; nl] l q2 Hout' Hl).
  - injection H as <-. apply contains_false_intro. intros q1 q2 Eq.
    destruct (starts_with [sp; nl] q2) eqn:Es; [ | reflexivity].
    exfalso. apply starts_with_app in Es. destruct Es as [r ->].
    apply (match_at_trailing_complete 1 r).
    apply (@search_from_none trailing_ws_regex b [] E q1 _ Eq).
Qed.

(** ** The three ways out of [remove_comments] *)

Lemma remove_comments_ways W (report_error : ReportErrorF W) s w :
  exists b,
    Blanked s b /\
    ((exists out,
        remove_comments report_error s w = Some (out, w) /\
        regex_replace b trailing_ws_regex [nl] = Some out /\
        contains b (L "/*") = false /\ contains b (L "//") = false)
     \/
     (remove_comments report_error s w =
        Some (b, report_error s empty_smatch malformed_block_msg w) /\
      unclosed_block b)
     \/
     (remove_comments report_error s w =
        Some (b, report_error s empty_smatch malformed_line_msg w) /\
      contains b (L "/*") = false /\ unclosed_line b)).
Proof.
  unfold remove_comments.
  destruct (@block_comments_total (S (length s)) s 0 ltac:(lia) ltac:(lia))
    as (o1 & e1 & E1).
  rewrite E1.
  pose proof (block_comments_blanked _ _ _ E1) as B1.
  destruct e1 as [e1 | ].
  - pose proof (@block_comments_no_opener _ _ _ _ _ E1 ltac:(intros; lia))
      as N1.
    destruct (@line_comments_total (S (length o1)) o1 0 ltac:(lia) ltac:(lia))
      as (o2 & e2 & E2).
    rewrite E2.
    pose proof (line_comments_blanked _ _ _ E2) as B2.
    assert (N1' : contains o2 (L "/*") = false).
    { apply (@contains_blanked o1 o2 _ B2);
        [vm_compute; intuition discriminate | ].
      apply occurs_nowhere_intro. exact N1. }
    exists o2. split; [exact (Blanked_trans B1 B2) | ].
    destruct e2 as [e2 | ].
    + pose proof (@line_comments_no_opener _ _ _ _ _ E2 ltac:(intros; lia))
        as N2. apply occurs_nowhere_intro in N2.
      destruct (@regex_replace_total trailing_ws_regex eq_refl [nl] o2)
        as [o3 E3].
      rewrite E3. left. exists o3. auto.
    + right. right. split; [reflexivity | ]. split; [exact N1' | ].
      apply (@line_comments_broken _ _ _ _ E2). intros; lia.
  - exists o1. split; [exact B1 | ]. right. left. split; [reflexivity | ].
    apply (@block_comments_broken _ _ _ _ E1). intros; lia.
Qed.

(** X8: [remove_comments] ends in one of three ways.  Without a report, the
    text returned holds no comment opener, neither [/*] nor [//], and no
    blank before a newline.  With the report of a malformed multi-line
    comment, the text returned is the input with characters blanked, of the
    same length, and its first [/*] is not closed.  With the report of a
    malformed single-line comment, the text returned is the input with
    characters blanked, holds no [/*], and its first [//] has no newline
    behind it.  A report passes the input text and an empty match. *)
Theorem remove_comments_outcomes :
  forall (W : Type) (report_error : ReportErrorF W) (s : str) (w : W),
  exists out,
    (remove_comments report_error s w = Some (out, w) /\
     contains out (L "/*") = false /\
     contains out (L "//") = false /\
     contains out [sp; nl] = false)
    \/
    (remove_comments report_error s w =
       Some (out, report_error s empty_smatch malformed_block_msg w) /\
     Blanked s out /\ length out = length s /\ unclosed_block out)
    \/
    (remove_comments report_error s w =
       Some (out, report_error s empty_smatch malformed_line_msg w) /\
     Blanked s out /\ length out = length s /\
     contains out (L "/*") = false /\ unclosed_line out).
Proof.
  intros W report_error s w.
  destruct (remove_comments_ways report_error s w)
    as (b & HB & [(out & H & E3 & N1 & N2) | [(H & U) | (H & N1 & U)]]).
  - exists out. left. split; [exact H | ]. split; [ | split].
    + apply (@contains_strip (L "/*") ltac:(discriminate)
               ltac:(vm_compute; intuition discriminate)
               (S (length b)) b out); auto.
    + apply (@contains_strip (L "//") ltac:(discriminate)
               ltac:(vm_compute; intuition discriminate)
               (S (length b)) b out); auto.
    + apply (@strip_trailing_clean (S (length b)) b out); auto.
  - exists b. right. left. auto using Blanked_length.
  - exists b. right. right. auto using Blanked_length.
Qed.

(** ** Texts that [remove_comments] returns as they are *)

Lemma block_comments_nothing t :
  contains t (L "/*") = false ->
  block_comments (S (length t)) t 0 = Some (t, Some 0).
Proof.
  intros H. rewrite block_comments_S.
  rewrite (@find_none_from t (L "/*") 0); [reflexivity | ].
  intros j _. apply occurs_nowhere. exact H.
Qed.

Lemma line_comments_nothing t :
  contains t (L "//") = false ->
  line_comments (S (length t)) t 0 = Some (t, Some 0).
Proof.
  intros H. rewrite line_comments_S.
  rewrite (@find_none_from t (L "//") 0); [reflexivity | ].
  intros j _. apply occurs_nowhere. exact H.
Qed.

(** Where no blank stands before a newline, the step that removes the
    trailing blanks changes nothing. *)
Lemma strip_trailing_nothing :
  forall n b,
    length b < n ->
    contains b [sp; nl] = false ->
    regex_replace b trailing_ws_regex [nl] = Some b.
Proof.
  induction n as [ | n IH]; intros b Hlen Hb; [lia | ].
  rewrite regex_replace_eq by reflexivity.
  destruct (regex_search trailing_ws_regex b) as [m | ] eqn:E;
    [ | reflexivity].
  pose proof (@regex_search_shorter trailing_ws_regex b m eq_refl E) as Hs.
  apply search_from_some in E. destruct E as (p & Hp & Hsplit & M & _).
  simpl in Hp.
  apply trailing_ws_words in M. destruct M as [k Hk].
  assert (Hsuf : contains (sm_suffix m) [sp; nl] = false).
  { apply contains_false_intro. intros q1 q2 Eq.
    apply (@contains_false b [sp; nl] (p ++ sm_str m ++ q1) q2 Hb).
    rewrite Hsplit, Eq, <- !app_assoc. reflexivity. }
  rewrite (IH (sm_suffix m)) by (lia || exact Hsuf).
  destruct k as [ | k].
  - rewrite Hp. rewrite Hsplit at 1. rewrite Hk. reflexivity.
  - exfalso.
    assert (Hocc : starts_with [sp; nl] ([sp; nl] ++ sm_suffix m) = true)
      by reflexivity.
    rewrite (@contains_false b [sp; nl] (p ++ repeat sp k)
               ([sp; nl] ++ sm_suffix m) Hb) in Hocc; [discriminate | ].
    rewrite Hsplit, Hk. replace (S k) with (k + 1) by lia.
    rewrite repeat_app, <- !app_assoc. reflexivity.
Qed.

Lemma remove_comments_unclosed W (report_error : ReportErrorF W) s w :
  unclosed_block s ->
  remove_comments report_error s w =
  Some (s, report_error s empty_smatch malformed_block_msg w).
Proof.
  intros (start & F1 & F2). unfold remove_comments.
  rewrite block_comments_S, F1, F2. reflexivity.
Qed.

Lemma unclosed_block_intro s :
  contains s (L "/*") = true -> contains s (L "*/") = false ->
  unclosed_block s.
Proof.
  intros Hopen Hclose. unfold contains in Hopen.
  destruct (find s (L "/*") 0) as [start | ] eqn:F; [ | discriminate].
  exists start. split; [exact F | ].
  apply find_none_from. intros j _. apply occurs_nowhere. exact Hclose.
Qed.

(** X9: a text that holds [/*] and nowhere [*/] is reported as a malformed
    multi-line comment, once, with the text and an empty match, and is
    returned as it is: nothing is blanked, and the trailing blanks stay. *)
Theorem unclosed_block_reported :
  forall (W : Type) (report_error : ReportErrorF W) (s : str) (w : W),
    contains s (L "/*") = true ->
    contains s (L "*/") = false ->
    remove_comments report_error s w =
    Some (s, report_error s empty_smatch malformed_block_msg w).
Proof.
  intros W report_error s w Hopen Hclose.
  apply remove_comments_unclosed, unclosed_block_intro; assumption.
Qed.

Lemma unclosed_block_reported_witness :
  remove_comments record_error (L "a /* b ") [] =
  Some (L "a /* b ",
        [{| d_text := L "a /* b "; d_match := empty_smatch;
            d_msg := malformed_block_msg |}]).
Proof.
  apply (@unclosed_block_reported _ record_error (L "a /* b ") []);
    reflexivity.
Defined.

(** X10: a text without comment opener, neither [/*] nor [//], and without
    blank before a newline is returned as it is, and nothing is
    reported. *)
Theorem plain_text_untouched :
  forall (W : Type) (report_error : ReportErrorF W) (s : str) (w : W),
    contains s (L "/*") = false ->
    contains s (L "//") = false ->
    contains s [sp; nl] = false ->
    remove_comments report_error s w = Some (s, w).
Proof.
  intros W report_error s w H1 H2 H3. unfold remove_comments.
  rewrite (block_comments_nothing _ H1), (line_comments_nothing _ H2).
  rewrite (@strip_trailing_nothing (S (length s)) s) by (lia || exact H3).
  reflexivity.
Qed.

Lemma plain_text_untouched_witness :
  remove_comments record_error (L "a = b / c * d;" ++ [nl]) [] =
  Some (L "a = b / c * d;" ++ [nl], []).
Proof.
  apply (@plain_text_untouched _ record_error (L "a = b / c * d;" ++ [nl]) []);
    reflexivity.
Defined.

(** X11: the text that [remove_comments] returns is a fixed point of
    [remove_comments].  When the first run reports nothing, the second
    reports nothing; when the first run reports a malformed comment, the
    second reports the same kind of comment, now with the text of the first
    run. *)
Theorem remove_comments_idempotent :
  forall (W : Type) (report_error : ReportErrorF W) (s : str) (w : W),
  exists out w1,
    remove_comments report_error s w = Some (out, w1) /\
    ((w1 = w /\ remove_comments report_error out w1 = Some (out, w1))
     \/
     exists msg,
       w1 = report_error s empty_smatch msg w /\
       remove_comments report_error out w1 =
       Some (out, report_error out empty_smatch msg w1)).
Proof.
  intros W report_error s w.
  destruct (remove_comments_ways report_error s w)
    as (b & HB & [(out & H & E3 & N1 & N2) | [(H & U) | (H & N1 & U)]]).
  - exists out, w. split; [exact H | ]. left. split; [reflexivity | ].
    unfold remove_comments.
    rewrite block_comments_nothing, line_comments_nothing.
    + rewrite (@strip_trailing_fixed (S (length b)) b out) by (lia || exact E3).
      reflexivity.
    + apply (@contains_strip (L "//") ltac:(discriminate)
               ltac:(vm_compute; intuition discriminate)
               (S (length b)) b out); auto.
    + apply (@contains_strip (L "/*") ltac:(discriminate)
               ltac:(vm_compute; intuition discriminate)
               (S (length b)) b out); auto.
  - eexists b, _. split; [exact H | ]. right. exists malformed_block_msg.
    split; [reflexivity | ]. unfold remove_comments.
    destruct U as (start & F1 & F2).
    rewrite block_comments_S, F1, F2. reflexivity.
  - eexists b, _. split; [exact H | ]. right. exists malformed_line_msg.
    split; [reflexivity | ]. unfold remove_comments.
    rewrite (block_comments_nothing _ N1).
    destruct U as (start & F1 & F2).
    rewrite line_comments_S, F1, F2. reflexivity.
Qed.

(** ** A comment on the last line *)

Lemma skipn_for_range f a b (s : str) j :
  b <= j -> skipn j (for_range f a b 0 s) = skipn j s.
Proof.
  intros Hb. apply nth_error_ext. intros i.
  rewrite !nth_error_skipn, nth_error_for_range.
  replace ((a <=? 0 + (j + i)) && (0 + (j + i) <? b)) with false
    by (symmetry; apply andb_false_iff; right; apply Nat.ltb_ge; lia).
  destruct (nth_error s (j + i)); reflexivity.
Qed.

(** The loop over single-line comments breaks when a [//] at or behind
    [end] has no newline behind it, and leaves the text from there on as it
    is. *)
Lemma line_comments_last_line fuel :
  forall s e j,
    length s < fuel + e -> e <= j ->
    starts_with (L "//") (skipn j s) = true ->
    find s [nl] (j + 2) = None ->
    exists out,
      line_comments fuel s e = Some (out, None) /\ skipn j out = skipn j s.
Proof.
  induction fuel as [ | fuel IH]; intros s e j Hlen Hj Hocc Hnl.
  - rewrite skipn_all2 in Hocc by (simpl in Hlen; lia). discriminate.
  - rewrite line_comments_S.
    destruct (find s (L "//") e) as [start | ] eqn:F1.
    + pose proof (find_spec _ _ _ F1) as (Hs1 & _ & Hmin).
      assert (Hsj : start <= j).
      { destruct (Nat.le_gt_cases start j) as [H | H]; [exact H | ].
        rewrite (Hmin j Hj H) in Hocc. discriminate. }
      destruct (find s [nl] (start + 2)) as [e1 | ] eqn:F2;
        [ | exists s; split; reflexivity].
      pose proof (find_spec _ _ _ F2) as (He1 & Hnl1 & _).
      assert (He1j : e1 < j).
      { destruct (Nat.lt_ge_cases e1 j) as [H | H]; [exact H | exfalso].
        pose proof (@find_none_after s [nl] (j + 2) ltac:(discriminate) Hnl)
          as Hno.
        apply starts_with_app in Hocc. destruct Hocc as [rest Hocc].
        destruct (Nat.eq_dec e1 j) as [-> | N1].
        { rewrite Hocc in Hnl1. discriminate. }
        destruct (Nat.eq_dec e1 (1 + j)) as [-> | N2].
        { rewrite <- skipn_skipn, Hocc in Hnl1. discriminate. }
        rewrite Hno in Hnl1 by lia. discriminate. }
      pose proof (Blanked_length (@line_step_blanked s e start e1 F1 F2))
        as Hl.
      destruct (IH (for_range blank start e1 0 s) e1 j) as (out & E & Hout).
      * lia.
      * lia.
      * rewrite skipn_for_range by lia. exact Hocc.
      * apply find_none_from. intros i Hi.
        rewrite skipn_for_range by lia.
        apply (@find_none_after s [nl] (j + 2) ltac:(discriminate) Hnl). lia.
      * exists out. split; [exact E | ].
        rewrite Hout. apply skipn_for_range. lia.
    + rewrite (@find_none_after s (L "//") e ltac:(discriminate) F1 j Hj)
        in Hocc. discriminate.
Qed.

(** X12: a text without [/*] whose last line holds [//], that is, with no
    newline behind that [//], is reported as a malformed single-line
    comment.  The text returned keeps that [//] and what follows it; before
    it, characters are blanked, and no blank is removed. *)
Theorem comment_on_last_line :
  forall (W : Type) (report_error : ReportErrorF W) (pre rest : str) (w : W),
    contains (pre ++ L "//" ++ rest) (L "/*") = false ->
    contains rest [nl] = false ->
    exists pre',
      remove_comments report_error (pre ++ L "//" ++ rest) w =
      Some (pre' ++ L "//" ++ rest,
            report_error (pre ++ L "//" ++ rest) empty_smatch
              malformed_line_msg w) /\
      Blanked pre pre'.
Proof.
  intros W report_error pre rest w Hblock Hnl.
  set (s := pre ++ L "//" ++ rest) in *.
  assert (Hskip : skipn (length pre) s = L "//" ++ rest)
    by apply skipn_length_app.
  destruct (@line_comments_last_line (S (length s)) s 0 (length pre))
    as (out & E & Hout).
  - lia.
  - lia.
  - rewrite Hskip. reflexivity.
  - apply find_none_from. intros i Hi.
    replace i with ((i - length pre - 2) + (2 + length pre)) by lia.
    rewrite <- skipn_skipn, <- (skipn_skipn 2), Hskip.
    apply occurs_nowhere. exact Hnl.
  - pose proof (line_comments_blanked _ _ _ E) as HB.
    unfold Blanked, s in HB. apply Forall2_app_inv_l in HB.
    destruct HB as (pre' & tl & HB1 & HB2 & Eout).
    exists pre'. split; [ | exact HB1].
    assert (Htl : tl = L "//" ++ rest).
    { rewrite <- Hskip, <- Hout, Eout.
      rewrite (Forall2_length HB1). symmetry. apply skipn_length_app. }
    unfold remove_comments.
    rewrite (block_comments_nothing _ Hblock), E, Eout, Htl. reflexivity.
Qed.

Lemma comment_on_last_line_witness :
  exists pre',
    remove_comments record_error
      ((L "x; // one" ++ nl :: L "y; ") ++ L "//" ++ L " two") [] =
    Some (pre' ++ L "//" ++ L " two",
          [{| d_text := (L "x; // one" ++ nl :: L "y; ") ++ L "//" ++ L " two";
              d_match := empty_smatch;
              d_msg := malformed_line_msg |}]) /\
    Blanked (L "x; // one" ++ nl :: L "y; ") pre'.
Proof.
  apply (@comment_on_last_line _ record_error
           (L "x; // one" ++ nl :: L "y; ") (L " two") []); reflexivity.
Defined.

(** ** What the groups capture *)

(** The matcher hands to its continuation, with what is left of the text,
    captures that hold words of the groups, and in which every group that
    stands under no alternative and no quantifier is set. *)
Lemma rmatch_captures (P : nat -> str -> Prop) (r : regex) :
  captures_words P r ->
  forall (R : Type) s caps (k : str -> captures -> option R) res,
    rmatch r s caps k = Some res ->
    exists w s' caps',
      s = w ++ s' /\ Matches r w /\ k s' caps' = Some res /\
      (captures_ok P caps -> captures_ok P caps') /\
      (forall m, In m (always_set r) \/ In m (map fst caps) ->
                 In m (map fst caps')).
Proof.
  induction r as [ | c | p | r1 IH1 r2 IH2 | r1 IH1 r2 IH2 | g r IH | n r IH];
    intros HP R s caps k res H; simpl in H, HP.
  - exists [], s, caps. simpl. intuition auto.
  - destruct s as [ | a t]; [discriminate | ].
    destruct (Ascii.eqb a c) eqn:E; [ | discriminate].
    apply Ascii.eqb_eq in E. subst a. exists [c], t, caps.
    simpl. intuition auto.
  - destruct s as [ | a t]; [discriminate | ].
    destruct (p a) eqn:E; [ | discriminate].
    exists [a], t, caps. simpl. intuition auto.
  - destruct HP as [HP1 HP2].
    apply (IH1 HP1) in H.
    destruct H as (w1 & s1 & c1 & -> & M1 & H & F1 & B1).
    apply (IH2 HP2) in H.
    destruct H as (w2 & s2 & c2 & -> & M2 & H & F2 & B2).
    exists (w1 ++ w2), s2, c2. rewrite <- app_assoc.
    repeat match goal with |- _ /\ _ => split end; auto.
    intros m [Hm | Hm]; simpl in Hm.
    + apply in_app_or in Hm. destruct Hm as [Hm | Hm].
      * apply B2. right. apply B1. left. exact Hm.
      * apply B2. left. exact Hm.
    + apply B2. right. apply B1. right. exact Hm.
  - destruct HP as [HP1 HP2].
    destruct (rmatch r1 s caps k) as [x | ] eqn:E.
    + inversion H; subst x. apply (IH1 HP1) in E.
      destruct E as (w & s' & c' & -> & M & E & F & B).
      exists w, s', c'.
      repeat match goal with |- _ /\ _ => split end; auto.
      intros m [[] | Hm]. auto.
    + apply (IH2 HP2) in H.
      destruct H as (w & s' & c' & -> & M & H & F & B).
      exists w, s', c'.
      repeat match goal with |- _ /\ _ => split end; auto.
      intros m [[] | Hm]. auto.
  - remember (length s) as n eqn:Hn. clear Hn. revert s caps H.
    induction n as [ | n IHn]; intros s caps H; simpl in H.
    + exists [], s, caps. simpl. intuition auto.
    + assert (Hk : k s caps = Some res ->
                   exists w s' caps',
                     s = w ++ s' /\ Matches (Star g r) w /\
                     k s' caps' = Some res /\
                     (captures_ok P caps -> captures_ok P caps') /\
                     (forall m, In m (always_set (Star g r)) \/
                                In m (map fst caps) -> In m (map fst caps'))).
      { intros Hk. exists [], s, caps. simpl. intuition auto. }
      assert (Hs : rmatch r s caps
                     (fun s1 c1 =>
                        if length s1 <? length s
                        then star_loop (rmatch r) g k n s1 c1 else None)
                   = Some res ->
                   exists w s' caps',
                     s = w ++ s' /\ Matches (Star g r) w /\
                     k s' caps' = Some res /\
                     (captures_ok P caps -> captures_ok P caps') /\
                     (forall m, In m (always_set (Star g r)) \/
                                In m (map fst caps) -> In m (map fst caps'))).
      { intros Hs. apply (IH HP) in Hs.
        destruct Hs as (w1 & s1 & c1 & -> & M1 & Hs & F1 & B1).
        destruct (length s1 <? length (w1 ++ s1)); [ | discriminate].
        apply IHn in Hs.
        destruct Hs as (w2 & s2 & c2 & -> & M2 & Hs & F2 & B2).
        exists (w1 ++ w2), s2, c2. rewrite <- app_assoc.
        repeat match goal with |- _ /\ _ => split end; auto.
        intros m [[] | Hm]. auto. }
      destruct g.
      * destruct (rmatch r s caps _) as [x | ] eqn:E; [ | auto].
        inversion H; subst x. auto.
      * destruct (k s caps) as [x | ] eqn:E; [ | auto].
        inversion H; subst x. auto.
  - destruct HP as [HPn HP].
    apply (IH HP) in H. destruct H as (w & s' & c' & -> & M & H & F & B).
    rewrite firstn_consumed in H.
    exists w, s', ((n, w) :: c').
    repeat match goal with |- _ /\ _ => split end; auto.
    + intros Hc. constructor; [apply HPn; exact M | exact (F Hc)].
    + intros m [[<- | Hm] | Hm]; simpl; auto.
Qed.

Lemma capture_ok (P : nat -> str -> Prop) n caps :
  captures_ok P caps -> In n (map fst caps) -> P n (capture n caps).
Proof.
  induction 1 as [ | [i v] caps Hx _ IH]; intros Hin; [contradiction | ].
  simpl. destruct (i =? n) eqn:E.
  - apply Nat.eqb_eq in E. subst i. exact Hx.
  - apply Nat.eqb_neq in E. destruct Hin as [Hin | Hin]; [contradiction | auto].
Qed.

Lemma star_cls_words g p w :
  Matches (Star g (Cls p)) w -> forallb p w = true.
Proof.
  intros M. remember (Star g (Cls p)) as r eqn:Er.
  induction M; try discriminate; [reflexivity | ].
  injection Er as -> ->. inversion M1; subst. simpl.
  rewrite IHM2 by reflexivity. rewrite H0. reflexivity.
Qed.

Lemma plus_cls_words p w :
  Matches (Plus (Cls p)) w -> w <> [] /\ forallb p w = true.
Proof.
  unfold Plus. intros M. inversion M as [ | | | r1 r2 w1 w2 M1 M2 | | | | | ];
    subst.
  inversion M1; subst. apply star_cls_words in M2. simpl.
  split; [discriminate | ]. rewrite M2. rewrite H0. reflexivity.
Qed.

Lemma shared_regex_groups : captures_words shared_groups shared_regex.
Proof.
  assert (Hlit : forall l, captures_words shared_groups (Lit l))
    by (induction l; simpl; auto).
  unfold shared_regex. cbn [captures_words Plus ws word none_of].
  repeat match goal with |- _ /\ _ => split end; auto.
  - intros v M. apply plus_cls_words in M. exact M.
  - intros v M. apply plus_cls_words in M. exact M.
  - intros v M. apply star_cls_words in M. simpl. intros Hin.
    rewrite forallb_forall in M. apply M in Hin. discriminate.
Qed.

(** What a match of the pattern of [threadgroup_variable_parsing] gives to
    its three groups. *)
Lemma match_at_shared_captures s s1 c1 :
  match_at shared_regex s = Some (s1, c1) ->
  word_chars (capture 1 c1) /\ word_chars (capture 2 c1) /\
  ~ In ";"%char (capture 3 c1).
Proof.
  unfold match_at. intros H.
  apply (@rmatch_captures shared_groups shared_regex shared_regex_groups) in H.
  destruct H as (w & s' & c' & _ & _ & H & F & B).
  injection H as _ <-.
  pose proof (F (Forall_nil _)) as Hok.
  assert (Hset : forall m, In m [1; 2; 3] -> In m (map fst c')).
  { intros m Hm. apply B. left.
    assert (Hlit : forall l, always_set (Lit l) = [])
      by (induction l; simpl; auto).
    unfold shared_regex. cbn [always_set Plus ws word none_of app].
    rewrite Hlit. exact Hm. }
  repeat split.
  - apply (@capture_ok shared_groups 1 c' Hok). apply Hset. simpl. auto.
  - apply (@capture_ok shared_groups 1 c' Hok). apply Hset. simpl. auto.
  - apply (@capture_ok shared_groups 2 c' Hok). apply Hset. simpl. auto.
  - apply (@capture_ok shared_groups 2 c' Hok). apply Hset. simpl. auto.
  - apply (@capture_ok shared_groups 3 c' Hok). apply Hset. simpl. auto.
Qed.

Lemma for_each_match_invariant (A : Type) (Inv : A -> Prop) r
    (body : str -> smatch -> A -> A) :
  (forall s m a, regex_search r s = Some m -> Inv a -> Inv (body s m a)) ->
  forall fuel s a a',
    for_each_match fuel r body s a = Some a' -> Inv a -> Inv a'.
Proof.
  intros Hbody. induction fuel as [ | fuel IH]; intros s a a' H Ha;
    [discriminate | ].
  simpl in H. destruct (regex_search r s) as [m | ] eqn:E.
  - apply (IH _ _ _ H). apply Hbody; assumption.
  - injection H as <-. exact Ha.
Qed.

Lemma threadgroup_variable_parsing_ok s self self' :
  threadgroup_variable_parsing s self = Some self' ->
  Forall declaration_ok (shared_vars_ self) ->
  Forall declaration_ok (shared_vars_ self').
Proof.
  unfold threadgroup_variable_parsing. intros H Hself.
  destruct (for_each_match _ _ _ s (shared_vars_ self)) as [vars | ] eqn:E;
    [ | discriminate].
  injection H as <-. cbn [shared_vars_].
  apply (for_each_match_invariant (Forall declaration_ok)) in E;
    [exact E | | exact Hself].
  intros s0 m a Hm Ha. apply Forall_app. split; [exact Ha | ].
  constructor; [ | constructor].
  apply search_from_some in Hm. destruct Hm as (_ & _ & _ & _ & Hm & _).
  apply match_at_shared_captures in Hm. exact Hm.
Qed.

(** X13: the declarations of an instance stay well formed.  When every
    declaration of the instance has a type and a name made of one word
    character or more and an array part without semicolon, [process]
    returns, and the same holds of the declarations of the instance it
    leaves, whatever the text. *)
Theorem shared_vars_well_formed :
  forall (W : Type) (report_error : ReportErrorF W) (s : str)
         (do_linting do_string_mutation do_include_mutation : bool)
         (self : Preprocessor) (w : W),
    Forall declaration_ok (shared_vars_ self) ->
    exists out self' w',
      process report_error s do_linting do_string_mutation do_include_mutation
        self w = Some (out, self', w') /\
      Forall declaration_ok (shared_vars_ self').
Proof.
  intros W report_error s b1 b2 b3 self w Hself.
  destruct (process_total report_error s b1 b2 b3 self w)
    as (out & self' & w' & H).
  exists out, self', w'. split; [exact H | ].
  unfold process in H.
  destruct (remove_comments report_error s w) as [[o1 w1] | ];
    [ | discriminate].
  destruct (threadgroup_variable_parsing o1 self) as [self1 | ] eqn:E;
    [ | discriminate].
  apply threadgroup_variable_parsing_ok in E; [ | exact Hself].
  destruct (matrix_constructor_linting report_error o1 w1) as [w2 | ];
    [ | discriminate].
  destruct (array_constructor_linting report_error o1 w2) as [w3 | ];
    [ | discriminate].
  destruct (preprocessor_directive_mutation o1) as [o2 | ]; [ | discriminate].
  destruct (argument_decorator_macro_injection o2) as [o3 | ];
    [ | discriminate].
  destruct (array_constructor_macro_injection o3) as [o4 | ];
    [ | discriminate].
  injection H as _ <- _. exact E.
Qed.

Lemma shared_vars_well_formed_witness :
  exists out self' w',
    process record_error (L "shared uint n[2];") false false false fresh []
    = Some (out, self', w') /\
    Forall declaration_ok (shared_vars_ self').
Proof.
  apply (@shared_vars_well_formed _ record_error (L "shared uint n[2];")
           false false false fresh []).
  constructor.
Defined.

(** ** After the report of a malformed comment *)

(** X14: the report of a malformed multi-line comment does not stop
    [process].  On a text that holds [/*] and nowhere [*/], the callback is
    called first for the comment, and the passes then run on the text as it
    is, what stands behind the [/*] included: its declarations are
    collected, what the linters find in it is reported behind the first
    report, and the text returned is the mutated input and the suffix. *)
Theorem process_after_malformed_comment :
  forall (s : str)
         (do_linting do_string_mutation do_include_mutation : bool)
         (self : Preprocessor),
    contains s (L "/*") = true ->
    contains s (L "*/") = false ->
    exists vars body log,
      collect s = Some vars /\
      mutate s = Some body /\
      let self' := {| shared_vars_ := shared_vars_ self ++ vars;
                      output_ := output_ self |} in
      process record_error s do_linting do_string_mutation do_include_mutation
        self [] =
      Some (body ++ suffix self', self',
            {| d_text := s; d_match := empty_smatch;
               d_msg := malformed_block_msg |} :: log).
Proof.
  intros s b1 b2 b3 self Hopen Hclose.
  destruct (process_total record_error s b1 b2 b3 self []) as (out & self' & w' & H).
  rewrite process_eq in H. rewrite process_eq.
  rewrite (@remove_comments_unclosed _ record_error s []
             (@unclosed_block_intro s Hopen Hclose)) in *.
  destruct (collect s) as [vars | ]; [ | discriminate].
  unfold matrix_constructor_linting, array_constructor_linting in *.
  rewrite lint_log_from in *.
  destruct (for_each_match _ matrix_regex _ s []) as [l2 | ];
    [ | discriminate].
  cbn [option_map] in *.
  rewrite lint_log_from in *.
  destruct (for_each_match _ array_regex _ s []) as [l3 | ];
    [ | discriminate].
  cbn [option_map] in *.
  destruct (mutate s) as [body | ]; [ | discriminate].
  exists vars, body, (l2 ++ l3). repeat split.
Qed.

Lemma process_after_malformed_comment_witness :
  exists vars body log,
    collect (L "a; /* shared float x;") = Some vars /\
    mutate (L "a; /* shared float x;") = Some body /\
    let self' := {| shared_vars_ := shared_vars_ fresh ++ vars;
                    output_ := output_ fresh |} in
    process record_error (L "a; /* shared float x;") false false false
      fresh [] =
    Some (body ++ suffix self', self',
          {| d_text := L "a; /* shared float x;"; d_match := empty_smatch;
             d_msg := malformed_block_msg |} :: log).
Proof.
  apply (@process_after_malformed_comment (L "a; /* shared float x;")
           false false false fresh); reflexivity.
Defined.

(** ** A comment counts as blanks *)

Lemma for_range_app f a b (l t : str) :
  forall i,
    for_range f a b i (l ++ t) =
    for_range f a b i l ++ for_range f a b (i + length l) t.
Proof.
  induction l as [ | c l IH]; intros i; simpl.
  - rewrite Nat.add_0_r. reflexivity.
  - rewrite IH. replace (S i + length l) with (i + S (length l)) by lia.
    reflexivity.
Qed.

Lemma for_range_outside f a b (l : str) :
  forall i, i + length l <= a \/ b <= i -> for_range f a b i l = l.
Proof.
  induction l as [ | c l IH]; intros i H; simpl; [reflexivity | ].
  simpl in H. rewrite IH by lia.
  replace ((a <=? i) && (i <? b)) with false; [reflexivity | ].
  symmetry. apply andb_false_iff.
  destruct H as [H | H]; [left; apply Nat.leb_gt | right; apply Nat.ltb_ge];
    lia.
Qed.

Lemma for_range_inside f a b (l : str) :
  forall i, a <= i -> i + length l <= b -> for_range f a b i l = map f l.
Proof.
  induction l as [ | c l IH]; intros i H1 H2; simpl; [reflexivity | ].
  simpl in H2. rewrite IH by lia.
  replace ((a <=? i) && (i <? b)) with true; [reflexivity | ].
  symmetry. apply andb_true_iff.
  split; [apply Nat.leb_le | apply Nat.ltb_lt]; lia.
Qed.

(** What one pass of a comment loop writes: the characters from [start] to
    [stop] changed, the others copied. *)
Lemma for_range_middle f (pre mid rest : str) :
  for_range f (length pre) (length pre + length mid) 0 (pre ++ mid ++ rest) =
  pre ++ map f mid ++ rest.
Proof.
  rewrite !for_range_app.
  rewrite for_range_outside by (left; simpl; lia).
  rewrite for_range_inside by (simpl; lia).
  rewrite for_range_outside by (right; simpl; lia).
  reflexivity.
Qed.

(** The search from [pos] is the search from the start when the word does
    not occur before [pos]. *)
Lemma find_skip s pat pos :
  pat <> [] ->
  (forall j, j < pos -> starts_with pat (skipn j s) = false) ->
  find s pat 0 = find s pat pos.
Proof.
  intros Hne H. destruct (find s pat pos) as [j | ] eqn:E.
  - apply find_spec in E. destruct E as (Hj & Hocc & Hmin).
    apply find_first; [lia | exact Hocc | | exact Hne].
    intros i _ Hi. destruct (Nat.lt_ge_cases i pos); [apply H | apply Hmin];
      lia.
  - apply find_none_from. intros j _.
    destruct (Nat.lt_ge_cases j pos); [apply H; lia | ].
    apply (@find_none_after s pat pos Hne E). lia.
Qed.

(** With enough of it, the bound on the number of iterations of the loop
    over multi-line comments does not matter. *)
Lemma block_comments_fuel f1 :
  forall f2 s e,
    1 <= f1 -> 1 <= f2 -> length s < f1 + e -> length s < f2 + e ->
    block_comments f1 s e = block_comments f2 s e.
Proof.
  induction f1 as [ | f1 IH]; intros f2 s e H1 H2 H3 H4; [lia | ].
  destruct f2 as [ | f2]; [lia | ]. rewrite !block_comments_S.
  destruct (find s (L "/*") e) as [start | ] eqn:F1; [ | reflexivity].
  destruct (find s (L "*/") (start + 2)) as [e1 | ] eqn:F2; [ | reflexivity].
  pose proof (@find_bound s (L "/*") e start ltac:(discriminate) F1) as [B1 _].
  pose proof (@find_bound s (L "*/") (start + 2) e1 ltac:(discriminate) F2)
    as [B2 B3].
  change (length (L "*/")) with 2 in B3.
  pose proof (Blanked_length
                (for_range_blank_but_newline start (e1 + 2) s 0)) as Hl.
  apply IH; lia.
Qed.

(** The first multi-line comment of a text, closed: the loop goes on as it
    starts on the text in which blanks stand for the comment. *)
Lemma block_comments_first pre body rest :
  contains pre (L "/*") = false ->
  contains body (L "*/") = false ->
  let s := pre ++ L "/*" ++ body ++ L "*/" ++ rest in
  let s2 := pre ++ L "  " ++ map blank_but_newline body ++ L "  " ++ rest in
  exists e0,
    block_comments (S (length s)) s 0 = block_comments (S (length s2)) s2 0
    \/
    (block_comments (S (length s)) s 0 = Some (s2, Some e0) /\
     block_comments (S (length s2)) s2 0 = Some (s2, Some 0)).
Proof.
  intros Hpre Hbody s s2.
  set (e0 := length pre + 2 + length body).
  assert (Hlen : length s = length pre + length body + length rest + 4).
  { unfold s. rewrite !length_app. change (length (L "/*")) with 2.
    change (length (L "*/")) with 2. lia. }
  assert (Hlen2 : length s2 = length s).
  { rewrite Hlen. unfold s2. rewrite !length_app, length_map.
    change (length (L "  ")) with 2. lia. }
  assert (F1 : find s (L "/*") 0 = Some (length pre)).
  { apply find_first; [lia | | | discriminate].
    - unfold s. rewrite skipn_length_app. reflexivity.
    - intros i _ Hi. unfold s. rewrite skipn_app.
      replace (i - length pre) with 0 by lia.
      apply (@no_straddle pre (L "/*") "/"%char
               ("*"%char :: body ++ L "*/" ++ rest)
               (firstn i pre) (skipn i pre) Hpre).
      + vm_compute. intuition discriminate.
      + symmetry. apply firstn_skipn.
      + intros E. apply (f_equal (@length ascii)) in E.
        rewrite length_skipn in E. simpl in E. lia. }
  assert (Hskip : forall d,
             skipn (length pre + 2 + d) s = skipn d (body ++ L "*/" ++ rest)).
  { intros d. unfold s.
    replace (length pre + 2 + d) with (d + (2 + length pre)) by lia.
    rewrite <- skipn_skipn, <- (skipn_skipn 2), skipn_length_app.
    reflexivity. }
  assert (F2 : find s (L "*/") (length pre + 2) = Some e0).
  { apply find_first; [unfold e0; lia | | | discriminate].
    - unfold e0. rewrite Hskip, skipn_length_app. reflexivity.
    - intros i Hi1 Hi2. unfold e0 in Hi2.
      replace i with (length pre + 2 + (i - length pre - 2)) by lia.
      rewrite Hskip, skipn_app.
      replace (i - length pre - 2 - length body) with 0 by lia.
      apply (@no_straddle body (L "*/") "*"%char ("/"%char :: rest)
               (firstn (i - length pre - 2) body)
               (skipn (i - length pre - 2) body) Hbody).
      + vm_compute. intuition discriminate.
      + symmetry. apply firstn_skipn.
      + intros E. apply (f_equal (@length ascii)) in E.
        rewrite length_skipn in E. simpl in E. lia. }
  assert (Hwrite : for_range blank_but_newline (length pre) (e0 + 2) 0 s = s2).
  { unfold s, s2, e0.
    replace (length pre + 2 + length body + 2)
      with (length pre + length (L "/*" ++ body ++ L "*/"))
      by (rewrite !length_app; change (length (L "/*")) with 2;
          change (length (L "*/")) with 2; lia).
    replace (pre ++ L "/*" ++ body ++ L "*/" ++ rest)
      with (pre ++ (L "/*" ++ body ++ L "*/") ++ rest)
      by (rewrite <- !app_assoc; reflexivity).
    rewrite for_range_middle, !map_app, <- !app_assoc. reflexivity. }
  assert (Hnone : forall j, j < e0 ->
                            starts_with (L "/*") (skipn j s2) = false).
  { intros j Hj. destruct (Nat.lt_ge_cases j (length pre)) as [Hlt | Hge].
    - unfold s2. rewrite skipn_app.
      replace (j - length pre) with 0 by lia.
      apply (@no_straddle pre (L "/*") sp
               (sp :: map blank_but_newline body ++ L "  " ++ rest)
               (firstn j pre) (skipn j pre) Hpre).
      + vm_compute. intuition discriminate.
      + symmetry. apply firstn_skipn.
      + intros E. apply (f_equal (@length ascii)) in E.
        rewrite length_skipn in E. simpl in E. lia.
    - rewrite <- Hwrite.
      apply no_slash_in_range; [exact blank_but_newline_cases | lia | lia]. }
  exists e0.
  rewrite (block_comments_S (length s) s 0), F1.
  cbn [Nat.add] in F2 |- *.
  rewrite F2, Hwrite.
  destruct (length s) as [ | n] eqn:En; [lia | ].
  rewrite Hlen2, !block_comments_S.
  rewrite (@find_skip s2 (L "/*") e0 ltac:(discriminate) Hnone).
  destruct (find s2 (L "/*") e0) as [start | ] eqn:G1; [ | right; auto].
  left.
  destruct (find s2 (L "*/") (start + 2)) as [e1 | ] eqn:G2; [ | reflexivity].
  pose proof (@find_bound s2 (L "/*") e0 start ltac:(discriminate) G1)
    as [B1 _].
  pose proof (@find_bound s2 (L "*/") (start + 2) e1 ltac:(discriminate) G2)
    as [B2 B3].
  change (length (L "*/")) with 2 in B3.
  pose proof (Blanked_length
                (for_range_blank_but_newline start (e1 + 2) s2 0)) as Hl.
  apply block_comments_fuel; unfold e0 in *; lia.
Qed.

(** X15: the first multi-line comment of a text counts as blanks.  For a
    comment that is closed, with no [/*] before it, [remove_comments]
    returns the text it returns when the comment, its two delimiters
    included, is written as blanks, the newlines of the comment kept. *)
Theorem block_comment_as_blanks :
  forall (W : Type) (report_error : ReportErrorF W)
         (pre body rest : str) (w : W),
    contains pre (L "/*") = false ->
    contains body (L "*/") = false ->
    exists out,
      option_map fst
        (remove_comments report_error
           (pre ++ L "/*" ++ body ++ L "*/" ++ rest) w) = Some out /\
      option_map fst
        (remove_comments report_error
           (pre ++ L "  " ++ map blank_but_newline body ++ L "  " ++ rest) w)
      = Some out.
Proof.
  intros W report_error pre body rest w Hpre Hbody.
  destruct (@block_comments_first pre body rest Hpre Hbody) as [e0 H].
  cbv zeta in H.
  set (s := pre ++ L "/*" ++ body ++ L "*/" ++ rest) in *.
  set (s2 := pre ++ L "  " ++ map blank_but_newline body ++ L "  " ++ rest)
    in *.
  assert (Hgo : forall o1 (e1 e2 : nat) t1 t2,
             exists out,
               option_map fst
                 (match Some e1 with
                  | None =>
                      Some (o1, report_error t1 empty_smatch
                                  malformed_block_msg w)
                  | Some _ =>
                      '(out_str, end_) <- line_comments (S (length o1)) o1 0;
                      match end_ with
                      | None =>
                          Some (out_str,
                                report_error t1 empty_smatch
                                  malformed_line_msg w)
                      | Some _ =>
                          out <- regex_replace out_str trailing_ws_regex [nl];
                          Some (out, w)
                      end
                  end) = Some out /\
               option_map fst
                 (match Some e2 with
                  | None =>
                      Some (o1, report_error t2 empty_smatch
                                  malformed_block_msg w)
                  | Some _ =>
                      '(out_str, end_) <- line_comments (S (length o1)) o1 0;
                      match end_ with
                      | None =>
                          Some (out_str,
                                report_error t2 empty_smatch
                                  malformed_line_msg w)
                      | Some _ =>
                          out <- regex_replace out_str trailing_ws_regex [nl];
                          Some (out, w)
                      end
                  end) = Some out).
  { intros o1 e1 e2 t1 t2.
    destruct (@line_comments_total (S (length o1)) o1 0 ltac:(lia) ltac:(lia))
      as (o2 & e & ->).
    destruct e as [e | ]; [ | exists o2; split; reflexivity].
    destruct (@regex_replace_total trailing_ws_regex eq_refl [nl] o2)
      as [o3 ->].
    exists o3. split; reflexivity. }
  unfold remove_comments.
  destruct H as [H | [H1 H2]].
  - rewrite H.
    destruct (@block_comments_total (S (length s2)) s2 0 ltac:(lia) ltac:(lia))
      as (o1 & e1 & ->).
    destruct e1 as [e1 | ];
      [exact (Hgo o1 e1 e1 s s2) | exists o1; split; reflexivity].
  - rewrite H1, H2. exact (Hgo s2 e0 0 s s2).
Qed.

Lemma block_comment_as_blanks_witness :
  exists out,
    option_map fst
      (remove_comments record_error
         (L "a; " ++ L "/*" ++ (L "x" ++ nl :: L "y") ++ L "*/" ++ L " b;") [])
    = Some out /\
    option_map fst
      (remove_comments record_error
         (L "a; " ++ L "  " ++ map blank_but_newline (L "x" ++ nl :: L "y")
            ++ L "  " ++ L " b;") [])
    = Some out.
Proof.
  apply (@block_comment_as_blanks _ record_error
           (L "a; ") (L "x" ++ nl :: L "y") (L " b;") []); reflexivity.
Defined.

Lemma line_comments_fuel f1 :
  forall f2 s e,
    1 <= f1 -> 1 <= f2 -> length s < f1 + e -> length s < f2 + e ->
    line_comments f1 s e = line_comments f2 s e.
Proof.
  induction f1 as [ | f1 IH]; intros f2 s e H1 H2 H3 H4; [lia | ].
  destruct f2 as [ | f2]; [lia | ]. rewrite !line_comments_S.
  destruct (find s (L "//") e) as [start | ] eqn:F1; [ | reflexivity].
  destruct (find s [nl] (start + 2)) as [e1 | ] eqn:F2; [ | reflexivity].
  pose proof (@find_bound s (L "//") e start ltac:(discriminate) F1) as [B1 _].
  pose proof (@find_bound s [nl] (start + 2) e1 ltac:(discriminate) F2)
    as [B2 B3].
  change (length [nl]) with 1 in B3.
  pose proof (Blanked_length (@line_step_blanked s e start e1 F1 F2)) as Hl.
  apply IH; lia.
Qed.

Lemma starts_with_long_enough pat :
  forall (a x y : str),
    length pat <= length a ->
    starts_with pat (a ++ x) = starts_with pat (a ++ y).
Proof.
  induction pat as [ | p pat IH]; intros a x y H; [reflexivity | ].
  destruct a as [ | c a]; simpl in H; [lia | ]. simpl.
  rewrite (IH a x y) by lia. reflexivity.
Qed.

Lemma contains_app_l (s t pat : str) :
  contains (s ++ t) pat = false -> contains s pat = false.
Proof.
  intros H. apply contains_false_intro. intros p1 p2 E.
  destruct (starts_with pat p2) eqn:Es; [ | reflexivity].
  apply starts_with_app in Es. destruct Es as [r ->].
  rewrite <- (@contains_false (s ++ t) pat p1 (pat ++ r ++ t) H).
  - symmetry. apply starts_with_self_app.
  - rewrite E, <- !app_assoc. reflexivity.
Qed.

(** The first single-line comment of a text, with its newline: the loop goes
    on as it starts on the text in which blanks stand for the comment. *)
Lemma line_comments_first pre body rest :
  contains (pre ++ L "/") (L "//") = false ->
  contains body [nl] = false ->
  let s := pre ++ L "//" ++ body ++ nl :: rest in
  let s2 := pre ++ repeat sp (2 + length body) ++ nl :: rest in
  Blanked s s2 /\
  exists e0,
    line_comments (S (length s)) s 0 = line_comments (S (length s2)) s2 0
    \/
    (line_comments (S (length s)) s 0 = Some (s2, Some e0) /\
     line_comments (S (length s2)) s2 0 = Some (s2, Some 0)).
Proof.
  intros Hpre Hbody s s2.
  set (e0 := length pre + 2 + length body).
  assert (Hlen : length s = length pre + length body + length rest + 3).
  { unfold s. rewrite !length_app. change (length (L "//")) with 2.
    simpl. lia. }
  assert (Hlen2 : length s2 = length s).
  { rewrite Hlen. unfold s2. rewrite !length_app, repeat_length. simpl. lia. }
  assert (F1 : find s (L "//") 0 = Some (length pre)).
  { apply find_first; [lia | | | discriminate].
    - unfold s. rewrite skipn_length_app. reflexivity.
    - intros i _ Hi. unfold s. rewrite skipn_app.
      replace (i - length pre) with 0 by lia. cbn [skipn].
      change (L "//" ++ body ++ nl :: rest)
        with (L "/" ++ ("/"%char :: body ++ nl :: rest)).
      rewrite app_assoc.
      rewrite (@starts_with_long_enough (L "//") (skipn i pre ++ L "/")
                 ("/"%char :: body ++ nl :: rest) []).
      + rewrite app_nil_r.
        apply (@contains_false (pre ++ L "/") (L "//") (firstn i pre) _ Hpre).
        rewrite app_assoc, firstn_skipn. reflexivity.
      + rewrite length_app, length_skipn. change (length (L "//")) with 2.
        change (length (L "/")) with 1. lia. }
  assert (Hskip : forall d,
             skipn (length pre + 2 + d) s = skipn d (body ++ nl :: rest)).
  { intros d. unfold s.
    replace (length pre + 2 + d) with (d + (2 + length pre)) by lia.
    rewrite <- skipn_skipn, <- (skipn_skipn 2), skipn_length_app.
    reflexivity. }
  assert (F2 : find s [nl] (length pre + 2) = Some e0).
  { apply find_first; [unfold e0; lia | | | discriminate].
    - unfold e0. rewrite Hskip, skipn_length_app. reflexivity.
    - intros i Hi1 Hi2. unfold e0 in Hi2.
      replace i with (length pre + 2 + (i - length pre - 2)) by lia.
      rewrite Hskip, skipn_app.
      replace (i - length pre - 2 - length body) with 0 by lia.
      apply (@no_straddle body [nl] nl rest
               (firstn (i - length pre - 2) body)
               (skipn (i - length pre - 2) body) Hbody).
      + simpl. tauto.
      + symmetry. apply firstn_skipn.
      + intros E. apply (f_equal (@length ascii)) in E.
        rewrite length_skipn in E. simpl in E. lia. }
  assert (Hwrite : for_range blank (length pre) e0 0 s = s2).
  { unfold s, s2, e0.
    replace (length pre + 2 + length body)
      with (length pre + length (L "//" ++ body))
      by (rewrite !length_app; change (length (L "//")) with 2; lia).
    replace (pre ++ L "//" ++ body ++ nl :: rest)
      with (pre ++ (L "//" ++ body) ++ nl :: rest)
      by (rewrite <- !app_assoc; reflexivity).
    rewrite for_range_middle. f_equal. f_equal.
    change (L "//" ++ body) with ("/"%char :: "/"%char :: body).
    cbn [map length Nat.add repeat]. unfold blank at 1 2. do 2 f_equal.
    clear. induction body as [ | c body IH]; simpl; [reflexivity | ].
    rewrite IH. reflexivity. }
  assert (HB : Blanked s s2).
  { rewrite <- Hwrite. exact (@line_step_blanked s 0 (length pre) e0 F1 F2). }
  split; [exact HB | ].
  assert (Hnone : forall j, j < e0 ->
                            starts_with (L "//") (skipn j s2) = false).
  { intros j Hj. destruct (Nat.lt_ge_cases j (length pre)) as [Hlt | Hge].
    - unfold s2. rewrite skipn_app.
      replace (j - length pre) with 0 by lia.
      apply (@no_straddle pre (L "//") sp
               (repeat sp (1 + length body) ++ nl :: rest)
               (firstn j pre) (skipn j pre) (contains_app_l _ _ _ Hpre)).
      + vm_compute. intuition discriminate.
      + symmetry. apply firstn_skipn.
      + intros E. apply (f_equal (@length ascii)) in E.
        rewrite length_skipn in E. simpl in E. lia.
    - rewrite <- Hwrite.
      apply no_slash_in_range; [intros c; left; reflexivity | lia | lia]. }
  exists e0.
  rewrite (line_comments_S (length s) s 0), F1.
  cbn [Nat.add] in F2 |- *.
  rewrite F2, Hwrite.
  destruct (length s) as [ | n] eqn:En; [lia | ].
  rewrite Hlen2, !line_comments_S.
  rewrite (@find_skip s2 (L "//") e0 ltac:(discriminate) Hnone).
  destruct (find s2 (L "//") e0) as [start | ] eqn:G1; [ | right; auto].
  left.
  destruct (find s2 [nl] (start + 2)) as [e1 | ] eqn:G2; [ | reflexivity].
  pose proof (@find_bound s2 (L "//") e0 start ltac:(discriminate) G1)
    as [B1 _].
  pose proof (@find_bound s2 [nl] (start + 2) e1 ltac:(discriminate) G2)
    as [B2 B3].
  change (length [nl]) with 1 in B3.
  pose proof (Blanked_length (@line_step_blanked s2 e0 start e1 G1 G2)) as Hl.
  apply line_comments_fuel; unfold e0 in *; lia.
Qed.

(** X16: the first single-line comment of a text without multi-line
    comment counts as blanks.  For a comment that ends with a newline, with
    no [//] before it and no slash right before it, [remove_comments]
    returns the text it returns when the comment, from its two slashes to
    the character before the newline, is written as blanks. *)
Theorem line_comment_as_blanks :
  forall (W : Type) (report_error : ReportErrorF W)
         (pre body rest : str) (w : W),
    contains (pre ++ L "//" ++ body ++ nl :: rest) (L "/*") = false ->
    contains (pre ++ L "/") (L "//") = false ->
    contains body [nl] = false ->
    exists out,
      option_map fst
        (remove_comments report_error
           (pre ++ L "//" ++ body ++ nl :: rest) w) = Some out /\
      option_map fst
        (remove_comments report_error
           (pre ++ repeat sp (2 + length body) ++ nl :: rest) w) = Some out.
Proof.
  intros W report_error pre body rest w Hblock Hpre Hbody.
  destruct (@line_comments_first pre body rest Hpre Hbody) as [HB [e0 H]].
  cbv zeta in H, HB.
  set (s := pre ++ L "//" ++ body ++ nl :: rest) in *.
  set (s2 := pre ++ repeat sp (2 + length body) ++ nl :: rest) in *.
  assert (Hblock2 : contains s2 (L "/*") = false).
  { apply (@contains_blanked s s2 (L "/*") HB); [ | exact Hblock].
    vm_compute. intuition discriminate. }
  unfold remove_comments.
  rewrite (block_comments_nothing _ Hblock), (block_comments_nothing _ Hblock2).
  destruct H as [H | [H1 H2]].
  - rewrite H.
    destruct (@line_comments_total (S (length s2)) s2 0 ltac:(lia) ltac:(lia))
      as (o2 & e & ->).
    destruct e as [e | ]; [ | exists o2; split; reflexivity].
    destruct (@regex_replace_total trailing_ws_regex eq_refl [nl] o2)
      as [o3 ->].
    exists o3. split; reflexivity.
  - rewrite H1, H2.
    destruct (@regex_replace_total trailing_ws_regex eq_refl [nl] s2)
      as [o3 ->].
    exists o3. split; reflexivity.
Qed.

Lemma line_comment_as_blanks_witness :
  exists out,
    option_map fst
      (remove_comments record_error
         (L "a = b / c; " ++ L "//" ++ L " half" ++ nl :: L "d;") [])
    = Some out /\
    option_map fst
      (remove_comments record_error
         (L "a = b / c; " ++ repeat sp (2 + length (L " half"))
            ++ nl :: L "d;") [])
    = Some out.
Proof.
  apply (@line_comment_as_blanks _ record_error
           (L "a = b / c; ") (L " half") (L "d;") []); reflexivity.
Defined.

(** ** What the linters report *)










(** ** Two calls on one instance *)

(** What [suffix] returns, in closed form. *)
Lemma suffix_closed_form self : suffix self = suffix_text (shared_vars_ self).
Proof.
  unfold suffix, suffix_text.
  destruct (shared_vars_ self) as [ | v vars]; [reflexivity | ].
  unfold suffix_streams. cbn [fold_left].
  rewrite suffix_steps_later by reflexivity.
  unfold suffix_step, joined.
  cbn [args assign declare pass first map concat app].
  unfold args_entry, assign_entry, declare_entry.
  repeat (f_equal; cbn [app]; rewrite <- ?app_assoc; cbn [app]).
Qed.

(** The collector finds the declarations that a text holds. *)
Lemma collect_Declarations s vars :
  Declarations s vars -> collect s = Some vars.
Proof.
  induction 1 as [s Hs | pre sp1 ty sp2 nm arr rest vars
                          Hpre Hs1 Hn1 Hty Hnty Hs2 Hn2 Hnm Hnnm Harr Hstop _ IH].
  - apply collect_nothing. exact Hs.
  - apply collect_declaration; assumption.
Qed.

(** C2: the declarations belong to the instance.  When one instance, new
    at first, processes [s1] and then [s2], whatever the flags and the
    callback, both calls return; the first call leaves in the instance the
    declarations collected from the stripped [s1], the second adds those
    collected from the stripped [s2] behind them, and the second call
    returns the mutated text of [s2] followed by the four [#undef] lines
    and the four [#define] lines in which each macro lists the entries of
    the declarations of [s1] and then those of [s2].  What is collected
    from a text are the declarations it holds, from left to right. *)
Theorem shared_vars_accumulate :
  forall (W : Type) (report_error : ReportErrorF W) (s1 s2 : str)
         (a1 a2 a3 b1 b2 b3 : bool) (w : W),
  exists out1 self1 w1 out2 self2 w2 stripped1 stripped2 vars1 vars2 body2,
    process report_error s1 a1 a2 a3 fresh w = Some (out1, self1, w1) /\
    process report_error s2 b1 b2 b3 self1 w1 = Some (out2, self2, w2) /\
    option_map fst (remove_comments report_error s1 w) = Some stripped1 /\
    option_map fst (remove_comments report_error s2 w1) = Some stripped2 /\
    collect stripped1 = Some vars1 /\
    collect stripped2 = Some vars2 /\
    (forall decls, Declarations stripped1 decls -> vars1 = decls) /\
    (forall decls, Declarations stripped2 decls -> vars2 = decls) /\
    mutate stripped2 = Some body2 /\
    shared_vars_ self1 = vars1 /\
    shared_vars_ self2 = vars1 ++ vars2 /\
    out2 = body2 ++ suffix_text (vars1 ++ vars2) /\
    (vars1 ++ vars2 <> [] ->
     exists undefs,
       suffix_text (vars1 ++ vars2) =
       undefs
       ++ L "#define MSL_SHARED_VARS_ARGS "
       ++ joined " " "," (map args_entry vars1 ++ map args_entry vars2) ++ [nl]
       ++ L "#define MSL_SHARED_VARS_ASSIGN "
       ++ joined ":" "," (map assign_entry vars1 ++ map assign_entry vars2)
       ++ [nl]
       ++ L "#define MSL_SHARED_VARS_DECLARE "
       ++ concat (map declare_entry vars1 ++ map declare_entry vars2) ++ [nl]
       ++ L "#define MSL_SHARED_VARS_PASS ("
       ++ joined " " "," (map name vars1 ++ map name vars2) ++ L ")" ++ [nl]).
Proof.
  intros W report_error s1 s2 a1 a2 a3 b1 b2 b3 w.
  destruct (process_total report_error s1 a1 a2 a3 fresh w)
    as (out1 & self1 & w1 & H1).
  destruct (process_total report_error s2 b1 b2 b3 self1 w1)
    as (out2 & self2 & w2 & H2).
  exists out1, self1, w1, out2, self2, w2.
  pose proof H1 as H1'. pose proof H2 as H2'.
  rewrite process_eq in H1', H2'.
  destruct (remove_comments report_error s1 w) as [[stripped1 w1'] | ];
    [ | discriminate].
  destruct (collect stripped1) as [vars1 | ] eqn:C1; [ | discriminate].
  destruct (matrix_constructor_linting report_error stripped1 w1')
    as [w1a | ]; [ | discriminate].
  destruct (array_constructor_linting report_error stripped1 w1a)
    as [w1b | ]; [ | discriminate].
  destruct (mutate stripped1) as [body1 | ]; [ | discriminate].
  destruct (remove_comments report_error s2 w1) as [[stripped2 w2'] | ];
    [ | discriminate].
  destruct (collect stripped2) as [vars2 | ] eqn:C2; [ | discriminate].
  destruct (matrix_constructor_linting report_error stripped2 w2')
    as [w2a | ]; [ | discriminate].
  destruct (array_constructor_linting report_error stripped2 w2a)
    as [w2b | ]; [ | discriminate].
  destruct (mutate stripped2) as [body2 | ] eqn:M2; [ | discriminate].
  cbv zeta in H1', H2'.
  injection H1' as _ <- _. injection H2' as <- <- _.
  exists stripped1, stripped2, vars1, vars2, body2.
  rewrite suffix_closed_form.
  cbn [shared_vars_ fresh app option_map fst].
  repeat match goal with |- _ /\ _ => split end; auto.
  - rewrite suffix_closed_form in H2. exact H2.
  - intros decls Hd. apply collect_Declarations in Hd. congruence.
  - intros decls Hd. apply collect_Declarations in Hd. congruence.
  - intros Hne. rewrite <- !map_app. unfold suffix_text.
    destruct (vars1 ++ vars2) as [ | v vars]; [congruence | ].
    exists (L "#undef MSL_SHARED_VARS_ARGS" ++ [nl]
            ++ L "#undef MSL_SHARED_VARS_ASSIGN" ++ [nl]
            ++ L "#undef MSL_SHARED_VARS_DECLARE" ++ [nl]
            ++ L "#undef MSL_SHARED_VARS_PASS" ++ [nl]).
    rewrite <- !app_assoc. reflexivity.
Qed.

(** C2 at two texts with one declaration each: the second call, on a text
    that declares [b] alone, returns the macros for [a] and [b]. *)
Lemma shared_vars_accumulate_witness :
  exists out1 self1 out2 self2 body2,
    process no_err_report (L "shared float a;") false false false fresh tt
      = Some (out1, self1, tt) /\
    process no_err_report (L "shared int b[4];") false false false self1 tt
      = Some (out2, self2, tt) /\
    shared_vars_ self2 = a_b /\
    out2 = body2 ++ suffix_text a_b /\
    macro_definition (suffix_text a_b) (L "MSL_SHARED_VARS_ARGS")
      = Some (L " threadgroup float(&_a),threadgroup int(&_b)[4]") /\
    macro_definition (suffix_text a_b) (L "MSL_SHARED_VARS_ASSIGN")
      = Some (L ":a(_a),b(_b)") /\
    macro_definition (suffix_text a_b) (L "MSL_SHARED_VARS_DECLARE")
      = Some (L "threadgroup float a;threadgroup int b[4];") /\
    macro_definition (suffix_text a_b) (L "MSL_SHARED_VARS_PASS")
      = Some (L "( a,b)").
Proof.
  destruct (@shared_vars_accumulate unit no_err_report
              (L "shared float a;") (L "shared int b[4];")
              false false false false false false tt)
    as (out1 & self1 & w1 & out2 & self2 & w2 & stripped1 & stripped2
        & vars1 & vars2 & body2
        & H1 & H2 & R1 & R2 & _ & _ & D1 & D2 & _ & _ & V2 & O2 & _).
  destruct w1, w2.
  assert (E1 : stripped1 = L "shared float a;")
    by (vm_compute in R1; injection R1 as <-; reflexivity).
  assert (E2 : stripped2 = L "shared int b[4];")
    by (vm_compute in R2; injection R2 as <-; reflexivity).
  subst stripped1 stripped2.
  assert (Ev1 : vars1 = [ {| type := L "float"; name := L "a"; array := [] |} ]).
  { apply D1.
    apply (@one_declaration [] (L " ") (L "float") (L " ") (L "a") [] []);
      try reflexivity; try discriminate.
    apply no_declaration. reflexivity. }
  assert (Ev2 : vars2 = [ {| type := L "int"; name := L "b";
                             array := L "[4]" |} ]).
  { apply D2.
    apply (@one_declaration [] (L " ") (L "int") (L " ") (L "b") (L "[4]") []);
      try reflexivity; try discriminate.
    apply no_declaration. reflexivity. }
  subst vars1 vars2.
  exists out1, self1, out2, self2, body2.
  split; [exact H1 | ]. split; [exact H2 | ]. split; [exact V2 | ].
  split; [exact O2 | ].
  repeat split; vm_compute; reflexivity.
Defined.

(** ** The comments of a text, and what the loops blank *)







Lemma block_mask_length t : forall st, length (block_mask st t) = length t.
Proof.
  induction t as [ | c t IH]; intros st; [reflexivity | ].
  destruct st; cbn [block_mask];
    repeat match goal with |- context [if ?b then _ else _] => destruct b end;
    cbn [length]; rewrite IH; reflexivity.
Qed.

Lemma line_mask_length t : forall st, length (line_mask st t) = length t.
Proof.
  induction t as [ | c t IH]; intros st; [reflexivity | ].
  destruct st; cbn [line_mask];
    repeat match goal with |- context [if ?b then _ else _] => destruct b end;
    cbn [length]; rewrite IH; reflexivity.
Qed.












(** ** The blanks that end a line *)










(** ** Lines and columns *)





